(** * The parking lot allocator of [parking_lot/parking.py]

    A shallow embedding of the classes [Zone], [Vehicle] and [Lot] and of
    the Python primitives they use (list indexing, [list.pop],
    [bisect.insort], [defaultdict], float division and [math.ceil]),
    followed by the properties of the allocator.

    Conventions of the embedding.
    - Python [int] is [Z]; Python [float] is the binary64 [float] of the
      kernel; a Python list is a [list]; a [dict] is a [gmap].
    - A function that can raise returns a [result]: [Ok v] or [Raise e].
      The state reached when an exception escapes is not modelled.
    - Methods of [Lot] take the lot and return the lot they leave behind.
      A zone mutated in place is written back at the place the loop found
      it ([store_zone]).
    - [uuid.uuid4()] belongs to the environment: every function that
      constructs a [Vehicle] takes the identifier it draws as an argument.
    - A slot of [Zone.spots] holds the vehicle as it was when it was
      assigned to the slot; [Lot] reads nothing but [type_] through a slot.
    - The zones of a lot are held by value, as distinct objects: a zone
      mutated in place changes at the one position [store_zone] writes.
      Python holds references, and a [Zone] object listed twice changes at
      every position that holds it.  A statement on what a call leaves
      unchanged therefore speaks of the positions that hold a zone
      different from the one mutated, and a statement that counts over
      the zones of a type assumes that they are pairwise different; no
      object is listed twice then.
    - [logging.warning] calls are returned as a list of [LogRecord];
      [logging.debug] calls have no effect on the state and are left out. *)

From Stdlib Require Import ZArith Lia PrimFloat SpecFloat FloatOps Ascii.
From stdpp Require Import gmap strings list sorting.
From Equations Require Import Equations.

Local Open Scope Z_scope.

(** ** Python primitives *)

Inductive exn := IndexError | ZeroDivisionError | ValueError | OverflowError.

Inductive result (A : Type) :=
| Ok (a : A)
| Raise (e : exn).
Arguments Ok {A} a.
Arguments Raise {A} e.

#[global] Instance result_ret : MRet result := @Ok.
#[global] Instance result_bind : MBind result := λ A B f r,
  match r with Ok a => f a | Raise e => Raise e end.

Module Py.

(** [len(l)] *)
Definition len {A} (l : list A) : Z := Z.of_nat (length l).

(** The position a subscript [i] denotes in a sequence of length [n]:
    negative subscripts count from the end, anything else is out of
    range. *)
Definition index_of (n i : Z) : result nat :=
  if decide (0 ≤ i < n) then Ok (Z.to_nat i)
  else if decide (- n ≤ i < 0) then Ok (Z.to_nat (n + i))
  else Raise IndexError.

(** [l[i]] *)
Definition getitem {A} (l : list A) (i : Z) : result A :=
  j ← index_of (len l) i;
  match l !! j with Some x => Ok x | None => Raise IndexError end.

(** [l[i] = x] *)
Definition setitem {A} (l : list A) (i : Z) (x : A) : result (list A) :=
  j ← index_of (len l) i;
  Ok (<[j := x]> l).

(** [l.pop(i)]: the element and the list that is left. *)
Definition pop {A} (l : list A) (i : Z) : result (A * list A) :=
  j ← index_of (len l) i;
  match l !! j with
  | Some x => Ok (x, delete j l)
  | None => Raise IndexError
  end.

(** [l.insert(i, x)]: the position is clamped to [0 .. len(l)]. *)
Definition insert {A} (l : list A) (i : Z) (x : A) : list A :=
  let i := if decide (i < 0) then i + len l else i in
  let j := Z.to_nat (Z.min (Z.max i 0) (len l)) in
  take j l ++ x :: drop j l.

(** [range(a, b)] *)
Definition range (a b : Z) : list Z := seqZ a (b - a).

(** [a / b] on floats. *)
Definition truediv (a b : float) : result float :=
  if PrimFloat.eqb b 0%float then Raise ZeroDivisionError
  else Ok (PrimFloat.div a b).

(** [math.ceil(x)]: the least integer not below [x]. *)
Definition ceil (x : float) : result Z :=
  match Prim2SF x with
  | S754_nan => Raise ValueError
  | S754_infinity _ => Raise OverflowError
  | S754_zero _ => Ok 0
  | S754_finite s m e =>
      let n := if s then Z.neg m else Z.pos m in
      Ok (if decide (0 ≤ e) then n * 2 ^ e else - ((- n) `div` 2 ^ (- e)))
  end.

(** The loop of [bisect.bisect_right(a, x, lo, hi)]:
    [while lo < hi: mid = (lo + hi) // 2;
     if x < a[mid]: hi = mid else: lo = mid + 1]; [return lo]. *)
Equations? bisect_right (a : list Z) (x lo hi : Z) : result Z
  by wf (Z.to_nat (hi - lo)) lt :=
  bisect_right a x lo hi with decide (lo < hi) := {
    | right _ => Ok lo
    | left _ with getitem a ((lo + hi) `div` 2) := {
        | Raise e => Raise e
        | Ok y with decide (x < y) := {
            | left _ => bisect_right a x lo ((lo + hi) `div` 2)
            | right _ => bisect_right a x ((lo + hi) `div` 2 + 1) hi } } }.
Proof.
  all: pose proof (Z.div_mod (lo + hi) 2 ltac:(lia));
    pose proof (Z.mod_pos_bound (lo + hi) 2 ltac:(lia)); lia.
Qed.

(** A value together with the fact that it is the value of [x]: lets a
    loop keep what its body returned when it goes round again. *)
Definition inspect {A} (x : A) : {y : A | x = y} := exist _ x eq_refl.

(** A [for] loop whose body can raise: [f] is the body, the accumulator
    is the state the body updates. *)
Fixpoint for_each {A B} (f : B → A → result B) (b : B) (l : list A) : result B :=
  match l with
  | [] => Ok b
  | x :: l => b' ← f b x; for_each f b' l
  end.

(** [bisect.insort(a, x)] *)
Definition insort (a : list Z) (x : Z) : result (list Z) :=
  lo ← bisect_right a x 0 (len a);
  Ok (insert a lo x).

End Py.

(** ** The classes of [parking.py] *)

Module ZoneType.
Inductive t := CYCLE | COMPACT | REGULAR | LARGE.

(** The [.name] of an enumeration member. *)
Definition name (z : t) : string :=
  match z with
  | CYCLE => "CYCLE"
  | COMPACT => "COMPACT"
  | REGULAR => "REGULAR"
  | LARGE => "LARGE"
  end.
End ZoneType.

Module VehicleType.
Inductive t := CYCLE | CAR | VAN.

Definition name (v : t) : string :=
  match v with
  | CYCLE => "CYCLE"
  | CAR => "CAR"
  | VAN => "VAN"
  end.
End VehicleType.

Module Vehicle.
(** [location] is [None] for the empty tuple [()] a vehicle starts with,
    and [Some (zone, zone_index, spot_indices)] once it is parked. *)
Record t := mk {
  id_ : string;
  type_ : VehicleType.t;
  location : option (ZoneType.t * Z * list Z);
  size : float;
  priority : list ZoneType.t
}.

(** [Vehicle(type_)], with the identifier [uuid4] draws.  The literals
    are the binary64 values of [0.3], [0.8] and [3.0]. *)
Definition init (id : string) (type_ : VehicleType.t) : t :=
  match type_ with
  | VehicleType.CYCLE =>
      mk id type_ None 0x1.3333333333333p-2%float
        [ZoneType.CYCLE; ZoneType.COMPACT; ZoneType.REGULAR; ZoneType.LARGE]
  | VehicleType.CAR =>
      mk id type_ None 0x1.999999999999ap-1%float
        [ZoneType.COMPACT; ZoneType.REGULAR; ZoneType.LARGE]
  | VehicleType.VAN =>
      mk id type_ None 3%float [ZoneType.LARGE; ZoneType.REGULAR]
  end.

(** [vehicle.location = loc] *)
Definition set_location (v : t) (loc : ZoneType.t * Z * list Z) : t :=
  mk (id_ v) (type_ v) (Some loc) (size v) (priority v).
End Vehicle.

Module Zone.
Record t := mk {
  type_ : ZoneType.t;
  size : float;
  adjacent : bool;
  spots : list (option Vehicle.t);
  free : list Z
}.

(** [Zone(type_, size, num_spots, adjacent)] *)
Definition init (type_ : ZoneType.t) (size : float) (num_spots : Z)
    (adjacent : bool) : t :=
  mk type_ size adjacent
     ((λ _, None) <$> Py.range 0 num_spots)
     (Py.range 0 num_spots).

Definition set_spots (z : t) (spots : list (option Vehicle.t)) : t :=
  mk (type_ z) (size z) (adjacent z) spots (free z).

Definition set_free (z : t) (free : list Z) : t :=
  mk (type_ z) (size z) (adjacent z) (spots z) free.
End Zone.

(** The [logging.warning] calls of [Lot], one constructor per call. *)
Inductive LogRecord :=
| NoRoomInZone (zone_type : ZoneType.t) (zone_index : Z)
    (* "No room to park in {zone_type.name} {zone_index}." *)
| NoRoomToPark (type_ : VehicleType.t)
    (* "No room to park {type_.name}." *)
| VehicleNotInLot (vehicle : Vehicle.t)
    (* "Vehicle is not in parking lot: {vehicle}" *).

Module Lot.

Record t := mk {
  zones : gmap string (list Zone.t);   (* defaultdict(list) *)
  count : gmap string Z;               (* defaultdict(int) *)
  vehicles : gmap string Vehicle.t
}.

Definition set_zones (self : t) (zones : gmap string (list Zone.t)) : t :=
  mk zones (count self) (vehicles self).

Definition set_count (self : t) (count : gmap string Z) : t :=
  mk (zones self) count (vehicles self).

Definition set_vehicles (self : t) (vehicles : gmap string Vehicle.t) : t :=
  mk (zones self) (count self) vehicles.

(** [self.zones[key]]: reading a missing key of a [defaultdict(list)]
    stores the empty list under it. *)
Definition zones_get (self : t) (key : string) : list Zone.t * t :=
  match zones self !! key with
  | Some zs => (zs, self)
  | None => ([], set_zones self (<[key := []]> (zones self)))
  end.

(** The zone object at position [j] of [self.zones[key]] has been
    mutated in place into [zone]. *)
Definition store_zone (self : t) (key : string) (j : nat) (zone : Zone.t) : t :=
  set_zones self (<[key := <[j := zone]> (zones self !!! key)]> (zones self)).

(** [self.count[key] += n] on a [defaultdict(int)]. *)
Definition count_add (self : t) (key : string) (n : Z) : t :=
  set_count self (<[key := default 0 (count self !! key) + n]> (count self)).

(** [self.zones[zone.type_.name].append(zone)], the body of the loop of
    the constructor. *)
Definition append_zone (self : t) (zone : Zone.t) : t :=
  let key := ZoneType.name (Zone.type_ zone) in
  let '(zs, self) := zones_get self key in
  set_zones self (<[key := zs ++ [zone]]> (zones self)).

(** [Lot(zones)] *)
Definition init (zones : list Zone.t) : t :=
  foldl append_zone (mk ∅ ∅ ∅) zones.

(** The body of the [while] loop of [find_adjacent_free_spots]:
    [inl (index, free_indexes)] goes round again, [inr r] returns [r]. *)
Definition find_adjacent_body (free : list Z) (num_spots : Z) (first : bool)
    (index : Z) (free_indexes : list Z) : result (Z * list Z + list Z) :=
  potential_adjacent_spots ←
    mapM (Py.getitem free) (Py.range index (index + num_spots));
  first_spot ← Py.getitem potential_adjacent_spots 0;
  last_spot ← Py.getitem potential_adjacent_spots
                (Py.len potential_adjacent_spots - 1);
  let difference_between_spots := last_spot - first_spot in
  let all_spots_adjacent :=
    bool_decide (difference_between_spots + 1 = num_spots) in
  if negb all_spots_adjacent then Ok (inl (index + 1, free_indexes))
  else
    (* [spot_to_park = potential_adjacent_spots[0]] is read again here, for
       the debug message only *)
    let free_indexes := free_indexes ++ [index] in
    if first then Ok (inr free_indexes)
    else
      let spots_to_skip := num_spots + 1 in
      Ok (inl (index + spots_to_skip, free_indexes)).

(** [while index <= end: ...] followed by [return free_indexes]. *)
Equations? find_adjacent_loop (free : list Z) (num_spots : Z) (first : bool)
    (end_ index : Z) (free_indexes : list Z) : result (list Z)
  by wf (Z.to_nat (end_ - index + 1)) lt :=
  find_adjacent_loop free num_spots first end_ index free_indexes with decide (index ≤ end_) := {
    | right _ => Ok free_indexes
    | left _ with Py.inspect (find_adjacent_body free num_spots first index free_indexes) := {
        | exist _ (Raise e) _ => Raise e
        | exist _ (Ok (inr r)) _ => Ok r
        | exist _ (Ok (inl (index', free_indexes'))) H =>
            find_adjacent_loop free num_spots first end_ index' free_indexes' } }.
Proof.
  enough (index < index') by lia.
  unfold find_adjacent_body in H.
  destruct (decide (num_spots ≤ 0)) as [Hle|Hgt].
  - unfold Py.range in H. rewrite seqZ_nil in H by lia.
    cbn in H. discriminate.
  - destruct (mapM _ _) as [p|]; cbn in H; [|discriminate].
    destruct (Py.getitem p 0); cbn in H; [|discriminate].
    destruct (Py.getitem p _); cbn in H; [|discriminate].
    destruct (negb _); [injection H; lia|].
    destruct first; [discriminate|]. injection H; lia.
Qed.

Definition find_adjacent_free_spots (free : list Z) (num_spots : Z)
    (first : bool) : result (list Z) :=
  let free_indexes := [] in
  let index := 0 in
  let last_index := Py.len free - 1 in
  let end_ := last_index - (num_spots - 1) in
  find_adjacent_loop free num_spots first end_ index free_indexes.

(** The loops of [vehicle_availability] for a motorcycle or a car: the
    free spots of every zone of every type of the priority list. *)
Fixpoint count_free (self : t) (priority : list ZoneType.t) (num_spots : Z)
    : Z * t :=
  match priority with
  | [] => (num_spots, self)
  | zone_type :: priority =>
      let '(zs, self) := zones_get self (ZoneType.name zone_type) in
      count_free self priority
        (foldl (λ num_spots zone, num_spots + Py.len (Zone.free zone)) num_spots zs)
  end.

(** [vehicle_availability(type_)]; [id] is the identifier of the
    [Vehicle] the method constructs to read its size and priority. *)
Definition vehicle_availability (self : t) (id : string)
    (type_ : VehicleType.t) : result (Z * t) :=
  let vehicle := Vehicle.init id type_ in
  let num_spots := 0 in
  match type_ with
  | VehicleType.CYCLE | VehicleType.CAR =>
      Ok (count_free self (Vehicle.priority vehicle) num_spots)
  | VehicleType.VAN =>
      let '(large_zones, self) := zones_get self (ZoneType.name ZoneType.LARGE) in
      let num_spots :=
        foldl (λ num_spots zone, num_spots + Py.len (Zone.free zone))
              num_spots large_zones in
      let '(regular_zones, self) := zones_get self (ZoneType.name ZoneType.REGULAR) in
      zone0 ← Py.getitem regular_zones 0;
      q ← Py.truediv (Vehicle.size vehicle) (Zone.size zone0);
      num_spots_for_van_in_regular ← Py.ceil q;
      num_spots ←
        Py.for_each
          (λ num_spots zone,
             r ← find_adjacent_free_spots (Zone.free zone)
                   num_spots_for_van_in_regular false;
             Ok (num_spots + Py.len r))
          num_spots regular_zones;
      Ok (num_spots, self)
  end.

Definition num_parked_vehicle (self : t) (type_ : VehicleType.t) : Z :=
  match count self !! VehicleType.name type_ with
  | Some num_vehicles => num_vehicles
  | None => 0
  end.

Definition park_single (self : t) (zone : Zone.t) (zone_index : Z)
    (vehicle : Vehicle.t) : result (t * Zone.t * Vehicle.t) :=
  '(spot_index, free) ← Py.pop (Zone.free zone) 0;
  spots ← Py.setitem (Zone.spots zone) spot_index (Some vehicle);
  let zone := Zone.set_spots (Zone.set_free zone free) spots in
  let vehicle :=
    Vehicle.set_location vehicle (Zone.type_ zone, zone_index, [spot_index]) in
  let self := count_add self (VehicleType.name (Vehicle.type_ vehicle)) 1 in
  Ok (self, zone, vehicle).

(** The body of [for s in range(first, last + 1)] in [park_adjacent]. *)
Definition occupy_next (vehicle : Vehicle.t) (first_spot_index_to_park : Z)
    (st : Zone.t * list Z) (s : Z) : result (Zone.t * list Z) :=
  let '(zone, occupied_spots) := st in
  '(spot_index, free) ← Py.pop (Zone.free zone) first_spot_index_to_park;
  spots ← Py.setitem (Zone.spots zone) spot_index (Some vehicle);
  Ok (Zone.set_spots (Zone.set_free zone free) spots,
      occupied_spots ++ [spot_index]).

Definition park_adjacent (self : t) (zone : Zone.t) (zone_index : Z)
    (vehicle : Vehicle.t) : result (t * Zone.t * Vehicle.t) :=
  q ← Py.truediv (Vehicle.size vehicle) (Zone.size zone);
  num_adjacent ← Py.ceil q;
  adjacent_spots_to_park ←
    find_adjacent_free_spots (Zone.free zone) num_adjacent true;
  match adjacent_spots_to_park with
  | [] => Ok (self, zone, vehicle)
  | first_spot_index_to_park :: _ =>
      let last_spot_index_to_park :=
        first_spot_index_to_park + (num_adjacent - 1) in
      '(zone, occupied_spots) ←
        Py.for_each (occupy_next vehicle first_spot_index_to_park) (zone, [])
          (Py.range first_spot_index_to_park (last_spot_index_to_park + 1));
      let vehicle :=
        Vehicle.set_location vehicle (Zone.type_ zone, zone_index, occupied_spots) in
      let self :=
        count_add self (VehicleType.name (Vehicle.type_ vehicle)) num_adjacent in
      Ok (self, zone, vehicle)
  end.

(** The inner loop of [park_first_available],
    [for (zone_index, zone) in enumerate(self.zones[zone_type.name])],
    from position [zone_index] on; [zs] is what is left of the list.
    Returns the lot, the vehicle, [parked] and the warnings. *)
Fixpoint park_in_zones (self : t) (zone_type : ZoneType.t) (zs : list Zone.t)
    (zone_index : nat) (vehicle : Vehicle.t)
    : result (t * Vehicle.t * bool * list LogRecord) :=
  match zs with
  | [] => Ok (self, vehicle, false, [])
  | zone :: zs =>
      let free_spots_exist := Py.len (Zone.free zone) in
      if decide (free_spots_exist = 0) then
        park_in_zones self zone_type zs (S zone_index) vehicle
      else
        let vehicle_fits_in_single_spot :=
          PrimFloat.leb (Vehicle.size vehicle) (Zone.size zone) in
        if vehicle_fits_in_single_spot then
          '(self, zone, vehicle) ←
            park_single self zone (Z.of_nat zone_index) vehicle;
          Ok (store_zone self (ZoneType.name zone_type) zone_index zone,
              vehicle, true, [])
        else if Zone.adjacent zone then
          '(self, zone, vehicle) ←
            park_adjacent self zone (Z.of_nat zone_index) vehicle;
          Ok (store_zone self (ZoneType.name zone_type) zone_index zone,
              vehicle, true, [])
        else
          '(self, vehicle, parked, log) ←
            park_in_zones self zone_type zs (S zone_index) vehicle;
          Ok (self, vehicle, parked,
              NoRoomInZone zone_type (Z.of_nat zone_index) :: log)
  end.

(** The outer loop, [for zone_type in vehicle.priority]. *)
Fixpoint park_by_priority (self : t) (priority : list ZoneType.t)
    (vehicle : Vehicle.t) : result (t * Vehicle.t * list LogRecord) :=
  match priority with
  | [] => Ok (self, vehicle, [])
  | zone_type :: priority =>
      let '(zs, self) := zones_get self (ZoneType.name zone_type) in
      '(self, vehicle, parked, log) ← park_in_zones self zone_type zs 0 vehicle;
      if (parked : bool) then Ok (self, vehicle, log)
      else
        '(self, vehicle, log') ← park_by_priority self priority vehicle;
        Ok (self, vehicle, log ++ log')
  end.

Definition park_first_available (self : t) (vehicle : Vehicle.t)
    : result (t * Vehicle.t * list LogRecord) :=
  park_by_priority self (Vehicle.priority vehicle) vehicle.

(** [add_vehicle(type_)]: the vehicle returned, the warnings, the lot. *)
Definition add_vehicle (self : t) (id : string) (type_ : VehicleType.t)
    : result (Vehicle.t * list LogRecord * t) :=
  '(self, vehicle, log) ← park_first_available self (Vehicle.init id type_);
  match Vehicle.location vehicle with
  | None => Ok (vehicle, log ++ [NoRoomToPark type_], self)
  | Some _ =>
      Ok (vehicle, log,
          set_vehicles self (<[Vehicle.id_ vehicle := vehicle]> (vehicles self)))
  end.

(** [add_vehicles(type_, quantity)], [quantity] being the number of
    identifiers drawn. *)
Definition add_vehicles (self : t) (ids : list string) (type_ : VehicleType.t)
    : result (list Vehicle.t * list LogRecord * t) :=
  Py.for_each
    (λ '(vehicles, log, self) id,
       '(vehicle, log', self) ← add_vehicle self id type_;
       Ok (vehicles ++ [vehicle], log ++ log', self))
    ([], [], self) ids.

(** The body of [for spot_index in spot_indices] in [remove_vehicle]. *)
Definition free_spot (zone : Zone.t) (spot_index : Z) : result Zone.t :=
  spots ← Py.setitem (Zone.spots zone) spot_index None;
  free ← Py.insort (Zone.free zone) spot_index;
  Ok (Zone.set_free (Zone.set_spots zone spots) free).

(** [remove_vehicle(vehicle)]: the warnings and the lot. *)
Definition remove_vehicle (self : t) (vehicle : Vehicle.t)
    : result (list LogRecord * t) :=
  if decide (is_Some (vehicles self !! Vehicle.id_ vehicle)) then
    match Vehicle.location vehicle with
    | None => Raise ValueError   (* unpacking the empty tuple *)
    | Some (zone_type, zone_index, spot_indices) =>
        let '(zs, self) := zones_get self (ZoneType.name zone_type) in
        j ← Py.index_of (Py.len zs) zone_index;
        zone_to_remove_from ← Py.getitem zs zone_index;
        zone_to_remove_from ←
          Py.for_each free_spot zone_to_remove_from spot_indices;
        let self := store_zone self (ZoneType.name zone_type) j zone_to_remove_from in
        let self := count_add self (VehicleType.name (Vehicle.type_ vehicle)) (-1) in
        Ok ([], set_vehicles self (delete (Vehicle.id_ vehicle) (vehicles self)))
    end
  else Ok ([VehicleNotInLot vehicle], self).

(** [zone_spots_string(zone)]: one character for each slot. *)
Definition zone_spots_string (self : t) (zone : Zone.t) : string :=
  foldl (λ spots vehicle,
           match vehicle with
           | None => spots +:+ "O"
           | Some vehicle =>
               match Vehicle.type_ vehicle with
               | VehicleType.CYCLE => spots +:+ "M"
               | VehicleType.CAR => spots +:+ "C"
               | VehicleType.VAN => spots +:+ "V"
               end
           end)
        "" (Zone.spots zone).

End Lot.

(** ** The contiguous-run search as the specification words it *)

(** A window of [length] entries of the free set starting at [cursor] is
    accepted when [last_value - first_value = length - 1]. *)
Definition window_accepted (free : list Z) (length cursor : nat) : Prop :=
  ∃ first_value last_value,
    free !! cursor = Some first_value ∧
    free !! (cursor + length - 1)%nat = Some last_value ∧
    last_value - first_value = Z.of_nat length - 1.

(** [contiguous_run_search free length first_only cursor found result]:
    with the cursor at [cursor] and the runs [found] so far, the search
    ends with [result].  It stops when fewer than [length] entries remain
    at or after the cursor; an accepted window records the cursor and
    moves it by [length + 1], or ends the search when [first_only] is set;
    a rejected window moves the cursor by one. *)
Inductive contiguous_run_search (free : list Z) (length : nat) (first_only : bool)
  : nat → list nat → list nat → Prop :=
| crs_stop cursor found :
    (List.length free < cursor + length)%nat →
    contiguous_run_search free length first_only cursor found found
| crs_first cursor found :
    (cursor + length ≤ List.length free)%nat →
    window_accepted free length cursor →
    first_only = true →
    contiguous_run_search free length first_only cursor found (found ++ [cursor])
| crs_next cursor found result :
    (cursor + length ≤ List.length free)%nat →
    window_accepted free length cursor →
    first_only = false →
    contiguous_run_search free length first_only
      (cursor + (length + 1)) (found ++ [cursor]) result →
    contiguous_run_search free length first_only cursor found result
| crs_skip cursor found result :
    (cursor + length ≤ List.length free)%nat →
    ¬ window_accepted free length cursor →
    contiguous_run_search free length first_only (cursor + 1) found result →
    contiguous_run_search free length first_only cursor found result.

(** ** Well-formed states and reachable states *)

(** The free list of a zone is strictly ascending, every free index is a
    slot that holds no vehicle, and every slot that holds no vehicle is in
    the free list. *)
Record zone_wf (z : Zone.t) : Prop := {
  wf_sorted : StronglySorted Z.lt (Zone.free z);
  wf_free_none : ∀ s, s ∈ Zone.free z →
                      0 ≤ s ∧ Zone.spots z !! Z.to_nat s = Some None;
  wf_none_free : ∀ j, Zone.spots z !! j = Some None → Z.of_nat j ∈ Zone.free z
}.

(** Every zone is filed under the name of its own type and is well
    formed. *)
Definition lot_wf (lot : Lot.t) : Prop :=
  ∀ key z, z ∈ Lot.zones lot !!! key →
           ZoneType.name (Zone.type_ z) = key ∧ zone_wf z.

(** Slot [j] of a slot array exists and holds no vehicle. *)
Definition slot_is_free (spots : list (option Vehicle.t)) (j : nat) : bool :=
  match spots !! j with
  | Some None => true
  | _ => false
  end.

(** [free_count], [occupied_count] and [total_slots] of a zone. *)
Definition free_count (z : Zone.t) : nat := length (Zone.free z).
Definition occupied_count (z : Zone.t) : nat :=
  length (filter is_Some (Zone.spots z)).
Definition total_slots (z : Zone.t) : nat := length (Zone.spots z).

(** What never changes in a zone: type, slot size, spanning flag and
    number of slots. *)
Definition zone_shape (z : Zone.t) : ZoneType.t * float * bool * nat :=
  (Zone.type_ z, Zone.size z, Zone.adjacent z, total_slots z).

(** The location of [v] names slots of a zone of [lot] that hold [v]. *)
Definition parked_in (lot : Lot.t) (v : Vehicle.t) : Prop :=
  ∃ zone_type j spot_indices z,
    Vehicle.location v = Some (zone_type, Z.of_nat j, spot_indices) ∧
    (Lot.zones lot !!! ZoneType.name zone_type) !! j = Some z ∧
    NoDup spot_indices ∧
    ∀ s, s ∈ spot_indices →
         0 ≤ s ∧ ∃ v', Zone.spots z !! Z.to_nat s = Some (Some v') ∧
                       Vehicle.id_ v' = Vehicle.id_ v.

(** The invariant of the allocator; [lot0] is the lot as constructed and
    [issued] the vehicles [add_vehicle] has returned so far. *)
Record lot_inv (lot0 lot : Lot.t) (issued : list Vehicle.t) : Prop := {
  inv_wf : lot_wf lot;
  inv_shape : ∀ key, zone_shape <$> (Lot.zones lot !!! key)
                     = zone_shape <$> (Lot.zones lot0 !!! key);
  inv_ids : NoDup (Vehicle.id_ <$> issued);
  inv_vehicles : ∀ id v, Lot.vehicles lot !! id = Some v →
                         Vehicle.id_ v = id ∧ v ∈ issued ∧ parked_in lot v
}.

(** A zone as [Zone(...)] constructs it. *)
Definition fresh_zone (z : Zone.t) : Prop :=
  ∃ type_ size num_spots adjacent, z = Zone.init type_ size num_spots adjacent.

(** The states a lot constructed from the zones [zs] (distinct objects)
    goes through, with the vehicles returned so far.  [add_vehicle] draws
    an identifier that no vehicle has had before; [remove_vehicle] is given
    a vehicle that [add_vehicle] returned (parked, turned away or already
    removed) or any vehicle whose identifier is not stored in the lot;
    [vehicle_availability] can be asked at any time.  A call that raises
    is not a step. *)
Inductive reachable (zs : list Zone.t) : Lot.t → list Vehicle.t → Prop :=
| reach_init :
    Forall fresh_zone zs → reachable zs (Lot.init zs) []
| reach_add lot issued id type_ vehicle log lot' :
    reachable zs lot issued →
    id ∉ Vehicle.id_ <$> issued →
    Lot.add_vehicle lot id type_ = Ok (vehicle, log, lot') →
    reachable zs lot' (vehicle :: issued)
| reach_remove lot issued vehicle log lot' :
    reachable zs lot issued →
    vehicle ∈ issued ∨ Lot.vehicles lot !! Vehicle.id_ vehicle = None →
    Lot.remove_vehicle lot vehicle = Ok (log, lot') →
    reachable zs lot' issued
| reach_query lot issued id type_ num_spots lot' :
    reachable zs lot issued →
    Lot.vehicle_availability lot id type_ = Ok (num_spots, lot') →
    reachable zs lot' issued.

(** ** What parking and leaving do to a zone *)

(** The slots [ss] of a slot array all set to [x]. *)
Definition set_slots (x : option Vehicle.t) (ss : list Z)
    (spots : list (option Vehicle.t)) : list (option Vehicle.t) :=
  foldl (λ spots s, <[Z.to_nat s := x]> spots) spots ss.

(** The zone once [v] holds the [n] free-list entries from position [p]
    of the free list on. *)
Definition occupy (z : Zone.t) (v : Vehicle.t) (p n : nat) : Zone.t :=
  Zone.mk (Zone.type_ z) (Zone.size z) (Zone.adjacent z)
    (set_slots (Some v) (take n (drop p (Zone.free z))) (Zone.spots z))
    (take p (Zone.free z) ++ drop (p + n) (Zone.free z)).

(** [placed self v self' v']: the vehicle [v] has been parked in the lot
    [self], which gives the lot [self'] and the vehicle [v'] with its
    location: [n] free-list entries from position [p] on, in the zone at
    position [j] under [zone_type]. *)
Definition placed (self : Lot.t) (v : Vehicle.t) (self' : Lot.t) (v' : Vehicle.t)
    : Prop :=
  ∃ zone_type j z p n,
    (Lot.zones self !!! ZoneType.name zone_type) !! j = Some z ∧
    (0 < n)%nat ∧ (p + n ≤ length (Zone.free z))%nat ∧
    v' = Vehicle.set_location v
           (zone_type, Z.of_nat j, take n (drop p (Zone.free z))) ∧
    (∀ key, Lot.zones self' !!! key =
            if decide (key = ZoneType.name zone_type)
            then <[j := occupy z v p n]> (Lot.zones self !!! key)
            else Lot.zones self !!! key) ∧
    Lot.count self' =
      <[VehicleType.name (Vehicle.type_ v) :=
          default 0 (Lot.count self !! VehicleType.name (Vehicle.type_ v)) + Z.of_nat n]>
        (Lot.count self) ∧
    Lot.vehicles self' = Lot.vehicles self.

(** ** A sample run *)

(** One REGULAR zone of five slots of size [1.0] that lets a vehicle span
    adjacent slots, as the zone [regular] of the script, but shorter. *)
Definition demo_zones : list Zone.t :=
  [Zone.init ZoneType.REGULAR 1%float 5 true].

(** Two cars are parked (slots 0 and 1) and the first one leaves: slots 0,
    2, 3 and 4 are free. *)
Definition demo_run : result (Lot.t * list Vehicle.t) :=
  '(car0, _, lot) ← Lot.add_vehicle (Lot.init demo_zones) "car0" VehicleType.CAR;
  '(car1, _, lot) ← Lot.add_vehicle lot "car1" VehicleType.CAR;
  '(_, lot) ← Lot.remove_vehicle lot car0;
  Ok (lot, [car1; car0]).

Definition demo_lot : Lot.t :=
  match demo_run with Ok (lot, _) => lot | Raise _ => Lot.init [] end.

Definition demo_issued : list Vehicle.t :=
  match demo_run with Ok (_, issued) => issued | Raise _ => [] end.

(** ** Free slots, stored vehicles and the zones the search passes over *)

(** The number of free slots of the zones under a zone type. *)
Definition free_under (lot : Lot.t) (zone_type : ZoneType.t) : Z :=
  foldr Z.add 0 ((λ z, Py.len (Zone.free z)) <$> Lot.zones lot !!! ZoneType.name zone_type).

(** The loop of [park_first_available] passes over a zone that has no free
    slot, and over one whose slots are too small for the vehicle and that
    does not let it span slots. *)
Definition passed_over (v : Vehicle.t) (z : Zone.t) : Prop :=
  Zone.free z = [] ∨
  (PrimFloat.leb (Vehicle.size v) (Zone.size z) = false ∧ Zone.adjacent z = false).

#[global] Instance ZoneType_eq_dec : EqDecision ZoneType.t.
Proof. solve_decision. Defined.

#[global] Instance VehicleType_eq_dec : EqDecision VehicleType.t.
Proof. solve_decision. Defined.

(** The number of vehicles of a type stored in [self.vehicles]. *)
Definition stored_of_type (lot : Lot.t) (type_ : VehicleType.t) : nat :=
  size (filter (λ kv : string * Vehicle.t, Vehicle.type_ kv.2 = type_)
          (Lot.vehicles lot)).

(** ** Lemmas on the Python primitives *)

Lemma bind_Ok {A B} (r : result A) (f : A → result B) (b : B) :
  r ≫= f = Ok b → ∃ a, r = Ok a ∧ f a = Ok b.
Proof. destruct r as [a|e]; [eauto | discriminate]. Qed.

Lemma Ok_inj {A} (a b : A) : Ok a = Ok b → a = b.
Proof. by inversion 1. Qed.

Ltac inv_bind H :=
  let a := fresh "a" in
  let Ha := fresh "Ha" in
  apply bind_Ok in H; destruct H as (a & Ha & H).

Lemma index_of_nat (n : Z) (j : nat) :
  Z.of_nat j < n → Py.index_of n (Z.of_nat j) = Ok j.
Proof.
  intros Hj. unfold Py.index_of.
  rewrite decide_True by lia. by rewrite Nat2Z.id.
Qed.

Lemma getitem_nat {A} (l : list A) (j : nat) (x : A) :
  l !! j = Some x → Py.getitem l (Z.of_nat j) = Ok x.
Proof.
  intros H. unfold Py.getitem, Py.len.
  rewrite index_of_nat by (apply lookup_lt_Some in H; lia).
  cbn. by rewrite H.
Qed.

Lemma getitem_nil {A} (i : Z) : Py.getitem (@nil A) i = Raise IndexError.
Proof.
  unfold Py.getitem, Py.index_of, Py.len. cbn.
  rewrite !decide_False by lia. done.
Qed.

Lemma setitem_nat {A} (l : list A) (j : nat) (x : A) :
  (j < length l)%nat → Py.setitem l (Z.of_nat j) x = Ok (<[j := x]> l).
Proof.
  intros H. unfold Py.setitem, Py.len. by rewrite index_of_nat by lia.
Qed.

Lemma pop_nat {A} (l : list A) (j : nat) (x : A) :
  l !! j = Some x → Py.pop l (Z.of_nat j) = Ok (x, delete j l).
Proof.
  intros H. unfold Py.pop, Py.len.
  rewrite index_of_nat by (apply lookup_lt_Some in H; lia).
  cbn. by rewrite H.
Qed.

Lemma range_nil (a b : Z) : b ≤ a → Py.range a b = [].
Proof. intros. unfold Py.range. apply seqZ_nil. lia. Qed.

Lemma range_cons (a b : Z) : a < b → Py.range a b = a :: Py.range (a + 1) b.
Proof.
  intros. unfold Py.range. rewrite seqZ_cons by lia.
  f_equal. f_equal; lia.
Qed.

(** The list comprehension [[free[x] for x in range(i, i + n)]] is the
    slice [free[i : i + n]] when the slice lies inside the list. *)
Lemma mapM_getitem_range (free : list Z) (n i : nat) :
  (i + n ≤ length free)%nat →
  mapM (Py.getitem free) (Py.range (Z.of_nat i) (Z.of_nat i + Z.of_nat n))
  = Ok (take n (drop i free)).
Proof.
  revert i. induction n as [|n IH]; intros i Hin.
  - rewrite range_nil by lia. done.
  - rewrite range_cons by lia.
    destruct (lookup_lt_is_Some_2 free i ltac:(lia)) as [x Hx].
    cbn [mapM]. rewrite (getitem_nat _ _ _ Hx). cbn.
    replace (Z.of_nat i + 1) with (Z.of_nat (S i)) by lia.
    replace (Z.of_nat i + Z.of_nat (S n)) with (Z.of_nat (S i) + Z.of_nat n) by lia.
    rewrite IH by lia. cbn.
    rewrite (drop_S _ _ _ Hx). done.
Qed.

(** ** The contiguous-run search *)

Lemma find_adjacent_loop_unfold free num_spots first end_ index free_indexes :
  Lot.find_adjacent_loop free num_spots first end_ index free_indexes =
  if decide (index ≤ end_) then
    match Lot.find_adjacent_body free num_spots first index free_indexes with
    | Raise e => Raise e
    | Ok (inr r) => Ok r
    | Ok (inl (index', free_indexes')) =>
        Lot.find_adjacent_loop free num_spots first end_ index' free_indexes'
    end
  else Ok free_indexes.
Proof.
  simp find_adjacent_loop.
  destruct (decide (index ≤ end_)) as [Hle|Hgt]; cbn; [|done].
  destruct (Lot.find_adjacent_body free num_spots first index free_indexes)
    as [[[i' a']|r]|e]; reflexivity.
Qed.

Lemma find_adjacent_body_in_range (free : list Z) (n i : nat) first acc :
  (0 < n)%nat → (i + n ≤ length free)%nat →
  ∃ a b, free !! i = Some a ∧ free !! (i + n - 1)%nat = Some b ∧
    Lot.find_adjacent_body free (Z.of_nat n) first (Z.of_nat i) acc =
    Ok (if decide (b - a = Z.of_nat n - 1) then
          if first then inr (acc ++ [Z.of_nat i])
          else inl (Z.of_nat i + (Z.of_nat n + 1), acc ++ [Z.of_nat i])
        else inl (Z.of_nat i + 1, acc)).
Proof.
  intros Hn Hin.
  destruct (lookup_lt_is_Some_2 free i ltac:(lia)) as [a Ha].
  destruct (lookup_lt_is_Some_2 free (i + n - 1) ltac:(lia)) as [b Hb].
  exists a, b. split; [done|]. split; [done|].
  unfold Lot.find_adjacent_body.
  rewrite mapM_getitem_range by done. cbn.
  set (p := take n (drop i free)).
  assert (Hlen : length p = n).
  { unfold p. rewrite length_take, length_drop. lia. }
  assert (Hp0 : p !! 0%nat = Some a).
  { unfold p. rewrite lookup_take_lt by lia. rewrite lookup_drop.
    by rewrite Nat.add_0_r. }
  assert (Hp1 : p !! (n - 1)%nat = Some b).
  { unfold p. rewrite lookup_take_lt by lia. rewrite lookup_drop.
    by replace (i + (n - 1))%nat with (i + n - 1)%nat by lia. }
  change 0 with (Z.of_nat 0) at 1. rewrite (getitem_nat p 0 a Hp0). cbn.
  replace (Py.len p - 1) with (Z.of_nat (n - 1)) by (unfold Py.len; lia).
  rewrite (getitem_nat p (n - 1) b Hp1). cbn.
  destruct (decide (b - a = Z.of_nat n - 1)) as [Heq|Hne].
  - rewrite bool_decide_eq_true_2 by lia. by destruct first.
  - rewrite bool_decide_eq_false_2 by lia. done.
Qed.

Lemma window_accepted_iff (free : list Z) (n i : nat) a b :
  free !! i = Some a → free !! (i + n - 1)%nat = Some b →
  window_accepted free n i ↔ b - a = Z.of_nat n - 1.
Proof.
  intros Ha Hb. split.
  - intros (a' & b' & Ha' & Hb' & H). congruence.
  - intros H. by exists a, b.
Qed.

Lemma contiguous_run_search_det free n first i acc r1 r2 :
  contiguous_run_search free n first i acc r1 →
  contiguous_run_search free n first i acc r2 → r1 = r2.
Proof.
  intros H1. revert r2.
  induction H1; intros r2 Hother; inversion Hother; subst;
    try done; try lia; try congruence; eauto.
Qed.

Lemma find_adjacent_loop_spec (free : list Z) (n : nat) first (k i : nat) acc :
  (0 < n)%nat → (length free + 1 - i ≤ k)%nat →
  ∃ r, Lot.find_adjacent_loop free (Z.of_nat n) first
         (Py.len free - 1 - (Z.of_nat n - 1)) (Z.of_nat i) (Z.of_nat <$> acc)
       = Ok (Z.of_nat <$> r)
       ∧ contiguous_run_search free n first i acc r.
Proof.
  intros Hn. revert i acc. induction k as [|k IH]; intros i acc Hk.
  - exists acc. rewrite find_adjacent_loop_unfold.
    rewrite decide_False by (unfold Py.len; lia).
    split; [done|]. apply crs_stop. lia.
  - rewrite find_adjacent_loop_unfold.
    destruct (decide (Z.of_nat i ≤ Py.len free - 1 - (Z.of_nat n - 1))) as [Hle|Hgt].
    2:{ exists acc. split; [done|]. apply crs_stop. unfold Py.len in Hgt. lia. }
    assert (Hin : (i + n ≤ length free)%nat) by (unfold Py.len in Hle; lia).
    destruct (find_adjacent_body_in_range free n i first (Z.of_nat <$> acc) Hn Hin)
      as (a & b & Ha & Hb & ->).
    pose proof (window_accepted_iff free n i a b Ha Hb) as Hw.
    destruct (decide (b - a = Z.of_nat n - 1)) as [Heq|Hne].
    + destruct first.
      * exists (acc ++ [i]). rewrite fmap_app. split; [done|].
        apply crs_first; [done| by apply Hw |done].
      * destruct (IH (i + (n + 1))%nat (acc ++ [i]) ltac:(lia)) as (r & Hr & Hs).
        exists r. split.
        -- rewrite fmap_app in Hr. cbn in Hr.
           replace (Z.of_nat i + (Z.of_nat n + 1)) with (Z.of_nat (i + (n + 1))) by lia.
           done.
        -- apply crs_next; [done| by apply Hw |done|done].
    + destruct (IH (i + 1)%nat acc ltac:(lia)) as (r & Hr & Hs).
      exists r. split.
      * replace (Z.of_nat i + 1) with (Z.of_nat (i + 1)) by lia. done.
      * apply crs_skip; [done| |done]. intros Hacc. apply Hne. by apply Hw.
Qed.

Lemma find_adjacent_free_spots_search (free : list Z) (n : nat) (first : bool) :
  (0 < n)%nat →
  ∃ found,
    Lot.find_adjacent_free_spots free (Z.of_nat n) first = Ok (Z.of_nat <$> found)
    ∧ contiguous_run_search free n first 0 [] found.
Proof.
  intros Hn.
  apply (find_adjacent_loop_spec free n first (length free + 1) 0 [] Hn). lia.
Qed.

(** C3. For a positive run length, [find_adjacent_free_spots] returns, and
    what it returns is the result of the search the specification words:
    a window of [length] free-list entries at the cursor, accepted exactly
    when [last_value - first_value = length - 1], its start position
    recorded, the cursor moved by [length + 1] after an accepted window and
    by [1] after a rejected one, the search over when fewer than [length]
    entries remain, and over at the first accepted window when [first_only]
    is set.  That search has one result only.  The free list need not be
    sorted for this. *)
Theorem find_adjacent_free_spots_refines (free : list Z) (length : nat) (first_only : bool) :
  (0 < length)%nat →
  ∃ found,
    Lot.find_adjacent_free_spots free (Z.of_nat length) first_only
    = Ok (Z.of_nat <$> found)
    ∧ contiguous_run_search free length first_only 0 [] found
    ∧ ∀ found', contiguous_run_search free length first_only 0 [] found' →
                found' = found.
Proof.
  intros Hn.
  destruct (find_adjacent_free_spots_search free length first_only Hn)
    as (r & Hr & Hs).
  exists r. split; [exact Hr|]. split; [done|].
  intros r' Hr'. eapply contiguous_run_search_det; eauto.
Qed.

(** ** [bisect.insort] on a sorted list *)

Lemma bisect_right_unfold (a : list Z) (x lo hi : Z) :
  Py.bisect_right a x lo hi =
  if decide (lo < hi) then
    y ← Py.getitem a ((lo + hi) `div` 2);
    if decide (x < y) then Py.bisect_right a x lo ((lo + hi) `div` 2)
    else Py.bisect_right a x ((lo + hi) `div` 2 + 1) hi
  else Ok lo.
Proof.
  etrans; [apply Py.bisect_right_unfold_eq|].
  unfold Py.bisect_right_unfold.
  destruct (decide (lo < hi)); cbn; [|done].
  destruct (Py.getitem a _) as [y|e]; cbn; [|done].
  by destruct (decide (x < y)).
Qed.

Lemma sorted_lookup_lt (a : list Z) (i j : nat) (y y' : Z) :
  StronglySorted Z.lt a → a !! i = Some y → a !! j = Some y' →
  (i < j)%nat → y < y'.
Proof.
  intros Hs. revert i j. induction Hs as [|z l Hs IH Hall]; intros i j Hi Hj Hij.
  - by rewrite lookup_nil in Hi.
  - destruct j as [|j]; [lia|]. destruct i as [|i]; cbn in *.
    + inversion Hi; subst. rewrite Forall_forall in Hall.
      apply Hall. by eapply list_elem_of_lookup_2.
    + eapply IH; eauto. lia.
Qed.

Lemma bisect_right_sorted (a : list Z) (x : Z) (k : nat) (lo hi : nat) :
  StronglySorted Z.lt a →
  (hi - lo ≤ k)%nat → (lo ≤ hi ≤ length a)%nat →
  (∀ i y, a !! i = Some y → (i < lo)%nat → y ≤ x) →
  (∀ i y, a !! i = Some y → (hi ≤ i)%nat → x < y) →
  ∃ r : nat, Py.bisect_right a x (Z.of_nat lo) (Z.of_nat hi) = Ok (Z.of_nat r) ∧
    (r ≤ length a)%nat ∧
    (∀ i y, a !! i = Some y → (i < r)%nat → y ≤ x) ∧
    (∀ i y, a !! i = Some y → (r ≤ i)%nat → x < y).
Proof.
  intros Hs. revert lo hi. induction k as [|k IH]; intros lo hi Hk Hb Hlo Hhi.
  - exists lo. rewrite bisect_right_unfold, decide_False by lia.
    assert (lo = hi) by lia. subst. repeat split; [lia|done|done].
  - rewrite bisect_right_unfold.
    destruct (decide (Z.of_nat lo < Z.of_nat hi)) as [Hlt|Hge].
    2:{ exists lo. assert (lo = hi) by lia. subst. repeat split; [lia|done|done]. }
    set (mid := ((lo + hi) / 2)%nat).
    assert (Hmid : (Z.of_nat lo + Z.of_nat hi) `div` 2 = Z.of_nat mid).
    { unfold mid. by rewrite Nat2Z.inj_div, Nat2Z.inj_add. }
    assert (Hm : (lo ≤ mid < hi)%nat).
    { unfold mid. pose proof (Nat.div_mod_eq (lo + hi) 2).
      pose proof (Nat.mod_upper_bound (lo + hi) 2). lia. }
    rewrite Hmid. clearbody mid.
    destruct (lookup_lt_is_Some_2 a mid ltac:(lia)) as [y Hy].
    rewrite (getitem_nat _ _ _ Hy). cbn.
    destruct (decide (x < y)) as [Hxy|Hxy].
    + apply IH; [lia|lia|done|].
      intros i y' Hi Hle. destruct (decide (i = mid)) as [->|Hne].
      * congruence.
      * pose proof (sorted_lookup_lt a mid i y y' Hs Hy Hi ltac:(lia)). lia.
    + replace (Z.of_nat mid + 1) with (Z.of_nat (S mid)) by lia.
      apply IH; [lia|lia| |done].
      intros i y' Hi Hle. destruct (decide (i = mid)) as [->|Hne].
      * assert (y' = y) by congruence. lia.
      * pose proof (sorted_lookup_lt a i mid y' y Hs Hi Hy ltac:(lia)). lia.
Qed.

Lemma insert_nat {A} (l : list A) (r : nat) (x : A) :
  (r ≤ length l)%nat → Py.insert l (Z.of_nat r) x = take r l ++ x :: drop r l.
Proof.
  intros Hr. unfold Py.insert, Py.len.
  rewrite decide_False by lia.
  replace (Z.to_nat _) with r by lia. done.
Qed.

(** Inserting a value that is not in a strictly ascending list keeps the
    list strictly ascending. *)
Lemma insort_sorted (a : list Z) (x : Z) :
  StronglySorted Z.lt a → x ∉ a →
  ∃ a', Py.insort a x = Ok a' ∧ StronglySorted Z.lt a' ∧ a' ≡ₚ x :: a.
Proof.
  intros Hs Hx.
  destruct (bisect_right_sorted a x (length a) 0 (length a) Hs)
    as (r & Hr & Hlen & Hlo & Hhi); [lia|lia| | |].
  { intros; lia. }
  { intros i y Hi Hle. apply lookup_lt_Some in Hi. lia. }
  exists (take r a ++ x :: drop r a).
  unfold Py.insort, Py.len. change (Z.of_nat 0) with 0 in Hr. rewrite Hr. cbn.
  rewrite insert_nat by done. split; [done|]. split.
  - rewrite <- (take_drop r a) in Hs.
    apply StronglySorted_app in Hs as (_ & Ht & Hd).
    apply StronglySorted_app_2; [|done|].
    + intros y1 y2 Hy1 Hy2.
      apply list_elem_of_lookup in Hy1 as [i Hi].
      pose proof (lookup_lt_Some _ _ _ Hi) as Hil. rewrite length_take in Hil.
      rewrite lookup_take_lt in Hi by lia.
      assert (y1 < x).
      { pose proof (Hlo i y1 Hi ltac:(lia)).
        assert (y1 ≠ x); [|lia].
        intros ->. apply Hx. by eapply list_elem_of_lookup_2. }
      apply elem_of_cons in Hy2 as [->|Hy2]; [done|].
      apply list_elem_of_lookup in Hy2 as [j Hj]. rewrite lookup_drop in Hj.
      pose proof (Hhi _ _ Hj ltac:(lia)). lia.
    + apply StronglySorted_cons. split; [|done].
      apply Forall_forall. intros y Hy.
      apply list_elem_of_lookup in Hy as [j Hj]. rewrite lookup_drop in Hj.
      apply (Hhi _ _ Hj). lia.
  - rewrite <- (take_drop r a) at 3. by rewrite Permutation_middle.
Qed.

(** ** The dictionaries of the lot *)

Lemma zones_get_spec (self self' : Lot.t) (key : string) (zs : list Zone.t) :
  Lot.zones_get self key = (zs, self') →
  zs = Lot.zones self !!! key ∧
  Lot.zones self' !! key = Some zs ∧
  (∀ k, Lot.zones self' !!! k = Lot.zones self !!! k) ∧
  Lot.count self' = Lot.count self ∧
  Lot.vehicles self' = Lot.vehicles self.
Proof.
  unfold Lot.zones_get. intros H.
  destruct (Lot.zones self !! key) as [l|] eqn:E; inversion H; subst; clear H.
  - rewrite lookup_total_alt, E. done.
  - cbn. rewrite lookup_total_alt, E, lookup_insert_eq.
    repeat split; try done.
    intros k. rewrite !lookup_total_alt.
    destruct (decide (k = key)) as [->|Hne].
    + by rewrite lookup_insert_eq, E.
    + by rewrite lookup_insert_ne.
Qed.

Lemma store_zone_lookup (self : Lot.t) (key : string) (j : nat) (z : Zone.t) (k : string) :
  Lot.zones (Lot.store_zone self key j z) !!! k =
  if decide (k = key) then <[j := z]> (Lot.zones self !!! key)
  else Lot.zones self !!! k.
Proof.
  unfold Lot.store_zone. cbn. rewrite lookup_total_alt.
  destruct (decide (k = key)) as [->|Hne].
  - by rewrite lookup_insert_eq.
  - rewrite lookup_insert_ne by done. by rewrite lookup_total_alt.
Qed.

Lemma store_zone_id (self : Lot.t) (key : string) (j : nat) (z : Zone.t) (zs : list Zone.t) :
  Lot.zones self !! key = Some zs → zs !! j = Some z →
  Lot.store_zone self key j z = self.
Proof.
  intros Hk Hj. unfold Lot.store_zone, Lot.set_zones.
  rewrite lookup_total_alt, Hk. cbn.
  rewrite (list_insert_id _ _ _ Hj), (insert_id _ _ _ Hk).
  by destruct self.
Qed.

(** ** Releasing an unknown vehicle *)

Lemma remove_vehicle_not_stored (self : Lot.t) (vehicle : Vehicle.t) :
  Lot.vehicles self !! Vehicle.id_ vehicle = None →
  Lot.remove_vehicle self vehicle = Ok ([VehicleNotInLot vehicle], self).
Proof.
  intros H. unfold Lot.remove_vehicle.
  rewrite decide_False; [done|]. rewrite H. by intros [? ?].
Qed.

(** C9. [remove_vehicle] on a vehicle whose identifier is not stored in
    the lot (never parked there, or already removed) does not raise: it
    logs the warning that the vehicle is not in the parking lot and leaves
    the lot as it was, zones, counts and stored vehicles. *)
Theorem remove_vehicle_unknown (self : Lot.t) (vehicle : Vehicle.t) :
  Lot.vehicles self !! Vehicle.id_ vehicle = None →
  Lot.remove_vehicle self vehicle = Ok ([VehicleNotInLot vehicle], self).
Proof.
  intros Habsent. unfold Lot.remove_vehicle.
  destruct (decide (is_Some (Lot.vehicles self !! Vehicle.id_ vehicle)))
    as [[stored Hstored]|_]; [|reflexivity].
  rewrite Habsent in Hstored. discriminate.
Qed.

(** ** Availability for a van *)

(** C10. [vehicle_availability] for a van reads [regular_zones[0].size]
    before it looks at any regular zone: in a lot with no zone of type
    REGULAR it raises [IndexError], whatever the LARGE zones hold, and it
    returns a count only in a lot that has a REGULAR zone. *)
Theorem vehicle_availability_van_needs_regular (self : Lot.t) (id : string) :
  (Lot.zones self !!! ZoneType.name ZoneType.REGULAR = [] →
   Lot.vehicle_availability self id VehicleType.VAN = Raise IndexError) ∧
  (∀ n self', Lot.vehicle_availability self id VehicleType.VAN = Ok (n, self') →
              Lot.zones self !!! ZoneType.name ZoneType.REGULAR ≠ []).
Proof.
  assert (Hnil : Lot.zones self !!! ZoneType.name ZoneType.REGULAR = [] →
                 Lot.vehicle_availability self id VehicleType.VAN = Raise IndexError).
  { intros Hreg. unfold Lot.vehicle_availability.
    destruct (Lot.zones_get self _) as [large_zones self1] eqn:E1.
    destruct (Lot.zones_get self1 _) as [regular_zones self2] eqn:E2.
    apply zones_get_spec in E1 as (_ & _ & Hz1 & _).
    apply zones_get_spec in E2 as (-> & _).
    rewrite Hz1, Hreg. by rewrite getitem_nil. }
  split; [done|].
  intros n self' Hok Hreg. rewrite (Hnil Hreg) in Hok. discriminate.
Qed.

(** ** A vehicle that is turned away *)

Lemma park_single_location self zone zone_index vehicle self' zone' vehicle' :
  Lot.park_single self zone zone_index vehicle = Ok (self', zone', vehicle') →
  is_Some (Vehicle.location vehicle').
Proof.
  unfold Lot.park_single. intros H.
  inv_bind H. destruct a as [spot_index free].
  inv_bind H. inversion H; subst. cbn. eauto.
Qed.

Lemma park_adjacent_cases self zone zone_index vehicle self' zone' vehicle' :
  Lot.park_adjacent self zone zone_index vehicle = Ok (self', zone', vehicle') →
  (self' = self ∧ zone' = zone ∧ vehicle' = vehicle) ∨
  is_Some (Vehicle.location vehicle').
Proof.
  unfold Lot.park_adjacent. intros H.
  inv_bind H. inv_bind H. inv_bind H.
  destruct a1 as [|first_spot rest].
  - inversion H; subst. by left.
  - inv_bind H. destruct a1 as [zone1 occupied]. cbn in H.
    inversion H; subst. right. cbn. eauto.
Qed.

Lemma park_in_zones_unplaced key_type (zs full : list Zone.t) (zone_index : nat)
    self vehicle self' vehicle' parked log :
  Lot.zones self !! ZoneType.name key_type = Some full →
  drop zone_index full = zs →
  Lot.park_in_zones self key_type zs zone_index vehicle
  = Ok (self', vehicle', parked, log) →
  Vehicle.location vehicle' = None →
  self' = self ∧ vehicle' = vehicle.
Proof.
  intros Hfull. revert zone_index self' vehicle' parked log.
  induction zs as [|zone zs IH]; intros zone_index self' vehicle' parked log Hdrop H Hloc.
  - cbn in H. by inversion H.
  - assert (Hz : full !! zone_index = Some zone).
    { rewrite <- (Nat.add_0_r zone_index), <- lookup_drop, Hdrop. done. }
    assert (Hdrop' : drop (S zone_index) full = zs).
    { rewrite (drop_S _ _ _ Hz) in Hdrop. by inversion Hdrop. }
    cbn [Lot.park_in_zones] in H.
    destruct (decide (Py.len (Zone.free zone) = 0)); [by eapply IH|].
    destruct (PrimFloat.leb _ _).
    { inv_bind H. destruct a as [[self1 zone1] vehicle1]. inversion H; subst.
      apply park_single_location in Ha as [? Hsome]. congruence. }
    destruct (Zone.adjacent zone).
    { inv_bind H. destruct a as [[self1 zone1] vehicle1]. inversion H; subst.
      apply park_adjacent_cases in Ha as [(-> & -> & ->)|[? Hsome]]; [|congruence].
      split; [|done]. by eapply store_zone_id. }
    inv_bind H. destruct a as [[[self1 vehicle1] parked1] log1]. inversion H; subst.
    by eapply IH.
Qed.

Lemma park_by_priority_unplaced (priority : list ZoneType.t) self vehicle
    self' vehicle' log :
  Lot.park_by_priority self priority vehicle = Ok (self', vehicle', log) →
  Vehicle.location vehicle' = None →
  (∀ key, Lot.zones self' !!! key = Lot.zones self !!! key) ∧
  Lot.count self' = Lot.count self ∧
  Lot.vehicles self' = Lot.vehicles self ∧
  vehicle' = vehicle.
Proof.
  revert self vehicle self' vehicle' log.
  induction priority as [|zone_type priority IH];
    intros self vehicle self' vehicle' log H Hloc.
  - cbn in H. by inversion H.
  - cbn [Lot.park_by_priority] in H.
    destruct (Lot.zones_get self _) as [zs self1] eqn:E.
    apply zones_get_spec in E as (-> & Hkey & Hzones & Hcount & Hvehicles).
    inv_bind H. destruct a as [[[self2 vehicle2] parked] log2].
    destruct parked.
    + inversion H; subst.
      eapply park_in_zones_unplaced in Ha as [-> ->]; [done|done| |done].
      by rewrite drop_0.
    + inv_bind H. destruct a as [[self3 vehicle3] log3]. inversion H; subst.
      destruct (IH _ _ _ _ _ Ha0 Hloc) as (Hz3 & Hc3 & Hv3 & ->).
      eapply park_in_zones_unplaced in Ha as [-> ->]; [|done| |done].
      * split; [|by rewrite Hc3, Hv3]. intros key. by rewrite Hz3.
      * by rewrite drop_0.
Qed.

(** C4. When [add_vehicle] returns a vehicle without a location, the lot
    is as it was before the call: the list of zones under every zone
    type, with every free list and every slot array, the counts and the
    stored vehicles. *)
Theorem add_vehicle_rejected_no_effect (self : Lot.t) (id : string)
    (type_ : VehicleType.t) (vehicle : Vehicle.t) (log : list LogRecord) (self' : Lot.t) :
  Lot.add_vehicle self id type_ = Ok (vehicle, log, self') →
  Vehicle.location vehicle = None →
  (∀ key, Lot.zones self' !!! key = Lot.zones self !!! key) ∧
  Lot.count self' = Lot.count self ∧
  Lot.vehicles self' = Lot.vehicles self.
Proof.
  unfold Lot.add_vehicle, Lot.park_first_available. intros H Hloc.
  inv_bind H. destruct a as [[self1 vehicle1] log1].
  destruct (Vehicle.location vehicle1) eqn:E; inversion H; subst; [congruence|].
  by destruct (park_by_priority_unplaced _ _ _ _ _ _ Ha E) as (? & ? & ? & _).
Qed.

(** ** Slot arrays *)

Lemma set_slots_snoc x ss s spots :
  set_slots x (ss ++ [s]) spots = <[Z.to_nat s := x]> (set_slots x ss spots).
Proof. unfold set_slots. by rewrite foldl_app. Qed.

Lemma length_set_slots x ss spots : length (set_slots x ss spots) = length spots.
Proof.
  induction ss as [|s ss IH] using rev_ind; [done|].
  by rewrite set_slots_snoc, length_insert.
Qed.

Lemma lookup_set_slots_in x ss spots s :
  s ∈ ss → (Z.to_nat s < length spots)%nat →
  set_slots x ss spots !! Z.to_nat s = Some x.
Proof.
  induction ss as [|s' ss IH] using rev_ind; intros Hin Hlt.
  - by apply elem_of_nil in Hin.
  - rewrite set_slots_snoc.
    destruct (decide (Z.to_nat s' = Z.to_nat s)) as [->|Hne].
    + apply list_lookup_insert_eq. by rewrite length_set_slots.
    + rewrite list_lookup_insert_ne by done. apply IH; [|done].
      apply elem_of_app in Hin as [?|Hin]; [done|].
      apply list_elem_of_singleton in Hin. congruence.
Qed.

Lemma lookup_set_slots_notin x ss spots j :
  j ∉ Z.to_nat <$> ss → set_slots x ss spots !! j = spots !! j.
Proof.
  induction ss as [|s' ss IH] using rev_ind; intros Hnin; [done|].
  rewrite set_slots_snoc. rewrite fmap_app, not_elem_of_app in Hnin.
  destruct Hnin as [Hnin Hs'].
  rewrite list_lookup_insert_ne; [by apply IH|].
  intros <-. apply Hs'. cbn. left.
Qed.

Lemma elem_of_to_nat (ss : list Z) (s : Z) :
  (∀ s', s' ∈ ss → 0 ≤ s') → 0 ≤ s → Z.to_nat s ∈ Z.to_nat <$> ss → s ∈ ss.
Proof.
  intros Hnn Hs Hin. apply list_elem_of_fmap in Hin as (s' & Heq & Hin).
  pose proof (Hnn _ Hin). by replace s with s' by lia.
Qed.

(** ** Occupying free slots *)

Lemma segment_split {A} (l : list A) (p n : nat) :
  l = take p l ++ take n (drop p l) ++ drop (p + n) l.
Proof. by rewrite <- drop_drop, !take_drop. Qed.

Lemma sorted_NoDup (l : list Z) : StronglySorted Z.lt l → NoDup l.
Proof.
  induction 1 as [|x l Hs IH Hall]; constructor; [|done].
  intros Hin. rewrite Forall_forall in Hall. specialize (Hall _ Hin). lia.
Qed.

Lemma zone_wf_in_range (z : Zone.t) (s : Z) :
  zone_wf z → s ∈ Zone.free z → 0 ≤ s < Py.len (Zone.spots z).
Proof.
  intros Hwf Hs. destruct (wf_free_none z Hwf s Hs) as [H0 Hl].
  apply lookup_lt_Some in Hl. unfold Py.len. lia.
Qed.

Lemma occupy_next_step (v : Vehicle.t) (p : nat) (a s : Z) (z : Zone.t) (acc : list Z) :
  Zone.free z !! p = Some s → 0 ≤ s < Py.len (Zone.spots z) →
  Lot.occupy_next v (Z.of_nat p) (z, acc) a
  = Ok (Zone.set_spots (Zone.set_free z (delete p (Zone.free z)))
          (<[Z.to_nat s := Some v]> (Zone.spots z)), acc ++ [s]).
Proof.
  intros Hs Hsr. unfold Lot.occupy_next. rewrite (pop_nat _ _ _ Hs). cbn.
  replace s with (Z.of_nat (Z.to_nat s)) at 1 by lia.
  rewrite setitem_nat by (unfold Py.len in Hsr; lia). done.
Qed.

Lemma for_each_occupy_next (v : Vehicle.t) (p n : nat) (a : Z) (z : Zone.t) (acc : list Z) :
  (p + n ≤ length (Zone.free z))%nat →
  (∀ s, s ∈ Zone.free z → 0 ≤ s < Py.len (Zone.spots z)) →
  Py.for_each (Lot.occupy_next v (Z.of_nat p)) (z, acc) (Py.range a (a + Z.of_nat n))
  = Ok (occupy z v p n, acc ++ take n (drop p (Zone.free z))).
Proof.
  revert a z acc. induction n as [|n IH]; intros a z acc Hpn Hrange.
  - rewrite range_nil by lia. cbn. unfold occupy. cbn.
    rewrite Nat.add_0_r, take_drop, app_nil_r. by destruct z.
  - rewrite range_cons by lia. cbn [Py.for_each].
    destruct (lookup_lt_is_Some_2 (Zone.free z) p ltac:(lia)) as [s Hs].
    assert (Hsr : 0 ≤ s < Py.len (Zone.spots z)).
    { apply Hrange. by eapply list_elem_of_lookup_2. }
    rewrite (occupy_next_step v p a s z acc Hs Hsr). cbn.
    replace (a + Z.of_nat (S n)) with (a + 1 + Z.of_nat n) by lia.
    rewrite IH.
    + f_equal. unfold occupy. cbn.
      rewrite delete_take_drop.
      assert (Hlen : length (take p (Zone.free z)) = p) by (rewrite length_take; lia).
      rewrite take_app_length' by done.
      rewrite !drop_app_length' by done.
      rewrite (drop_S _ _ _ Hs). cbn.
      rewrite drop_app_ge by lia. rewrite Hlen.
      rewrite drop_drop.
      replace (S p + (p + n - p))%nat with (p + S n)%nat by lia.
      f_equal. by rewrite <- app_assoc.
    + cbn. rewrite length_delete by eauto. lia.
    + cbn. intros s' Hs'. unfold Py.len. rewrite length_insert.
      apply Hrange. rewrite delete_take_drop in Hs'.
      rewrite <- (take_drop p (Zone.free z)).
      apply elem_of_app in Hs' as [?|Hs']; apply elem_of_app; [by left|right].
      rewrite (drop_S _ _ _ Hs). by right.
Qed.

Lemma zone_shape_occupy z v p n : zone_shape (occupy z v p n) = zone_shape z.
Proof. unfold zone_shape, total_slots, occupy. cbn. by rewrite length_set_slots. Qed.

Lemma zone_wf_occupy z v p n :
  zone_wf z → zone_wf (occupy z v p n).
Proof.
  intros Hwf.
  pose proof (wf_sorted z Hwf) as Hs.
  pose proof (sorted_NoDup _ Hs) as Hnd.
  rewrite (segment_split (Zone.free z) p n) in Hs, Hnd.
  set (ss := take n (drop p (Zone.free z))) in *.
  apply StronglySorted_app in Hs as (HAB & HA & Hs).
  apply StronglySorted_app in Hs as (_ & _ & HB).
  apply NoDup_app in Hnd as (_ & HndA & Hnd).
  apply NoDup_app in Hnd as (_ & HndB & _).
  assert (Hfree : ∀ s, s ∈ Zone.free z ↔
                       s ∈ take p (Zone.free z) ++ drop (p + n) (Zone.free z) ∨ s ∈ ss).
  { intros s. rewrite (segment_split (Zone.free z) p n) at 1.
    fold ss. rewrite !elem_of_app. tauto. }
  assert (Hss : ∀ s, s ∈ ss → 0 ≤ s).
  { intros s Hin. apply (wf_free_none z Hwf). apply Hfree. by right. }
  split; cbn.
  - apply StronglySorted_app_2; [|done|done].
    intros x1 x2 H1 H2. apply HAB; [done|]. apply elem_of_app. by right.
  - intros s Hin.
    destruct (wf_free_none z Hwf s) as [H0 Hl]; [apply Hfree; by left|].
    split; [done|]. rewrite lookup_set_slots_notin; [done|].
    intros Hc. apply elem_of_to_nat in Hc; [|done|done].
    apply elem_of_app in Hin as [Hin|Hin].
    + apply (HndA s Hin). apply elem_of_app. by left.
    + by apply (HndB s Hc).
  - intros j Hj.
    destruct (decide (j ∈ Z.to_nat <$> ss)) as [Hin|Hnin].
    + apply list_elem_of_fmap in Hin as (s & -> & Hin).
      destruct (wf_free_none z Hwf s) as [H0 Hl]; [apply Hfree; by right|].
      rewrite lookup_set_slots_in in Hj; [done|done|].
      by apply lookup_lt_Some in Hl.
    + rewrite lookup_set_slots_notin in Hj by done.
      apply (wf_none_free z Hwf), Hfree in Hj as [?|Hj]; [done|].
      exfalso. apply Hnin. apply list_elem_of_fmap. exists (Z.of_nat j).
      split; [lia|done].
Qed.

(** ** Giving slots back *)

Lemma for_each_free_spot (ss : list Z) (z : Zone.t) :
  StronglySorted Z.lt (Zone.free z) → NoDup ss →
  (∀ s, s ∈ ss → 0 ≤ s < Py.len (Zone.spots z) ∧ s ∉ Zone.free z) →
  ∃ z', Py.for_each Lot.free_spot z ss = Ok z' ∧
        Zone.type_ z' = Zone.type_ z ∧ Zone.size z' = Zone.size z ∧
        Zone.adjacent z' = Zone.adjacent z ∧
        Zone.spots z' = set_slots None ss (Zone.spots z) ∧
        StronglySorted Z.lt (Zone.free z') ∧
        Zone.free z' ≡ₚ ss ++ Zone.free z.
Proof.
  revert z. induction ss as [|s ss IH]; intros z Hs Hnd Hss.
  - exists z. cbn. by repeat split.
  - apply NoDup_cons in Hnd as [Hsni Hnd].
    destruct (Hss s ltac:(left)) as [Hsr Hsf].
    destruct (insort_sorted _ s Hs Hsf) as (a' & Ha' & Hsa' & Hpa').
    set (z1 := Zone.set_free (Zone.set_spots z (<[Z.to_nat s := None]> (Zone.spots z))) a').
    assert (Hstep : Lot.free_spot z s = Ok z1).
    { unfold Lot.free_spot.
      replace s with (Z.of_nat (Z.to_nat s)) at 1 by lia.
      rewrite setitem_nat by (unfold Py.len in Hsr; lia). cbn.
      by rewrite Ha'. }
    destruct (IH z1) as (z' & Hz' & Ht & Hsz & Hadj & Hsp & Hsorted & Hperm).
    + done.
    + done.
    + intros s' Hs'. cbn. unfold Py.len. rewrite length_insert.
      destruct (Hss s' ltac:(by right)) as [Hr Hf]. split; [done|].
      rewrite Hpa'. apply not_elem_of_cons. split; [|done].
      intros ->. done.
    + exists z'. cbn [Py.for_each]. rewrite Hstep. cbn.
      repeat split; try done.
      rewrite Hperm. cbn. rewrite Hpa'. by rewrite Permutation_middle.
Qed.

Lemma zone_wf_release (ss : list Z) (z : Zone.t) :
  zone_wf z → NoDup ss →
  (∀ s, s ∈ ss → 0 ≤ s ∧ ∃ v', Zone.spots z !! Z.to_nat s = Some (Some v')) →
  ∃ z', Py.for_each Lot.free_spot z ss = Ok z' ∧
        zone_wf z' ∧ zone_shape z' = zone_shape z ∧
        Zone.spots z' = set_slots None ss (Zone.spots z) ∧
        Zone.free z' ≡ₚ ss ++ Zone.free z.
Proof.
  intros Hwf Hnd Hss.
  assert (Hnn : ∀ s, s ∈ ss → 0 ≤ s) by (intros s Hs; by apply Hss).
  destruct (for_each_free_spot ss z (wf_sorted z Hwf) Hnd)
    as (z' & Hz' & Ht & Hsz & Hadj & Hsp & Hsorted & Hperm).
  { intros s Hs. destruct (Hss s Hs) as (H0 & v' & Hv'). split.
    - apply lookup_lt_Some in Hv'. unfold Py.len. lia.
    - intros Hf. apply (wf_free_none z Hwf) in Hf as [_ Hf]. congruence. }
  exists z'. split; [done|]. split; [|split; [|done]].
  - split.
    + done.
    + intros s Hs. rewrite Hperm, elem_of_app in Hs. rewrite Hsp.
      destruct Hs as [Hs|Hs].
      * destruct (Hss s Hs) as (H0 & v' & Hv'). split; [done|].
        apply lookup_set_slots_in; [done|]. by apply lookup_lt_Some in Hv'.
      * destruct (wf_free_none z Hwf s Hs) as [H0 Hl]. split; [done|].
        rewrite lookup_set_slots_notin; [done|].
        intros Hc. apply elem_of_to_nat in Hc; [|done|done].
        destruct (Hss s Hc) as (_ & v' & Hv'). congruence.
    + intros j Hj. rewrite Hsp in Hj. rewrite Hperm, elem_of_app.
      destruct (decide (j ∈ Z.to_nat <$> ss)) as [Hin|Hnin].
      * left. apply list_elem_of_fmap in Hin as (s & -> & Hin).
        pose proof (Hnn s Hin). by replace (Z.of_nat (Z.to_nat s)) with s by lia.
      * right. rewrite lookup_set_slots_notin in Hj by done.
        by apply (wf_none_free z Hwf).
  - unfold zone_shape, total_slots. rewrite Ht, Hsz, Hadj, Hsp.
    by rewrite length_set_slots.
Qed.

(** Giving back the slots a vehicle has just taken restores the zone. *)
Lemma occupy_release (z : Zone.t) (v : Vehicle.t) (p n : nat) :
  zone_wf z →
  Py.for_each Lot.free_spot (occupy z v p n) (take n (drop p (Zone.free z))) = Ok z.
Proof.
  intros Hwf.
  pose proof (zone_wf_occupy z v p n Hwf) as Hwf'.
  pose proof (sorted_NoDup _ (wf_sorted z Hwf)) as Hnd.
  rewrite (segment_split (Zone.free z) p n) in Hnd.
  set (ss := take n (drop p (Zone.free z))) in *.
  apply NoDup_app in Hnd as (_ & HndA & Hnd).
  apply NoDup_app in Hnd as (Hndss & HndB & _).
  assert (Hin : ∀ s, s ∈ ss → s ∈ Zone.free z).
  { intros s Hs. rewrite (segment_split (Zone.free z) p n). fold ss.
    rewrite !elem_of_app. tauto. }
  assert (Hnn : ∀ s, s ∈ ss → 0 ≤ s).
  { intros s Hs. by apply (wf_free_none z Hwf), Hin. }
  destruct (for_each_free_spot ss (occupy z v p n) (wf_sorted _ Hwf') Hndss)
    as (z' & Hz' & Ht & Hsz & Hadj & Hsp & Hsorted & Hperm).
  { intros s Hs. cbn. split.
    - unfold Py.len. rewrite length_set_slots. by apply zone_wf_in_range, Hin.
    - intros Hc. apply elem_of_app in Hc as [Hc|Hc].
      + apply (HndA s Hc). apply elem_of_app. by left.
      + by apply (HndB s Hs). }
  rewrite Hz'. f_equal.
  assert (Hfree : Zone.free z' = Zone.free z).
  { apply (StronglySorted_unique_strong Z.lt); [intros; lia|done|by apply Hwf|].
    rewrite Hperm. cbn. rewrite (segment_split (Zone.free z) p n) at 3. fold ss.
    by rewrite Permutation_app_swap_app. }
  assert (Hspots : Zone.spots z' = Zone.spots z).
  { rewrite Hsp. cbn. apply list_eq. intros j.
    destruct (decide (j ∈ Z.to_nat <$> ss)) as [Hj|Hj].
    - apply list_elem_of_fmap in Hj as (s & -> & Hs).
      destruct (wf_free_none z Hwf s (Hin s Hs)) as [_ Hl].
      rewrite Hl. apply lookup_set_slots_in; [done|].
      rewrite length_set_slots. by apply lookup_lt_Some in Hl.
    - by rewrite !lookup_set_slots_notin. }
  clear -Ht Hsz Hadj Hfree Hspots. cbn in Ht, Hsz, Hadj.
  destruct z, z'. cbn in *. congruence.
Qed.

(** ** Parking in a zone *)

Lemma find_adjacent_nonpositive (free : list Z) (num_spots : Z) (first : bool) :
  num_spots ≤ 0 → Lot.find_adjacent_free_spots free num_spots first = Raise IndexError.
Proof.
  intros Hn. unfold Lot.find_adjacent_free_spots.
  rewrite find_adjacent_loop_unfold.
  rewrite decide_True by (unfold Py.len; lia).
  unfold Lot.find_adjacent_body. rewrite range_nil by lia. cbn.
  by rewrite getitem_nil.
Qed.

Lemma contiguous_run_search_first (free : list Z) (n i : nat) (acc r : list nat) :
  contiguous_run_search free n true i acc r →
  r = acc ∨ ∃ p, r = acc ++ [p] ∧ (p + n ≤ length free)%nat ∧ window_accepted free n p.
Proof.
  induction 1 as [| |????? Hf|]; [by left|right; eauto|discriminate Hf|done].
Qed.

Lemma find_adjacent_first_cases (free : list Z) (num_spots : Z) (r : list Z) :
  Lot.find_adjacent_free_spots free num_spots true = Ok r →
  r = [] ∨ ∃ p, r = [Z.of_nat p] ∧ 0 < num_spots ∧
                (p + Z.to_nat num_spots ≤ length free)%nat.
Proof.
  intros H. destruct (decide (num_spots ≤ 0)) as [Hle|Hgt].
  { rewrite find_adjacent_nonpositive in H by done. discriminate. }
  destruct (find_adjacent_free_spots_search free (Z.to_nat num_spots) true ltac:(lia))
    as (found & Hfound & Hcrs).
  rewrite Z2Nat.id in Hfound by lia. rewrite Hfound in H. inversion H; subst.
  apply contiguous_run_search_first in Hcrs as [->|(p & -> & Hp & _)]; [by left|].
  right. exists p. split; [done|]. split; [lia|done].
Qed.

Lemma park_single_spec self (z : Zone.t) (zone_index : Z) (v : Vehicle.t) (m : Z) (free' : list Z) :
  Zone.free z = m :: free' → 0 ≤ m < Py.len (Zone.spots z) →
  Lot.park_single self z zone_index v
  = Ok (Lot.count_add self (VehicleType.name (Vehicle.type_ v)) 1,
        occupy z v 0 1,
        Vehicle.set_location v (Zone.type_ z, zone_index, [m])).
Proof.
  intros Hfree Hm. unfold Lot.park_single. rewrite Hfree.
  change (Py.pop (m :: free') 0) with (Py.pop (m :: free') (Z.of_nat 0)).
  rewrite (pop_nat (m :: free') 0 m eq_refl). cbn.
  replace m with (Z.of_nat (Z.to_nat m)) at 1 by lia.
  rewrite setitem_nat by (unfold Py.len in Hm; lia). cbn.
  unfold occupy. rewrite Hfree. cbn. by rewrite drop_0.
Qed.

Lemma park_adjacent_spec self (z : Zone.t) (zone_index : Z) (v : Vehicle.t)
    self' z' v' :
  (∀ s, s ∈ Zone.free z → 0 ≤ s < Py.len (Zone.spots z)) →
  Lot.park_adjacent self z zone_index v = Ok (self', z', v') →
  (self' = self ∧ z' = z ∧ v' = v) ∨
  ∃ p n, (0 < n)%nat ∧ (p + n ≤ length (Zone.free z))%nat ∧
         z' = occupy z v p n ∧
         v' = Vehicle.set_location v
                (Zone.type_ z, zone_index, take n (drop p (Zone.free z))) ∧
         self' = Lot.count_add self (VehicleType.name (Vehicle.type_ v)) (Z.of_nat n).
Proof.
  intros Hrange H. unfold Lot.park_adjacent in H.
  inv_bind H. inv_bind H. rename a0 into num_adjacent. inv_bind H.
  apply find_adjacent_first_cases in Ha1 as [->|(p & -> & Hnum & Hp)].
  { inversion H; subst. by left. }
  right. exists p, (Z.to_nat num_adjacent).
  replace (Z.of_nat p + (num_adjacent - 1) + 1)
    with (Z.of_nat p + Z.of_nat (Z.to_nat num_adjacent)) in H by lia.
  rewrite for_each_occupy_next in H by done. cbn in H.
  inversion H; subst. rewrite Z2Nat.id by lia.
  repeat split; try done. lia.
Qed.

Lemma park_in_zones_spec key_type (zs full : list Zone.t) (zone_index : nat)
    self v self' v' parked log :
  Lot.zones self !! ZoneType.name key_type = Some full →
  drop zone_index full = zs →
  (∀ z, z ∈ full → zone_wf z) →
  Lot.park_in_zones self key_type zs zone_index v = Ok (self', v', parked, log) →
  (self' = self ∧ v' = v) ∨
  ∃ j z p n,
    parked = true ∧
    full !! j = Some z ∧ (0 < n)%nat ∧ (p + n ≤ length (Zone.free z))%nat ∧
    v' = Vehicle.set_location v
           (Zone.type_ z, Z.of_nat j, take n (drop p (Zone.free z))) ∧
    self' = Lot.store_zone
              (Lot.count_add self (VehicleType.name (Vehicle.type_ v)) (Z.of_nat n))
              (ZoneType.name key_type) j (occupy z v p n).
Proof.
  intros Hfull Hdrop Hwf. revert zone_index self' v' parked log Hdrop.
  induction zs as [|zone zs IH]; intros zone_index self' v' parked log Hdrop H.
  - cbn in H. inversion H; subst. by left.
  - assert (Hz : full !! zone_index = Some zone).
    { rewrite <- (Nat.add_0_r zone_index), <- lookup_drop, Hdrop. done. }
    assert (Hdrop' : drop (S zone_index) full = zs).
    { rewrite (drop_S _ _ _ Hz) in Hdrop. by inversion Hdrop. }
    assert (Hzwf : zone_wf zone).
    { apply Hwf. by eapply list_elem_of_lookup_2. }
    cbn [Lot.park_in_zones] in H.
    destruct (decide (Py.len (Zone.free zone) = 0)) as [Hempty|Hfree]; [by eapply IH|].
    destruct (PrimFloat.leb _ _).
    { destruct (Zone.free zone) as [|m free'] eqn:Efree; [done|].
      rewrite (park_single_spec _ _ _ _ m free' Efree) in H.
      2:{ apply zone_wf_in_range; [done|]. rewrite Efree. left. }
      cbn in H. inversion H; subst. right.
      exists zone_index, zone, 0%nat, 1%nat. rewrite Efree.
      repeat split; try done; cbn; lia. }
    destruct (Zone.adjacent zone).
    { inv_bind H. destruct a as [[self1 zone1] vehicle1]. inversion H; subst.
      apply park_adjacent_spec in Ha
        as [(-> & -> & ->)|(p & n & Hn & Hp & -> & -> & ->)].
      - left. split; [|done]. by eapply store_zone_id.
      - right. by exists zone_index, zone, p, n.
      - intros s Hs. by apply zone_wf_in_range. }
    inv_bind H. destruct a as [[[self1 vehicle1] parked1] log1]. inversion H; subst.
    by eapply IH.
Qed.

Lemma ZoneType_name_inj (a b : ZoneType.t) :
  ZoneType.name a = ZoneType.name b → a = b.
Proof. by destruct a, b. Qed.

Lemma lot_wf_same (self self' : Lot.t) :
  (∀ key, Lot.zones self' !!! key = Lot.zones self !!! key) →
  lot_wf self → lot_wf self'.
Proof. intros Hsame Hwf key z. rewrite Hsame. apply Hwf. Qed.

Lemma park_by_priority_spec (priority : list ZoneType.t) self v self' v' log :
  lot_wf self →
  Lot.park_by_priority self priority v = Ok (self', v', log) →
  (v' = v ∧ (∀ key, Lot.zones self' !!! key = Lot.zones self !!! key) ∧
   Lot.count self' = Lot.count self ∧ Lot.vehicles self' = Lot.vehicles self) ∨
  placed self v self' v'.
Proof.
  revert self self' v' log.
  induction priority as [|zone_type priority IH]; intros self self' v' log Hwf H.
  - cbn in H. inversion H; subst. by left.
  - cbn [Lot.park_by_priority] in H.
    destruct (Lot.zones_get self _) as [zs self1] eqn:E.
    apply zones_get_spec in E as (-> & Hkey & Hzones & Hcount & Hvehicles).
    inv_bind H. destruct a as [[[self2 v2] parked] log2].
    apply (park_in_zones_spec _ _ _ _ _ _ _ _ _ _ Hkey (drop_0 _)) in Ha.
    2:{ intros z Hz. by apply (Hwf _ _ Hz). }
    destruct Ha as [[-> ->]|(j & z & p & n & -> & Hj & Hn & Hp & -> & ->)].
    + destruct parked.
      * inversion H; subst. by left.
      * inv_bind H. destruct a as [[self3 v3] log3]. inversion H; subst.
        apply IH in Ha; [|by eapply lot_wf_same].
        destruct Ha as [(-> & Hz3 & Hc3 & Hv3)|Hplaced].
        -- left. split; [done|]. split; [|by rewrite Hc3, Hv3].
           intros key. by rewrite Hz3.
        -- right. destruct Hplaced as (zt & j & z & p & n & Hj & Hn & Hp & -> & Hz & Hc & Hv).
           exists zt, j, z, p, n. rewrite <- Hzones, <- Hcount, <- Hvehicles.
           repeat split; try done.
           intros key. rewrite Hz. by rewrite !Hzones.
    + inversion H; subst. right.
      assert (Zone.type_ z = zone_type) as ->.
      { apply ZoneType_name_inj. apply (Hwf _ z). by eapply list_elem_of_lookup_2. }
      exists zone_type, j, z, p, n.
      do 4 (split; [done|]). split; [|split; [|done]].
      * intros key. rewrite store_zone_lookup. cbn. rewrite !Hzones.
        by destruct (decide (key = ZoneType.name zone_type)) as [->|].
      * cbn. by rewrite Hcount.
Qed.

Lemma add_vehicle_spec self id type_ v log self' :
  lot_wf self →
  Lot.add_vehicle self id type_ = Ok (v, log, self') →
  (v = Vehicle.init id type_ ∧
   (∀ key, Lot.zones self' !!! key = Lot.zones self !!! key) ∧
   Lot.count self' = Lot.count self ∧ Lot.vehicles self' = Lot.vehicles self) ∨
  ∃ self1, placed self (Vehicle.init id type_) self1 v ∧
           self' = Lot.set_vehicles self1 (<[id := v]> (Lot.vehicles self1)).
Proof.
  intros Hwf H. unfold Lot.add_vehicle, Lot.park_first_available in H.
  inv_bind H. destruct a as [[self1 v1] log1].
  apply park_by_priority_spec in Ha; [|done].
  destruct Ha as [(-> & Hz & Hc & Hv)|Hplaced].
  - replace (Vehicle.location (Vehicle.init id type_)) with (@None (ZoneType.t * Z * list Z)) in H
      by (by destruct type_).
    inversion H; subst. by left.
  - pose proof Hplaced as (zt & j & z & p & n & Hj & Hn & Hp & -> & _).
    cbn in H. inversion H; subst. right. exists self1. split; [done|].
    by destruct type_.
Qed.

(** ** The invariant *)

Lemma parked_in_update (lot lot' : Lot.t) (key : string) (j : nat) (z z' : Zone.t)
    (v : Vehicle.t) :
  (Lot.zones lot !!! key) !! j = Some z →
  (∀ k, Lot.zones lot' !!! k =
        if decide (k = key) then <[j := z']> (Lot.zones lot !!! k)
        else Lot.zones lot !!! k) →
  (∀ i v', Zone.spots z !! i = Some (Some v') → Vehicle.id_ v' = Vehicle.id_ v →
           Zone.spots z' !! i = Some (Some v')) →
  parked_in lot v → parked_in lot' v.
Proof.
  intros Hj Hzones Hkeep (zt & j2 & ss & z2 & Hloc & Hz2 & Hnd & Hss).
  destruct (decide (ZoneType.name zt = key ∧ j2 = j)) as [[<- ->]|Hne].
  - assert (z2 = z) as -> by congruence.
    exists zt, j, ss, z'. split; [done|]. split; [|split; [done|]].
    + rewrite Hzones, decide_True by done.
      apply list_lookup_insert_eq. apply (lookup_lt_Some _ _ _ Hj).
    + intros s Hs. destruct (Hss s Hs) as (H0 & v' & Hv' & Hid).
      split; [done|]. exists v'. split; [|done]. by apply Hkeep.
  - exists zt, j2, ss, z2. split; [done|]. split; [|done].
    rewrite Hzones. destruct (decide (ZoneType.name zt = key)) as [Heq|]; [|done].
    rewrite list_lookup_insert_ne; [done|]. intros Hjj. by apply Hne.
Qed.

Lemma parked_in_same (lot lot' : Lot.t) (v : Vehicle.t) :
  (∀ k, Lot.zones lot' !!! k = Lot.zones lot !!! k) →
  parked_in lot v → parked_in lot' v.
Proof.
  intros Hsame (zt & j & ss & z & Hloc & Hz & Hrest).
  exists zt, j, ss, z. by rewrite Hsame.
Qed.

Lemma lot_wf_update (lot lot' : Lot.t) (key : string) (j : nat) (z z' : Zone.t) :
  lot_wf lot →
  (Lot.zones lot !!! key) !! j = Some z →
  (∀ k, Lot.zones lot' !!! k =
        if decide (k = key) then <[j := z']> (Lot.zones lot !!! k)
        else Lot.zones lot !!! k) →
  zone_shape z' = zone_shape z → zone_wf z' →
  lot_wf lot' ∧
  ∀ k, zone_shape <$> (Lot.zones lot' !!! k) = zone_shape <$> (Lot.zones lot !!! k).
Proof.
  intros Hwf Hj Hzones Hshape Hwf'. split.
  - intros k z1 Hz1. rewrite Hzones in Hz1.
    destruct (decide (k = key)) as [->|]; [|by apply Hwf].
    apply list_elem_of_lookup in Hz1 as [i Hi].
    destruct (decide (i = j)) as [->|Hne].
    + rewrite list_lookup_insert_eq in Hi by apply (lookup_lt_Some _ _ _ Hj).
      inversion Hi; subst. split; [|done].
      assert (Zone.type_ z1 = Zone.type_ z) as -> by (by inversion Hshape).
      apply (Hwf key z). by eapply list_elem_of_lookup_2.
    + rewrite list_lookup_insert_ne in Hi by done.
      apply Hwf. by eapply list_elem_of_lookup_2.
  - intros k. rewrite Hzones. destruct (decide (k = key)) as [->|]; [|done].
    rewrite list_fmap_insert, Hshape. apply list_insert_id.
    by rewrite list_lookup_fmap, Hj.
Qed.

Lemma NoDup_fmap_eq {A B} (f : A → B) (l : list A) (x y : A) :
  NoDup (f <$> l) → x ∈ l → y ∈ l → f x = f y → x = y.
Proof.
  induction l as [|a l IH]; intros Hnd Hx Hy Hxy; [by apply elem_of_nil in Hx|].
  cbn in Hnd. apply NoDup_cons in Hnd as [Ha Hnd].
  apply elem_of_cons in Hx as [->|Hx], Hy as [->|Hy]; [done| | |by apply IH].
  - exfalso. apply Ha. rewrite Hxy. by apply list_elem_of_fmap_2.
  - exfalso. apply Ha. rewrite <- Hxy. by apply list_elem_of_fmap_2.
Qed.

Lemma lot_inv_add (lot0 lot lot' : Lot.t) (issued : list Vehicle.t) (id : string)
    (type_ : VehicleType.t) (v : Vehicle.t) (log : list LogRecord) :
  lot_inv lot0 lot issued →
  id ∉ Vehicle.id_ <$> issued →
  Lot.add_vehicle lot id type_ = Ok (v, log, lot') →
  lot_inv lot0 lot' (v :: issued).
Proof.
  intros [Hwf Hshape Hids Hveh] Hfresh Hadd.
  assert (Hinit : Vehicle.id_ (Vehicle.init id type_) = id) by (by destruct type_).
  apply add_vehicle_spec in Hadd; [|done].
  destruct Hadd as [(-> & Hz & Hc & Hv)|(self1 & Hplaced & ->)].
  - split.
    + by eapply lot_wf_same.
    + intros key. by rewrite Hz.
    + cbn. rewrite Hinit. by apply NoDup_cons.
    + intros id' v' Hv'. rewrite Hv in Hv'.
      destruct (Hveh _ _ Hv') as (Hid & Hin & Hp).
      split; [done|]. split; [by right|]. by eapply parked_in_same.
  - destruct Hplaced as (zt & j & z & p & n & Hj & Hn & Hp & -> & Hz & Hc & Hv).
    assert (Hzwf : zone_wf z).
    { apply (Hwf (ZoneType.name zt)). by eapply list_elem_of_lookup_2. }
    destruct (lot_wf_update lot self1 _ j z (occupy z (Vehicle.init id type_) p n)
                Hwf Hj Hz (zone_shape_occupy _ _ _ _) (zone_wf_occupy _ _ _ _ Hzwf))
      as [Hwf1 Hshape1].
    set (ss := take n (drop p (Zone.free z))) in *.
    assert (Hss : ∀ s, s ∈ ss → s ∈ Zone.free z).
    { intros s Hs. rewrite (segment_split (Zone.free z) p n). fold ss.
      rewrite !elem_of_app. tauto. }
    assert (Hkeep : ∀ i v', Zone.spots z !! i = Some (Some v') →
              Zone.spots (occupy z (Vehicle.init id type_) p n) !! i = Some (Some v')).
    { intros i v' Hi. cbn. rewrite lookup_set_slots_notin; [done|].
      intros Hc'. apply list_elem_of_fmap in Hc' as (s & -> & Hs).
      apply Hss, (wf_free_none z Hzwf) in Hs as [_ Hs]. congruence. }
    split.
    + done.
    + intros key. cbn. by rewrite Hshape1.
    + cbn. rewrite Hinit. by apply NoDup_cons.
    + intros id' v'. cbn. rewrite Hv. intros Hv'.
      destruct (decide (id' = id)) as [->|Hne].
      * rewrite lookup_insert_eq in Hv'. inversion Hv'; subst.
        split; [done|]. split; [left|].
        exists zt, j, ss, (occupy z (Vehicle.init id type_) p n).
        split; [done|]. split; [|split].
        -- cbn. rewrite Hz, decide_True by done.
           apply list_lookup_insert_eq, (lookup_lt_Some _ _ _ Hj).
        -- pose proof (sorted_NoDup _ (wf_sorted z Hzwf)) as Hnd.
           rewrite (segment_split (Zone.free z) p n) in Hnd.
           apply NoDup_app in Hnd as (_ & _ & Hnd).
           by apply NoDup_app in Hnd as (Hnd & _).
        -- intros s Hs. destruct (wf_free_none z Hzwf s (Hss s Hs)) as [H0 Hl].
           split; [done|]. exists (Vehicle.init id type_). split; [|done].
           cbn. apply lookup_set_slots_in; [done|]. by apply lookup_lt_Some in Hl.
      * rewrite lookup_insert_ne in Hv' by done.
        destruct (Hveh _ _ Hv') as (Hid & Hin & Hpk).
        split; [done|]. split; [by right|].
        eapply (parked_in_update lot); [exact Hj|exact Hz| |done].
        intros i v'' Hi _. by apply Hkeep.
Qed.

Lemma remove_vehicle_spec (lot : Lot.t) (v : Vehicle.t) (zt : ZoneType.t) (j : nat)
    (ss : list Z) (z z' : Zone.t) :
  is_Some (Lot.vehicles lot !! Vehicle.id_ v) →
  Vehicle.location v = Some (zt, Z.of_nat j, ss) →
  (Lot.zones lot !!! ZoneType.name zt) !! j = Some z →
  Py.for_each Lot.free_spot z ss = Ok z' →
  ∃ lot', Lot.remove_vehicle lot v = Ok ([], lot') ∧
    (∀ k, Lot.zones lot' !!! k =
          if decide (k = ZoneType.name zt) then <[j := z']> (Lot.zones lot !!! k)
          else Lot.zones lot !!! k) ∧
    Lot.count lot' =
      <[VehicleType.name (Vehicle.type_ v) :=
          default 0 (Lot.count lot !! VehicleType.name (Vehicle.type_ v)) + -1]>
        (Lot.count lot) ∧
    Lot.vehicles lot' = delete (Vehicle.id_ v) (Lot.vehicles lot).
Proof.
  intros Hin Hloc Hj Hfree. unfold Lot.remove_vehicle.
  rewrite decide_True by done. rewrite Hloc.
  destruct (Lot.zones_get lot _) as [zs self1] eqn:E.
  apply zones_get_spec in E as (-> & Hkey & Hzones & Hcount & Hvehicles).
  rewrite index_of_nat by (apply lookup_lt_Some in Hj; unfold Py.len; lia).
  cbn. rewrite (getitem_nat _ _ _ Hj). cbn. rewrite Hfree. cbn.
  eexists. split; [done|].
  unfold Lot.set_vehicles, Lot.count_add, Lot.set_count.
  cbn [Lot.zones Lot.count Lot.vehicles]. split; [|split].
  - intros k. rewrite (store_zone_lookup self1). rewrite !Hzones.
    by destruct (decide (k = ZoneType.name zt)) as [->|].
  - cbn. by rewrite Hcount.
  - cbn. by rewrite Hvehicles.
Qed.

Lemma lot_inv_remove (lot0 lot lot' : Lot.t) (issued : list Vehicle.t)
    (v : Vehicle.t) (log : list LogRecord) :
  lot_inv lot0 lot issued →
  v ∈ issued ∨ Lot.vehicles lot !! Vehicle.id_ v = None →
  Lot.remove_vehicle lot v = Ok (log, lot') →
  lot_inv lot0 lot' issued.
Proof.
  intros Hinv Hissued Hrem. pose proof Hinv as [Hwf Hshape Hids Hveh].
  destruct (Lot.vehicles lot !! Vehicle.id_ v) as [v0|] eqn:Hv0.
  2:{ rewrite remove_vehicle_not_stored in Hrem by done. by inversion Hrem; subst. }
  destruct Hissued as [Hissued|?]; [|done].
  destruct (Hveh _ _ Hv0) as (Hid0 & Hin0 & Hpk).
  assert (v0 = v) as -> by (by eapply (NoDup_fmap_eq Vehicle.id_ issued)).
  destruct Hpk as (zt & j & ss & z & Hloc & Hj & Hnd & Hss).
  assert (Hzwf : zone_wf z).
  { apply (Hwf (ZoneType.name zt)). by eapply list_elem_of_lookup_2. }
  destruct (zone_wf_release ss z Hzwf Hnd) as (z' & Hz' & Hwf' & Hshape' & Hsp & Hperm).
  { intros s Hs. destruct (Hss s Hs) as (H0 & v' & Hv' & _). eauto. }
  destruct (remove_vehicle_spec lot v zt j ss z z') as (lot1 & Hrem1 & Hz & Hc & Hv);
    [by rewrite Hv0|done..|].
  rewrite Hrem1 in Hrem. inversion Hrem; subst. clear Hrem.
  destruct (lot_wf_update lot lot' _ j z z' Hwf Hj Hz Hshape' Hwf') as [Hwf1 Hshape1].
  split; [done| |done|].
  - intros key. by rewrite Hshape1.
  - intros id' v'. rewrite Hv. intros Hv'.
    apply lookup_delete_Some in Hv' as [Hne Hv'].
    destruct (Hveh _ _ Hv') as (Hid & Hin & Hpk).
    split; [done|]. split; [done|].
    eapply (parked_in_update lot); [exact Hj|exact Hz| |done].
    intros i v'' Hi Hid''. rewrite Hsp, lookup_set_slots_notin; [done|].
    intros Hc'. apply list_elem_of_fmap in Hc' as (s & -> & Hs).
    destruct (Hss s Hs) as (_ & w & Hw & Hidw). congruence.
Qed.

(** [vehicle_availability] changes no zone, no count and no stored
    vehicle. *)
Lemma count_free_read_only (priority : list ZoneType.t) (self self' : Lot.t) (n n' : Z) :
  Lot.count_free self priority n = (n', self') →
  (∀ key, Lot.zones self' !!! key = Lot.zones self !!! key) ∧
  Lot.count self' = Lot.count self ∧ Lot.vehicles self' = Lot.vehicles self.
Proof.
  revert self n. induction priority as [|zone_type priority IH]; intros self n H.
  - cbn in H. by inversion H.
  - cbn [Lot.count_free] in H.
    destruct (Lot.zones_get self _) as [zs self1] eqn:E.
    apply zones_get_spec in E as (_ & _ & Hz & Hc & Hv).
    apply IH in H as (Hz' & Hc' & Hv').
    split; [|by rewrite Hc', Hv']. intros key. by rewrite Hz'.
Qed.

Lemma vehicle_availability_read_only (self self' : Lot.t) (id : string)
    (type_ : VehicleType.t) (n : Z) :
  Lot.vehicle_availability self id type_ = Ok (n, self') →
  (∀ key, Lot.zones self' !!! key = Lot.zones self !!! key) ∧
  Lot.count self' = Lot.count self ∧ Lot.vehicles self' = Lot.vehicles self.
Proof.
  unfold Lot.vehicle_availability. intros H. destruct type_.
  - apply Ok_inj in H. by apply count_free_read_only in H.
  - apply Ok_inj in H. by apply count_free_read_only in H.
  - destruct (Lot.zones_get self _) as [large_zones self1] eqn:E1.
    destruct (Lot.zones_get self1 _) as [regular_zones self2] eqn:E2.
    apply zones_get_spec in E1 as (_ & _ & Hz1 & Hc1 & Hv1).
    apply zones_get_spec in E2 as (_ & _ & Hz2 & Hc2 & Hv2).
    inv_bind H. inv_bind H. inv_bind H. inv_bind H. inversion H; subst.
    split; [|by rewrite Hc2, Hv2]. intros key. by rewrite Hz2.
Qed.

Lemma lot_inv_query (lot0 lot lot' : Lot.t) (issued : list Vehicle.t) (id : string)
    (type_ : VehicleType.t) (n : Z) :
  lot_inv lot0 lot issued →
  Lot.vehicle_availability lot id type_ = Ok (n, lot') →
  lot_inv lot0 lot' issued.
Proof.
  intros [Hwf Hshape Hids Hveh] H.
  apply vehicle_availability_read_only in H as (Hz & Hc & Hv). split.
  - by eapply lot_wf_same.
  - intros key. by rewrite Hz.
  - done.
  - intros id' v' Hv'. rewrite Hv in Hv'.
    destruct (Hveh _ _ Hv') as (Hid & Hin & Hp).
    split; [done|]. split; [done|]. by eapply parked_in_same.
Qed.

(** In a reachable lot [remove_vehicle] returns. *)
Lemma remove_vehicle_returns (lot0 lot : Lot.t) (issued : list Vehicle.t)
    (v : Vehicle.t) :
  lot_inv lot0 lot issued →
  v ∈ issued ∨ Lot.vehicles lot !! Vehicle.id_ v = None →
  ∃ log lot', Lot.remove_vehicle lot v = Ok (log, lot').
Proof.
  intros [Hwf Hshape Hids Hveh] Hissued.
  destruct (Lot.vehicles lot !! Vehicle.id_ v) as [v0|] eqn:Hv0.
  2:{ rewrite remove_vehicle_not_stored by done. eauto. }
  destruct Hissued as [Hissued|?]; [|done].
  destruct (Hveh _ _ Hv0) as (Hid0 & Hin0 & Hpk).
  assert (v0 = v) as -> by (by eapply (NoDup_fmap_eq Vehicle.id_ issued)).
  destruct Hpk as (zt & j & ss & z & Hloc & Hj & Hnd & Hss).
  assert (Hzwf : zone_wf z).
  { apply (Hwf (ZoneType.name zt)). by eapply list_elem_of_lookup_2. }
  destruct (zone_wf_release ss z Hzwf Hnd) as (z' & Hz' & _).
  { intros s Hs. destruct (Hss s Hs) as (H0 & v' & Hv' & _). eauto. }
  destruct (remove_vehicle_spec lot v zt j ss z z') as (lot1 & Hrem1 & _);
    [by rewrite Hv0|done..|].
  eauto.
Qed.

(** ** Conservation of slots *)

Lemma filter_ext_in {A} (P Q : A → Prop) `{∀ x, Decision (P x)} `{∀ x, Decision (Q x)}
    (l : list A) :
  (∀ x, x ∈ l → P x ↔ Q x) → filter P l = filter Q l.
Proof.
  induction l as [|a l IH]; intros Hext; [done|].
  rewrite !filter_cons. rewrite IH by (intros x Hx; apply Hext; by right).
  destruct (decide (P a)) as [HP|HP], (decide (Q a)) as [HQ|HQ]; try done.
  - exfalso. apply HQ, Hext; [left|done].
  - exfalso. apply HP, Hext; [left|done].
Qed.

Lemma free_slots_length (spots : list (option Vehicle.t)) :
  (length (filter (λ j, slot_is_free spots j = true) (seq 0 (length spots)))
   + length (filter is_Some spots) = length spots)%nat.
Proof.
  induction spots as [|o spots IH] using rev_ind; [done|].
  rewrite length_app. cbn [length]. rewrite Nat.add_1_r, seq_S. cbn.
  rewrite !filter_app, !length_app.
  rewrite (filter_ext_in _ (λ j, slot_is_free spots j = true)).
  2:{ intros j Hj. apply elem_of_seq in Hj. unfold slot_is_free.
      by rewrite lookup_app_l by lia. }
  assert (Hlast : slot_is_free (spots ++ [o]) (length spots)
                  = if o is None then true else false).
  { unfold slot_is_free. rewrite lookup_app_r by lia.
    rewrite Nat.sub_diag. by destruct o. }
  rewrite !filter_cons, !filter_nil, Hlast.
  destruct o as [v|]; cbn.
  - rewrite decide_False by done. rewrite decide_True by eauto. cbn. lia.
  - rewrite decide_True by done. rewrite decide_False by (by intros [? ?]). cbn. lia.
Qed.

Lemma zone_wf_conservation (z : Zone.t) :
  zone_wf z → (free_count z + occupied_count z = total_slots z)%nat.
Proof.
  intros Hwf. unfold free_count, occupied_count, total_slots.
  rewrite <- (free_slots_length (Zone.spots z)). f_equal.
  rewrite <- (length_fmap Z.to_nat). apply Permutation_length.
  apply NoDup_Permutation.
  - apply NoDup_fmap_2_strong; [|by apply sorted_NoDup, Hwf].
    intros x y Hx Hy Hxy.
    apply (wf_free_none z Hwf) in Hx as [Hx _], Hy as [Hy _]. lia.
  - apply NoDup_filter, NoDup_seq.
  - intros j. rewrite list_elem_of_filter, elem_of_seq, list_elem_of_fmap.
    unfold slot_is_free. split.
    + intros (s & -> & Hs). apply (wf_free_none z Hwf) in Hs as [H0 Hl].
      rewrite Hl. split; [done|]. apply lookup_lt_Some in Hl. lia.
    + intros [Hj _]. exists (Z.of_nat j). split; [lia|].
      apply (wf_none_free z Hwf).
      destruct (Zone.spots z !! j) as [[v|]|]; done.
Qed.

(** ** A lot as constructed *)

Lemma sorted_seqZ (m : Z) (n : nat) : StronglySorted Z.lt (seqZ m (Z.of_nat n)).
Proof.
  revert m. induction n as [|n IH]; intros m.
  - rewrite seqZ_nil by lia. constructor.
  - rewrite seqZ_cons by lia. constructor.
    + replace (Z.pred (Z.of_nat (S n))) with (Z.of_nat n) by lia. apply IH.
    + apply Forall_forall. intros x Hx. apply elem_of_seqZ in Hx. lia.
Qed.

Lemma zone_wf_init (type_ : ZoneType.t) (size : float) (num_spots : Z) (adjacent : bool) :
  zone_wf (Zone.init type_ size num_spots adjacent).
Proof.
  unfold Zone.init, Py.range. rewrite Z.sub_0_r. split; cbn.
  - destruct (decide (0 ≤ num_spots)).
    + rewrite <- (Z2Nat.id num_spots) by done. apply sorted_seqZ.
    + rewrite seqZ_nil by lia. constructor.
  - intros s Hs. apply elem_of_seqZ in Hs. split; [lia|].
    rewrite list_lookup_fmap.
    destruct (lookup_lt_is_Some_2 (seqZ 0 num_spots) (Z.to_nat s)) as [x ->]; [|done].
    rewrite length_seqZ. lia.
  - intros j Hj. apply lookup_lt_Some in Hj.
    rewrite length_fmap, length_seqZ in Hj. apply elem_of_seqZ. lia.
Qed.

Lemma append_zone_spec (self : Lot.t) (zone : Zone.t) :
  (∀ key, Lot.zones (Lot.append_zone self zone) !!! key =
          Lot.zones self !!! key
          ++ filter (λ z, ZoneType.name (Zone.type_ z) = key) [zone]) ∧
  Lot.count (Lot.append_zone self zone) = Lot.count self ∧
  Lot.vehicles (Lot.append_zone self zone) = Lot.vehicles self.
Proof.
  unfold Lot.append_zone.
  destruct (Lot.zones_get self _) as [l self1] eqn:E.
  apply zones_get_spec in E as (-> & Hkey & Hzones & Hcount & Hvehicles).
  split; [|done]. intros key. rewrite filter_cons, filter_nil.
  cbn [Lot.zones Lot.set_zones]. rewrite (lookup_total_alt (<[_ := _]> _)).
  destruct (decide (ZoneType.name (Zone.type_ zone) = key)) as [<-|Hne].
  - by rewrite lookup_insert_eq.
  - rewrite lookup_insert_ne by done.
    by rewrite <- lookup_total_alt, Hzones, app_nil_r.
Qed.

Lemma init_fold (zs : list Zone.t) (self : Lot.t) :
  (∀ key, Lot.zones (foldl Lot.append_zone self zs) !!! key =
          Lot.zones self !!! key
          ++ filter (λ z, ZoneType.name (Zone.type_ z) = key) zs) ∧
  Lot.count (foldl Lot.append_zone self zs) = Lot.count self ∧
  Lot.vehicles (foldl Lot.append_zone self zs) = Lot.vehicles self.
Proof.
  revert self. induction zs as [|zone zs IH]; intros self.
  - cbn. split; [|done]. intros key. by rewrite app_nil_r.
  - cbn [foldl]. destruct (IH (Lot.append_zone self zone)) as (Hz & Hc & Hv).
    destruct (append_zone_spec self zone) as (Hz1 & Hc1 & Hv1).
    split; [|by rewrite Hc, Hv].
    intros key. rewrite Hz, Hz1, <- app_assoc. f_equal.
    by rewrite <- filter_app.
Qed.

Lemma init_spec (zs : list Zone.t) :
  (∀ key, Lot.zones (Lot.init zs) !!! key
          = filter (λ z, ZoneType.name (Zone.type_ z) = key) zs) ∧
  Lot.count (Lot.init zs) = ∅ ∧ Lot.vehicles (Lot.init zs) = ∅.
Proof.
  destruct (init_fold zs (Lot.mk ∅ ∅ ∅)) as (Hz & Hc & Hv).
  split; [|done]. intros key. unfold Lot.init. rewrite Hz. cbn.
  by rewrite lookup_total_empty.
Qed.

Lemma lot_inv_init (zs : list Zone.t) :
  Forall fresh_zone zs → lot_inv (Lot.init zs) (Lot.init zs) [].
Proof.
  intros Hfresh. destruct (init_spec zs) as (Hz & Hc & Hv). split.
  - intros key z. rewrite Hz, list_elem_of_filter. intros [Hkey Hin].
    split; [done|]. rewrite Forall_forall in Hfresh.
    destruct (Hfresh z Hin) as (t & sz & n & adj & ->). apply zone_wf_init.
  - done.
  - constructor.
  - intros id v. by rewrite Hv, lookup_empty.
Qed.

Lemma reachable_inv (zs : list Zone.t) (lot : Lot.t) (issued : list Vehicle.t) :
  reachable zs lot issued → lot_inv (Lot.init zs) lot issued.
Proof.
  induction 1 as [Hfresh|lot issued id type_ v log lot' _ IH Hid Hadd
                  |lot issued v log lot' _ IH Hin Hrem
                  |lot issued id type_ n lot' _ IH Hquery].
  - by apply lot_inv_init.
  - by eapply lot_inv_add.
  - by eapply lot_inv_remove.
  - by eapply lot_inv_query.
Qed.

(** Every reachable lot is well formed. *)
Lemma reachable_wf (zs : list Zone.t) (lot : Lot.t) (issued : list Vehicle.t) :
  reachable zs lot issued → lot_wf lot.
Proof. intros H. apply (inv_wf _ _ _ (reachable_inv _ _ _ H)). Qed.

Lemma filter_all {A} (P : A → Prop) `{∀ x, Decision (P x)} (l : list A) :
  (∀ x, x ∈ l → P x) → filter P l = l.
Proof.
  induction l as [|x l IH]; intros Hall; [done|].
  rewrite filter_cons_True by (apply Hall; left).
  f_equal. apply IH. intros y Hy. apply Hall. by right.
Qed.

Lemma filter_none {A} (P : A → Prop) `{∀ x, Decision (P x)} (l : list A) :
  (∀ x, x ∈ l → ¬ P x) → filter P l = [].
Proof.
  induction l as [|x l IH]; intros Hall; [done|].
  rewrite filter_cons_False by (apply Hall; left).
  apply IH. intros y Hy. apply Hall. by right.
Qed.

Lemma filter_segment (l : list Z) (p n : nat) :
  NoDup l →
  filter (λ s, s ∉ take n (drop p l)) l = take p l ++ drop (p + n) l.
Proof.
  intros Hnd. pose proof (segment_split l p n) as Hl.
  remember (take p l) as a eqn:Ea. remember (take n (drop p l)) as b eqn:Eb.
  remember (drop (p + n) l) as c eqn:Ec. clear Ea Eb Ec. subst l.
  apply NoDup_app in Hnd as (_ & Hab & Hnd).
  apply NoDup_app in Hnd as (_ & Hbc & _).
  rewrite !filter_app.
  rewrite (filter_all _ a), (filter_none _ b), (filter_all _ c); [done|..].
  - intros x Hx Hb. by apply (Hbc x Hb).
  - intros x Hx Hn. by apply Hn.
  - intros x Hx Hb. apply (Hab x Hx). apply elem_of_app. by left.
Qed.

(** C6. In every state a lot goes through from its construction, by any
    sequence of [add_vehicle] and [remove_vehicle], the free list of every
    zone is strictly ascending.  Parking takes the slots of the location
    out of the free list of the zone and leaves the other entries in their
    order: the new free list is the old one without these slots.
    [remove_vehicle] of a parked vehicle puts the slots of its location,
    none of which was free, back at their sorted positions: the new free
    list is strictly ascending and holds the old entries and these slots,
    each once. *)
Theorem reachable_free_sorted (zs : list Zone.t) (lot : Lot.t) (issued : list Vehicle.t) :
  reachable zs lot issued →
  (∀ key z, z ∈ Lot.zones lot !!! key → StronglySorted Z.lt (Zone.free z)) ∧
  (∀ id type_ v log lot' zone_type zone_index spot_indices,
     Lot.add_vehicle lot id type_ = Ok (v, log, lot') →
     Vehicle.location v = Some (zone_type, zone_index, spot_indices) →
     ∃ j z z',
       zone_index = Z.of_nat j ∧
       (Lot.zones lot !!! ZoneType.name zone_type) !! j = Some z ∧
       (Lot.zones lot' !!! ZoneType.name zone_type) !! j = Some z' ∧
       (∀ s, s ∈ spot_indices → s ∈ Zone.free z) ∧
       Zone.free z' = filter (λ s, s ∉ spot_indices) (Zone.free z) ∧
       StronglySorted Z.lt (Zone.free z')) ∧
  (∀ v, v ∈ issued → is_Some (Lot.vehicles lot !! Vehicle.id_ v) →
     ∃ zone_type j spot_indices z z' lot',
       Vehicle.location v = Some (zone_type, Z.of_nat j, spot_indices) ∧
       (Lot.zones lot !!! ZoneType.name zone_type) !! j = Some z ∧
       Lot.remove_vehicle lot v = Ok ([], lot') ∧
       (Lot.zones lot' !!! ZoneType.name zone_type) !! j = Some z' ∧
       (∀ s, s ∈ spot_indices → s ∉ Zone.free z) ∧
       Zone.free z' ≡ₚ spot_indices ++ Zone.free z ∧
       StronglySorted Z.lt (Zone.free z')).
Proof.
  intros Hreach. apply reachable_inv in Hreach as [Hwf Hshape Hids Hveh].
  split; [|split].
  - intros key z Hz. by apply (Hwf key z Hz).
  - intros id type_ v log lot' zone_type zone_index spot_indices Hadd Hloc.
    apply add_vehicle_spec in Hadd; [|done].
    destruct Hadd as [(-> & _)|(self1 & Hplaced & ->)].
    { by destruct type_. }
    destruct Hplaced as (zt & j & z & p & n & Hj & Hn & Hp & -> & Hz & _).
    cbn in Hloc. inversion Hloc; subst zone_type zone_index spot_indices. clear Hloc.
    assert (Hzwf : zone_wf z).
    { apply (Hwf (ZoneType.name zt)). by eapply list_elem_of_lookup_2. }
    exists j, z, (occupy z (Vehicle.init id type_) p n).
    split; [done|]. split; [done|]. split.
    { cbn. rewrite Hz, decide_True by done.
      apply list_lookup_insert_eq, (lookup_lt_Some _ _ _ Hj). }
    split; [|split].
    + intros s Hs. rewrite (segment_split (Zone.free z) p n), !elem_of_app. tauto.
    + cbn. symmetry. apply filter_segment, sorted_NoDup, (wf_sorted z Hzwf).
    + apply (wf_sorted _ (zone_wf_occupy z _ p n Hzwf)).
  - intros v Hissued [v0 Hv0].
    destruct (Hveh _ _ Hv0) as (Hid0 & Hin0 & Hpk).
    assert (v0 = v) as -> by (by eapply (NoDup_fmap_eq Vehicle.id_ issued)).
    destruct Hpk as (zt & j & ss & z & Hloc & Hj & Hnd & Hss).
    assert (Hzwf : zone_wf z).
    { apply (Hwf (ZoneType.name zt)). by eapply list_elem_of_lookup_2. }
    destruct (zone_wf_release ss z Hzwf Hnd) as (z' & Hz' & Hwf' & _ & _ & Hperm).
    { intros s Hs. destruct (Hss s Hs) as (H0 & v' & Hv' & _). eauto. }
    destruct (remove_vehicle_spec lot v zt j ss z z') as (lot1 & Hrem1 & Hz & _);
      [by rewrite Hv0|done..|].
    exists zt, j, ss, z, z', lot1.
    split; [done|]. split; [done|]. split; [done|]. split.
    { rewrite Hz, decide_True by done.
      apply list_lookup_insert_eq, (lookup_lt_Some _ _ _ Hj). }
    split; [|split; [done|apply (wf_sorted _ Hwf')]].
    intros s Hs Hf. destruct (Hss s Hs) as (_ & v' & Hv' & _).
    apply (wf_free_none z Hzwf) in Hf as [_ Hf]. congruence.
Qed.

(** C7. In every state a lot goes through from its construction, every
    zone has as many slots as the zone had when it was constructed, and
    the length of its free list plus the number of its slots that hold a
    vehicle is that number. *)
Theorem reachable_conservation (zs : list Zone.t) (lot : Lot.t) (issued : list Vehicle.t) :
  reachable zs lot issued →
  ∀ key j z, (Lot.zones lot !!! key) !! j = Some z →
    ∃ z0, (Lot.zones (Lot.init zs) !!! key) !! j = Some z0 ∧
          total_slots z = total_slots z0 ∧
          (free_count z + occupied_count z = total_slots z0)%nat.
Proof.
  intros Hreach key j z Hz.
  apply reachable_inv in Hreach as [Hwf Hshape _ _].
  assert (Hs : (zone_shape <$> Lot.zones lot !!! key) !! j = Some (zone_shape z))
    by (by rewrite list_lookup_fmap, Hz).
  rewrite Hshape, list_lookup_fmap in Hs.
  destruct ((Lot.zones (Lot.init zs) !!! key) !! j) as [z0|] eqn:Hz0; [|done].
  exists z0. split; [done|]. inversion Hs as [Heq].
  assert (Htot : total_slots z = total_slots z0) by (by inversion Heq).
  split; [done|]. rewrite <- Htot. apply zone_wf_conservation.
  apply (Hwf key). by eapply list_elem_of_lookup_2.
Qed.

(** ** A vehicle that fits in one slot *)

Lemma sorted_head_least (m : Z) (l : list Z) :
  StronglySorted Z.lt (m :: l) → ∀ s, s ∈ m :: l → m ≤ s.
Proof.
  intros Hs s Hin. apply StronglySorted_cons in Hs as [Hall _].
  apply elem_of_cons in Hin as [->|Hin]; [lia|].
  rewrite Forall_forall in Hall. specialize (Hall _ Hin). lia.
Qed.

Lemma occupy_head (z : Zone.t) (v : Vehicle.t) (m : Z) (free' : list Z) :
  Zone.free z = m :: free' →
  occupy z v 0 1 =
  Zone.mk (Zone.type_ z) (Zone.size z) (Zone.adjacent z)
    (<[Z.to_nat m := Some v]> (Zone.spots z)) free'.
Proof. intros Hfree. unfold occupy. rewrite Hfree. cbn. by rewrite drop_0. Qed.

Lemma park_in_zones_fits self zone_type (zone : Zone.t) (zs : list Zone.t)
    (zone_index : nat) (v : Vehicle.t) :
  Zone.free zone ≠ [] →
  PrimFloat.leb (Vehicle.size v) (Zone.size zone) = true →
  Lot.park_in_zones self zone_type (zone :: zs) zone_index v =
  '(self, zone, vehicle) ← Lot.park_single self zone (Z.of_nat zone_index) v;
  Ok (Lot.store_zone self (ZoneType.name zone_type) zone_index zone,
      vehicle, true, []).
Proof.
  intros Hfree Hfits. cbn [Lot.park_in_zones].
  rewrite decide_False.
  - by rewrite Hfits.
  - unfold Py.len. destruct (Zone.free zone); [done|]. cbn. lia.
Qed.

(** C8. In a well-formed zone with a free slot, a vehicle whose size is at
    most the slot size of the zone is parked by [park_single], whether or
    not the zone lets vehicles span adjacent slots: the loop of
    [park_first_available] never reaches [park_adjacent] for it.
    [park_single] takes the head of the free list, which is the smallest
    free index, and the location of the vehicle is that one slot. *)
Theorem single_slot_takes_smallest (self : Lot.t) (zone_type : ZoneType.t)
    (zone : Zone.t) (zs : list Zone.t) (zone_index : nat) (vehicle : Vehicle.t) :
  zone_wf zone →
  Zone.free zone ≠ [] →
  PrimFloat.leb (Vehicle.size vehicle) (Zone.size zone) = true →
  ∃ spot_index free',
    Zone.free zone = spot_index :: free' ∧
    (∀ s, s ∈ Zone.free zone → spot_index ≤ s) ∧
    Lot.park_single self zone (Z.of_nat zone_index) vehicle =
      Ok (Lot.count_add self (VehicleType.name (Vehicle.type_ vehicle)) 1,
          Zone.mk (Zone.type_ zone) (Zone.size zone) (Zone.adjacent zone)
            (<[Z.to_nat spot_index := Some vehicle]> (Zone.spots zone)) free',
          Vehicle.set_location vehicle
            (Zone.type_ zone, Z.of_nat zone_index, [spot_index])) ∧
    Lot.park_in_zones self zone_type (zone :: zs) zone_index vehicle =
      '(self, zone, vehicle) ← Lot.park_single self zone (Z.of_nat zone_index) vehicle;
      Ok (Lot.store_zone self (ZoneType.name zone_type) zone_index zone,
          vehicle, true, []).
Proof.
  intros Hwf Hfree Hfits.
  destruct (Zone.free zone) as [|m free'] eqn:E; [done|].
  exists m, free'. split; [done|]. split; [|split].
  - apply sorted_head_least. rewrite <- E. apply Hwf.
  - rewrite (park_single_spec _ _ _ _ m free' E).
    + by rewrite (occupy_head _ _ _ _ E).
    + apply zone_wf_in_range; [done|]. rewrite E. left.
  - apply park_in_zones_fits; [by rewrite E|done].
Qed.

(** ** Parking and leaving again *)

(** C5, as amended. In a well-formed lot (every reachable lot is one), a
    vehicle that [add_vehicle] has parked, in one slot or across adjacent
    slots, and that is removed at once: [remove_vehicle] returns, and the
    zones of the lot are what they were before [add_vehicle], free lists
    and slot arrays.  The free list of the zone the vehicle was in is
    strictly ascending again and holds the indices given back.  The next
    vehicle that fits in one slot of that zone gets the head [m] of the
    free list: the smallest free index of the zone, which is the smallest
    index given back or a free index below all of them. *)
Theorem add_then_remove_restores (lot : Lot.t) (id : string) (type_ : VehicleType.t)
    (v : Vehicle.t) (log : list LogRecord) (lot1 : Lot.t)
    (zone_type : ZoneType.t) (zone_index : Z) (spot_indices : list Z) :
  lot_wf lot →
  Lot.add_vehicle lot id type_ = Ok (v, log, lot1) →
  Vehicle.location v = Some (zone_type, zone_index, spot_indices) →
  ∃ lot2 j z m free',
    Lot.remove_vehicle lot1 v = Ok ([], lot2) ∧
    (∀ key, Lot.zones lot2 !!! key = Lot.zones lot !!! key) ∧
    zone_index = Z.of_nat j ∧
    (Lot.zones lot2 !!! ZoneType.name zone_type) !! j = Some z ∧
    StronglySorted Z.lt (Zone.free z) ∧
    (∀ s, s ∈ spot_indices → s ∈ Zone.free z) ∧
    Zone.free z = m :: free' ∧
    (∀ s, s ∈ Zone.free z → m ≤ s) ∧
    (m ∈ spot_indices ∨ ∀ s, s ∈ spot_indices → m < s) ∧
    ∀ self zone_type' zs idx v2,
      PrimFloat.leb (Vehicle.size v2) (Zone.size z) = true →
      ∃ self',
        Lot.park_in_zones self zone_type' (z :: zs) idx v2
        = Ok (self', Vehicle.set_location v2 (Zone.type_ z, Z.of_nat idx, [m]),
              true, []).
Proof.
  intros Hwf Hadd Hloc.
  apply add_vehicle_spec in Hadd; [|done].
  destruct Hadd as [(-> & _)|(self1 & Hplaced & ->)].
  { by destruct type_. }
  destruct Hplaced as (zt & j & z & p & n & Hj & Hn & Hp & -> & Hz & Hc & Hv).
  cbn in Hloc. inversion Hloc; subst zone_type zone_index spot_indices. clear Hloc.
  set (v0 := Vehicle.init id type_) in *.
  assert (Hzwf : zone_wf z).
  { apply (Hwf (ZoneType.name zt)). by eapply list_elem_of_lookup_2. }
  set (ss := take n (drop p (Zone.free z))) in *.
  set (v := Vehicle.set_location v0 (zt, Z.of_nat j, ss)).
  set (lot1 := Lot.set_vehicles self1 (<[id := v]> (Lot.vehicles self1))).
  assert (Hid : Vehicle.id_ v = id) by (unfold v, v0; by destruct type_).
  destruct (remove_vehicle_spec lot1 v zt j ss (occupy z v0 p n) z)
    as (lot2 & Hrem & Hz2 & _ & _).
  { unfold lot1. cbn [Lot.vehicles Lot.set_vehicles].
    rewrite Hid, lookup_insert_eq. eauto. }
  { done. }
  { unfold lot1. cbn. rewrite Hz, decide_True by done.
    apply list_lookup_insert_eq, (lookup_lt_Some _ _ _ Hj). }
  { by apply occupy_release. }
  assert (Hsame : ∀ key, Lot.zones lot2 !!! key = Lot.zones lot !!! key).
  { intros key. rewrite Hz2. unfold lot1. cbn. rewrite Hz.
    destruct (decide (key = ZoneType.name zt)) as [->|]; [|done].
    rewrite list_insert_insert_eq. by apply list_insert_id. }
  assert (∃ m free', Zone.free z = m :: free') as (m & free' & E).
  { destruct (Zone.free z) as [|m free']; [cbn in Hp; lia|eauto]. }
  exists lot2, j, z, m, free'.
  split; [done|]. split; [done|]. split; [done|].
  split; [by rewrite Hsame|]. split; [apply Hzwf|].
  assert (Hss : ∀ s, s ∈ ss → s ∈ Zone.free z).
  { intros s Hs. rewrite (segment_split (Zone.free z) p n). fold ss.
    rewrite !elem_of_app. tauto. }
  assert (Hleast : ∀ s, s ∈ Zone.free z → m ≤ s).
  { rewrite E. apply sorted_head_least. rewrite <- E. apply Hzwf. }
  split; [done|]. split; [done|]. split; [done|]. split.
  - destruct (decide (m ∈ ss)) as [Hin|Hnin]; [by left|right].
    intros s Hs. pose proof (Hleast s (Hss s Hs)).
    assert (m ≠ s) by (by intros ->). lia.
  - intros self zt' zs idx v2 Hfits.
    rewrite park_in_zones_fits by (by rewrite ?E).
    rewrite (park_single_spec _ _ _ _ m free' E).
    + cbn. eauto.
    + apply zone_wf_in_range; [done|]. rewrite E. left.
Qed.

(** ** The sample run *)

Lemma demo_reachable : reachable demo_zones demo_lot demo_issued.
Proof.
  let l := eval vm_compute in demo_lot in change demo_lot with l.
  let i := eval vm_compute in demo_issued in change demo_issued with i.
  eapply reach_remove.
  - eapply (reach_add _ _ _ "car1" VehicleType.CAR).
    + eapply (reach_add _ _ _ "car0" VehicleType.CAR).
      * apply reach_init. repeat constructor. by eexists _, _, _, _.
      * apply not_elem_of_nil.
      * vm_compute. reflexivity.
    + apply not_elem_of_cons. split; [done|apply not_elem_of_nil].
    + vm_compute. reflexivity.
  - left. right. left.
  - vm_compute. reflexivity.
Qed.

Lemma demo_wf : lot_wf demo_lot.
Proof. exact (reachable_wf _ _ _ demo_reachable). Qed.

(** C5 as stated fails in the sample run: a van parks across slots 2, 3 and
    4 and leaves; the car that comes next gets slot 0, which is not the
    smallest index the van gave back, and not one of them at all. *)
Lemma roundtrip_next_single_counterexample :
  ∃ van log lot1 lot2 car log2 lot3 freed spot,
    reachable demo_zones demo_lot demo_issued ∧
    Lot.add_vehicle demo_lot "van" VehicleType.VAN = Ok (van, log, lot1) ∧
    Vehicle.location van = Some (ZoneType.REGULAR, 0, freed) ∧
    Lot.remove_vehicle lot1 van = Ok ([], lot2) ∧
    Lot.add_vehicle lot2 "car2" VehicleType.CAR = Ok (car, log2, lot3) ∧
    Vehicle.location car = Some (ZoneType.REGULAR, 0, [spot]) ∧
    freed = [2; 3; 4] ∧ spot = 0 ∧ spot ∉ freed.
Proof.
  eexists _, _, _, _, _, _, _, _, _.
  split; [exact demo_reachable|].
  split; [vm_compute; reflexivity|]. split; [reflexivity|].
  split; [vm_compute; reflexivity|].
  split; [vm_compute; reflexivity|]. split; [reflexivity|].
  split; [reflexivity|]. split; [reflexivity|].
  intros Hin. repeat (apply elem_of_cons in Hin as [Hin|Hin]; [discriminate|]).
  by apply elem_of_nil in Hin.
Qed.

(** ** Where the code departs from its documentation *)

(** C1. The code at the failing input: a van parked across the three slots
    of a REGULAR zone is counted three times ([park_adjacent] adds
    [num_adjacent] to the count, [park_single] adds one), and is counted
    twice still when it has left ([remove_vehicle] takes one off). *)
Lemma van_counted_once_per_slot :
  ∃ van log lot1 lot2,
    Lot.add_vehicle (Lot.init [Zone.init ZoneType.REGULAR 1%float 3 true])
      "van" VehicleType.VAN = Ok (van, log, lot1) ∧
    Vehicle.location van = Some (ZoneType.REGULAR, 0, [0; 1; 2]) ∧
    Lot.num_parked_vehicle lot1 VehicleType.VAN = 3 ∧
    Lot.remove_vehicle lot1 van = Ok ([], lot2) ∧
    Lot.vehicles lot2 = ∅ ∧
    Lot.num_parked_vehicle lot2 VehicleType.VAN = 2.
Proof.
  eexists _, _, _, _.
  split; [vm_compute; reflexivity|].
  split; [reflexivity|]. split; [reflexivity|].
  split; [vm_compute; reflexivity|].
  split; [vm_compute; reflexivity|]. reflexivity.
Qed.

(** C2. The code at the failing input: two REGULAR zones, of two and of
    three slots, all free.  [park_first_available] calls [park_adjacent] on
    the first zone, which has no run of three, sets [parked] all the same
    and leaves the loops: the van is turned away, although the second zone
    has the run [0, 1, 2] and [park_adjacent] parks the van there. *)
Lemma van_turned_away_before_second_zone :
  ∃ van log lot1 zone0 zone1,
    Lot.add_vehicle
      (Lot.init [Zone.init ZoneType.REGULAR 1%float 2 true;
                 Zone.init ZoneType.REGULAR 1%float 3 true])
      "van" VehicleType.VAN = Ok (van, log, lot1) ∧
    Vehicle.location van = None ∧
    Lot.zones lot1 !!! "REGULAR" = [zone0; zone1] ∧
    Lot.find_adjacent_free_spots (Zone.free zone1) 3 true = Ok [0] ∧
    ∃ van' self' zone1',
      Lot.park_adjacent lot1 zone1 1 (Vehicle.init "van" VehicleType.VAN)
      = Ok (self', zone1', van') ∧
      Vehicle.location van' = Some (ZoneType.REGULAR, 1, [0; 1; 2]).
Proof.
  eexists _, _, _, _, _.
  split; [vm_compute; reflexivity|].
  split; [reflexivity|].
  split; [vm_compute; reflexivity|].
  split; [vm_compute; reflexivity|].
  eexists _, _, _.
  split; [vm_compute; reflexivity|]. reflexivity.
Qed.

(** ** More on the contiguous-run search *)

Lemma sorted_lookup_add (free : list Z) (d i : nat) (a b : Z) :
  StronglySorted Z.lt free →
  free !! i = Some a → free !! (i + d)%nat = Some b → a + Z.of_nat d ≤ b.
Proof.
  intros Hs Ha. revert b. induction d as [|d IH]; intros b Hb.
  - rewrite Nat.add_0_r in Hb. assert (a = b) by congruence. lia.
  - destruct (lookup_lt_is_Some_2 free (i + d)) as [c Hc].
    { apply lookup_lt_Some in Hb. lia. }
    pose proof (IH c Hc).
    pose proof (sorted_lookup_lt free (i + d) (i + S d) c b Hs Hc Hb ltac:(lia)). lia.
Qed.

(** In a strictly ascending list an accepted window holds consecutive
    integers. *)
Lemma window_accepted_consecutive (free : list Z) (n p : nat) :
  StronglySorted Z.lt free → (0 < n)%nat → window_accepted free n p →
  ∃ a, free !! p = Some a ∧
       ∀ k, (k < n)%nat → free !! (p + k)%nat = Some (a + Z.of_nat k).
Proof.
  intros Hs Hn (a & b & Ha & Hb & Hab). exists a. split; [done|].
  intros k Hk.
  destruct (lookup_lt_is_Some_2 free (p + k)) as [c Hc].
  { apply lookup_lt_Some in Hb. lia. }
  pose proof (sorted_lookup_add free k p a c Hs Ha Hc).
  replace (p + n - 1)%nat with (p + k + (n - 1 - k))%nat in Hb by lia.
  pose proof (sorted_lookup_add free (n - 1 - k) (p + k) c b Hs Hc Hb).
  rewrite Hc. f_equal. lia.
Qed.

Lemma contiguous_run_search_found (free : list Z) (n : nat) (first : bool)
    (i : nat) (acc r : list nat) :
  contiguous_run_search free n first i acc r →
  ∃ new, r = acc ++ new ∧
    Forall (λ p, (i ≤ p)%nat ∧ (p + n ≤ length free)%nat ∧ window_accepted free n p) new ∧
    StronglySorted (λ p q, (p + n < q)%nat) new ∧
    (first = true → (length new ≤ 1)%nat).
Proof.
  induction 1 as [i acc Hstop|i acc Hin Hw Hf|i acc r Hin Hw Hf _ IH|i acc r Hin Hw _ IH].
  - exists []. rewrite app_nil_r. repeat split; [constructor|constructor|cbn; lia].
  - exists [i]. repeat split; [|repeat constructor|cbn; lia].
    by repeat constructor.
  - destruct IH as (new & -> & Hall & Hsorted & Hone).
    exists (i :: new). rewrite <- app_assoc. split; [done|]. split; [|split].
    + constructor; [done|]. eapply Forall_impl; [exact Hall|]. cbn. intros p (? & ? & ?).
      repeat split; [lia|done|done].
    + constructor; [done|]. eapply Forall_impl; [exact Hall|]. cbn. intros p (? & ? & ?). lia.
    + intros ->. discriminate.
  - destruct IH as (new & -> & Hall & Hsorted & Hone).
    exists new. split; [done|]. split; [|done].
    eapply Forall_impl; [exact Hall|]. cbn. intros p (? & ? & ?).
    repeat split; [lia|done|done].
Qed.

Lemma contiguous_run_search_take_first (free : list Z) (n : nat) (first : bool)
    (i : nat) (acc r : list nat) :
  contiguous_run_search free n first i acc r → first = false →
  ∃ new, r = acc ++ new ∧
         ∀ acc', contiguous_run_search free n true i acc' (acc' ++ take 1 new).
Proof.
  induction 1 as [i acc Hstop|i acc Hin Hw Hf|i acc r Hin Hw Hf _ IH|i acc r Hin Hw _ IH];
    intros Hfirst.
  - exists []. rewrite app_nil_r. split; [done|]. intros acc'. rewrite app_nil_r.
    by apply crs_stop.
  - congruence.
  - destruct (IH Hfirst) as (new & -> & _).
    exists (i :: new). rewrite <- app_assoc. split; [done|]. intros acc'. cbn.
    rewrite take_0. by apply crs_first.
  - destruct (IH Hfirst) as (new & -> & Hnew).
    exists new. split; [done|]. intros acc'. by apply crs_skip.
Qed.

(** X1. Asked for zero slots or a negative number of slots,
    [find_adjacent_free_spots] raises [IndexError] on every free list, the
    empty one included: the window it reads is empty and
    [potential_adjacent_spots[0]] fails. *)
Theorem find_adjacent_free_spots_needs_positive (free : list Z) (num_spots : Z)
    (first : bool) :
  num_spots ≤ 0 →
  Lot.find_adjacent_free_spots free num_spots first = Raise IndexError.
Proof. intros Hn. by apply find_adjacent_nonpositive. Qed.

(** X2. On a strictly ascending free list and for a positive length [n],
    every position [find_adjacent_free_spots] returns starts a window of
    [n] entries that lies within the free list and holds [n] consecutive
    slot numbers; the positions returned are ascending and more than [n]
    apart, so the windows do not overlap; with [first] set at most one
    position is returned. *)
Theorem find_adjacent_free_spots_sound (free : list Z) (n : nat) (first : bool)
    (found : list Z) :
  StronglySorted Z.lt free → (0 < n)%nat →
  Lot.find_adjacent_free_spots free (Z.of_nat n) first = Ok found →
  Forall (λ p, ∃ (i : nat) (a : Z),
            p = Z.of_nat i ∧ (i + n ≤ length free)%nat ∧
            ∀ k, (k < n)%nat → free !! (i + k)%nat = Some (a + Z.of_nat k)) found ∧
  StronglySorted (λ p q, p + Z.of_nat n < q) found ∧
  (first = true → (length found ≤ 1)%nat).
Proof.
  intros Hs Hn Hfound.
  destruct (find_adjacent_free_spots_search free n first Hn) as (r & Hr & Hcrs).
  rewrite Hr in Hfound. apply Ok_inj in Hfound as <-.
  apply contiguous_run_search_found in Hcrs as (new & -> & Hall & Hsorted & Hone).
  cbn. split; [|split].
  - apply Forall_fmap. eapply Forall_impl; [exact Hall|]. cbn.
    intros p (_ & Hp & Hw).
    destruct (window_accepted_consecutive free n p Hs Hn Hw) as (a & _ & Ha).
    by exists p, a.
  - clear -Hsorted. induction Hsorted as [|p l _ IH Hall]; cbn; constructor; [done|].
    apply Forall_fmap. eapply Forall_impl; [exact Hall|]. cbn. intros q Hq. lia.
  - rewrite length_fmap. exact Hone.
Qed.

(** X3. For a positive length, the search with [first=True] returns the
    first position of the search with [first=False] on the same free list,
    or the empty list when that one finds nothing. *)
Theorem find_adjacent_free_spots_first_is_head (free : list Z) (n : nat)
    (found : list Z) :
  (0 < n)%nat →
  Lot.find_adjacent_free_spots free (Z.of_nat n) false = Ok found →
  Lot.find_adjacent_free_spots free (Z.of_nat n) true = Ok (take 1 found).
Proof.
  intros Hn Hfound.
  destruct (find_adjacent_free_spots_search free n false Hn) as (r & Hr & Hcrs).
  rewrite Hr in Hfound. apply Ok_inj in Hfound as <-.
  destruct (find_adjacent_free_spots_search free n true Hn) as (r1 & Hr1 & Hcrs1).
  apply contiguous_run_search_take_first in Hcrs as (new & Hnew & Hfirst); [|done].
  cbn in Hnew. subst r.
  rewrite (contiguous_run_search_det _ _ _ _ _ _ _ Hcrs1 (Hfirst [])) in Hr1.
  rewrite Hr1. cbn. by rewrite fmap_take.
Qed.

Lemma contiguous_run_search_leftmost (free : list Z) (n i : nat) (acc r : list nat) :
  (0 < n)%nat →
  contiguous_run_search free n true i acc r →
  (r = acc ∧ ∀ p, (i ≤ p)%nat → ¬ window_accepted free n p) ∨
  (∃ p, r = acc ++ [p] ∧ (i ≤ p)%nat ∧ window_accepted free n p ∧
        ∀ q, (i ≤ q < p)%nat → ¬ window_accepted free n q).
Proof.
  intros Hn H.
  induction H as [i acc Hstop|i acc Hin Hacc _|i acc r Hin Hacc Hf _ _|i acc r Hin Hrej H IH].
  - left. split; [done|]. intros p Hp (a & b & Ha & Hb & _).
    apply lookup_lt_Some in Hb. lia.
  - right. exists i. split; [done|]. split; [done|]. split; [done|]. intros q Hq. lia.
  - done.
  - destruct IH as [(-> & Hnone)|(p & -> & Hp & Hacc & Hleast)].
    + left. split; [done|]. intros p Hp.
      destruct (decide (p = i)) as [->|Hne]; [done|]. apply Hnone. lia.
    + right. exists p. split; [done|]. split; [lia|]. split; [done|].
      intros q Hq. destruct (decide (q = i)) as [->|Hne]; [done|]. apply Hleast. lia.
Qed.

(** X4. For a positive length, the search with [first=True] returns the
    empty list exactly when no window of the free list is accepted, and
    otherwise the position of the leftmost accepted window: no window
    that starts before it is accepted. *)
Theorem find_adjacent_free_spots_leftmost (free : list Z) (num_spots : Z) :
  0 < num_spots →
  (Lot.find_adjacent_free_spots free num_spots true = Ok [] ∧
   ∀ p, ¬ window_accepted free (Z.to_nat num_spots) p) ∨
  (∃ p, Lot.find_adjacent_free_spots free num_spots true = Ok [Z.of_nat p] ∧
        window_accepted free (Z.to_nat num_spots) p ∧
        ∀ q, (q < p)%nat → ¬ window_accepted free (Z.to_nat num_spots) q).
Proof.
  intros Hn.
  destruct (find_adjacent_free_spots_search free (Z.to_nat num_spots) true ltac:(lia))
    as (found & Hfound & Hcrs).
  rewrite Z2Nat.id in Hfound by lia.
  apply contiguous_run_search_leftmost in Hcrs; [|lia].
  destruct Hcrs as [(-> & Hnone)|(p & -> & _ & Hacc & Hleast)].
  - left. split; [done|]. intros p. apply Hnone. lia.
  - right. exists p. split; [done|]. split; [done|]. intros q Hq. apply Hleast. lia.
Qed.

(** ** Availability *)

Lemma foldl_free_len (zs : list Zone.t) (n : Z) :
  foldl (λ num_spots zone, num_spots + Py.len (Zone.free zone)) n zs
  = n + foldr Z.add 0 ((λ z, Py.len (Zone.free z)) <$> zs).
Proof.
  revert n. induction zs as [|z zs IH]; intros n; cbn; [lia|].
  rewrite IH. lia.
Qed.

Lemma free_len_nonneg (zs : list Zone.t) :
  0 ≤ foldr Z.add 0 ((λ z, Py.len (Zone.free z)) <$> zs).
Proof. induction zs as [|z zs IH]; cbn; [lia|]. unfold Py.len at 1. lia. Qed.

Lemma free_len_zero (zs : list Zone.t) :
  foldr Z.add 0 ((λ z, Py.len (Zone.free z)) <$> zs) = 0 →
  ∀ z, z ∈ zs → Zone.free z = [].
Proof.
  induction zs as [|z zs IH]; cbn; intros Hsum z' Hin; [by apply elem_of_nil in Hin|].
  pose proof (free_len_nonneg zs). unfold Py.len at 1 in Hsum.
  apply elem_of_cons in Hin as [->|Hin].
  - destruct (Zone.free z); [done|]. cbn in Hsum. lia.
  - apply IH; [lia|done].
Qed.

Lemma count_free_spec (priority : list ZoneType.t) (self : Lot.t) (n : Z) :
  ∃ self', Lot.count_free self priority n
           = (n + foldr Z.add 0 (free_under self <$> priority), self').
Proof.
  revert self n. induction priority as [|zone_type priority IH]; intros self n.
  - cbn. exists self. f_equal. lia.
  - cbn [Lot.count_free].
    destruct (Lot.zones_get self _) as [zs self1] eqn:E.
    apply zones_get_spec in E as (-> & _ & Hz & _).
    destruct (IH self1 (foldl (λ num_spots zone, num_spots + Py.len (Zone.free zone)) n
                          (Lot.zones self !!! ZoneType.name zone_type))) as (self' & ->).
    exists self'. f_equal. rewrite foldl_free_len. cbn.
    assert (Heq : free_under self1 <$> priority = free_under self <$> priority).
    { apply list_fmap_ext. intros _ zt _. unfold free_under. by rewrite Hz. }
    rewrite Heq. unfold free_under at 2. lia.
Qed.

(** X5. [vehicle_availability], when it returns, leaves the zone list of
    every zone type, the counts and the stored vehicles as they were (all
    it may do is create an empty [defaultdict] entry). *)
Theorem vehicle_availability_changes_nothing (self self' : Lot.t) (id : string)
    (type_ : VehicleType.t) (num_spots : Z) :
  Lot.vehicle_availability self id type_ = Ok (num_spots, self') →
  (∀ key, Lot.zones self' !!! key = Lot.zones self !!! key) ∧
  Lot.count self' = Lot.count self ∧
  Lot.vehicles self' = Lot.vehicles self.
Proof. apply vehicle_availability_read_only. Qed.

(** X6. [vehicle_availability] never raises for a cycle or a car: for a
    car it is the number of free slots of the COMPACT, REGULAR and LARGE
    zones, for a cycle that number plus the free slots of the CYCLE zones;
    so it is never negative, and never larger for a car than for a
    cycle. *)
Theorem vehicle_availability_cycle_car (self : Lot.t) (id id' : string) :
  ∃ num_cycle self1 num_car self2,
    Lot.vehicle_availability self id VehicleType.CYCLE = Ok (num_cycle, self1) ∧
    Lot.vehicle_availability self id' VehicleType.CAR = Ok (num_car, self2) ∧
    num_car = free_under self ZoneType.COMPACT + free_under self ZoneType.REGULAR
              + free_under self ZoneType.LARGE ∧
    num_cycle = free_under self ZoneType.CYCLE + num_car ∧
    0 ≤ num_car ≤ num_cycle.
Proof.
  unfold Lot.vehicle_availability. cbn [Vehicle.init Vehicle.priority].
  destruct (count_free_spec [ZoneType.CYCLE; ZoneType.COMPACT; ZoneType.REGULAR; ZoneType.LARGE]
              self 0) as (self1 & ->).
  destruct (count_free_spec [ZoneType.COMPACT; ZoneType.REGULAR; ZoneType.LARGE]
              self 0) as (self2 & ->).
  eexists _, self1, _, self2. split; [done|]. split; [done|]. cbn.
  assert (∀ zt, 0 ≤ free_under self zt) by (intros zt; apply free_len_nonneg).
  pose proof (H ZoneType.CYCLE). pose proof (H ZoneType.COMPACT).
  pose proof (H ZoneType.REGULAR). pose proof (H ZoneType.LARGE). lia.
Qed.

Lemma park_in_zones_all_full (self : Lot.t) (zone_type : ZoneType.t) (zs : list Zone.t)
    (zone_index : nat) (v : Vehicle.t) :
  (∀ z, z ∈ zs → Zone.free z = []) →
  Lot.park_in_zones self zone_type zs zone_index v = Ok (self, v, false, []).
Proof.
  revert zone_index. induction zs as [|z zs IH]; intros zone_index Hfull; [done|].
  cbn [Lot.park_in_zones]. rewrite (Hfull z) by left. cbn.
  apply IH. intros z' Hz'. apply Hfull. by right.
Qed.

Lemma park_by_priority_all_full (priority : list ZoneType.t) (self : Lot.t) (v : Vehicle.t) :
  (∀ zt z, zt ∈ priority → z ∈ Lot.zones self !!! ZoneType.name zt → Zone.free z = []) →
  ∃ self', Lot.park_by_priority self priority v = Ok (self', v, []).
Proof.
  revert self. induction priority as [|zone_type priority IH]; intros self Hfull.
  - by exists self.
  - cbn [Lot.park_by_priority].
    destruct (Lot.zones_get self _) as [zs self1] eqn:E.
    apply zones_get_spec in E as (-> & _ & Hz & _).
    rewrite park_in_zones_all_full by (intros z Hz'; eapply Hfull; [left|done]). cbn.
    destruct (IH self1) as (self' & ->).
    { intros zt z Hzt Hin. rewrite Hz in Hin. eapply Hfull; [by right|done]. }
    by exists self'.
Qed.

Lemma free_under_sum_zero (self : Lot.t) (priority : list ZoneType.t) :
  foldr Z.add 0 (free_under self <$> priority) = 0 →
  ∀ zt z, zt ∈ priority → z ∈ Lot.zones self !!! ZoneType.name zt → Zone.free z = [].
Proof.
  induction priority as [|zt0 priority IH]; cbn; intros Hsum zt z Hzt Hz;
    [by apply elem_of_nil in Hzt|].
  assert (0 ≤ free_under self zt0) by apply free_len_nonneg.
  assert (0 ≤ foldr Z.add 0 (free_under self <$> priority)).
  { clear. induction priority as [|zt priority IH]; cbn; [lia|].
    pose proof (free_len_nonneg (Lot.zones self !!! ZoneType.name zt)).
    unfold free_under at 1. lia. }
  apply elem_of_cons in Hzt as [->|Hzt].
  - eapply free_len_zero; [|done]. unfold free_under in *. lia.
  - eapply IH; [lia|done..].
Qed.

(** X7. When [vehicle_availability] returns 0 for a cycle or a car,
    [add_vehicle] for that type turns the vehicle away: it returns the
    vehicle without location and logs the one warning that there is no
    room to park. *)
Theorem no_availability_no_place (self self0 : Lot.t) (id id' : string)
    (type_ : VehicleType.t) :
  type_ ≠ VehicleType.VAN →
  Lot.vehicle_availability self id type_ = Ok (0, self0) →
  ∃ self',
    Lot.add_vehicle self id' type_
    = Ok (Vehicle.init id' type_, [NoRoomToPark type_], self').
Proof.
  intros Hvan Havail.
  assert (Hfull : ∀ zt z, zt ∈ Vehicle.priority (Vehicle.init id' type_) →
            z ∈ Lot.zones self !!! ZoneType.name zt → Zone.free z = []).
  { apply free_under_sum_zero.
    unfold Lot.vehicle_availability in Havail.
    destruct type_; [| |done].
    - destruct (count_free_spec (Vehicle.priority (Vehicle.init id VehicleType.CYCLE)) self 0)
        as (s & Hs). rewrite Hs in Havail. apply Ok_inj in Havail.
      inversion Havail as [[Hsum Hself]]. cbn in *. lia.
    - destruct (count_free_spec (Vehicle.priority (Vehicle.init id VehicleType.CAR)) self 0)
        as (s & Hs). rewrite Hs in Havail. apply Ok_inj in Havail.
      inversion Havail as [[Hsum Hself]]. cbn in *. lia. }
  destruct (park_by_priority_all_full _ self (Vehicle.init id' type_) Hfull) as (self' & Hpark).
  exists self'. unfold Lot.add_vehicle, Lot.park_first_available. rewrite Hpark. cbn.
  by destruct type_.
Qed.

(** ** What a successful [add_vehicle] changes *)

Lemma VehicleType_name_inj (a b : VehicleType.t) :
  VehicleType.name a = VehicleType.name b → a = b.
Proof. by destruct a, b. Qed.

Lemma init_fields (id : string) (type_ : VehicleType.t) :
  Vehicle.id_ (Vehicle.init id type_) = id ∧
  Vehicle.type_ (Vehicle.init id type_) = type_ ∧
  Vehicle.location (Vehicle.init id type_) = None.
Proof. by destruct type_. Qed.


Lemma num_parked_default (lot : Lot.t) (type_ : VehicleType.t) :
  Lot.num_parked_vehicle lot type_
  = default 0 (Lot.count lot !! VehicleType.name type_).
Proof. unfold Lot.num_parked_vehicle. by destruct (_ !! _). Qed.

(** X9. In a well-formed lot [add_vehicle] raises the count of the type
    of the vehicle by the number of slots the vehicle takes (by nothing
    when it is turned away) and changes the count of no other type. *)
Theorem add_vehicle_counts_slots (lot lot' : Lot.t) (id : string)
    (type_ : VehicleType.t) (v : Vehicle.t) (log : list LogRecord) :
  lot_wf lot →
  Lot.add_vehicle lot id type_ = Ok (v, log, lot') →
  Lot.num_parked_vehicle lot' type_
  = Lot.num_parked_vehicle lot type_
    + match Vehicle.location v with
      | Some (_, _, spot_indices) => Py.len spot_indices
      | None => 0
      end ∧
  ∀ type', type' ≠ type_ →
    Lot.num_parked_vehicle lot' type' = Lot.num_parked_vehicle lot type'.
Proof.
  intros Hwf Hadd.
  destruct (init_fields id type_) as (Hid0 & Hty0 & Hloc0).
  apply add_vehicle_spec in Hadd; [|done].
  destruct Hadd as [(-> & _ & Hc & _)|(self1 & Hplaced & ->)].
  - rewrite Hloc0. split; [|intros type' _]; rewrite !num_parked_default, Hc; lia.
  - destruct Hplaced as (zt & j & z & p & n & Hj & Hn & Hp & -> & Hz & Hc & Hv).
    rewrite Hty0 in Hc. cbn [Vehicle.location Vehicle.set_location].
    split.
    + rewrite !num_parked_default. cbn. rewrite Hc, lookup_insert_eq. cbn.
      unfold Py.len. rewrite length_take, length_drop. lia.
    + intros type' Hne. rewrite !num_parked_default. cbn. rewrite Hc.
      rewrite lookup_insert_ne; [done|]. intros Heq. apply Hne.
      by apply VehicleType_name_inj.
Qed.

(** ** The slots of a parked vehicle are adjacent *)

Lemma find_adjacent_first_window (free : list Z) (num_spots : Z) (r : list Z) :
  Lot.find_adjacent_free_spots free num_spots true = Ok r →
  r = [] ∨ ∃ p, r = [Z.of_nat p] ∧ 0 < num_spots ∧
                (p + Z.to_nat num_spots ≤ length free)%nat ∧
                window_accepted free (Z.to_nat num_spots) p.
Proof.
  intros H. destruct (decide (num_spots ≤ 0)) as [Hle|Hgt].
  { rewrite find_adjacent_nonpositive in H by done. discriminate. }
  destruct (find_adjacent_free_spots_search free (Z.to_nat num_spots) true ltac:(lia))
    as (found & Hfound & Hcrs).
  rewrite Z2Nat.id in Hfound by lia. rewrite Hfound in H. inversion H; subst.
  apply contiguous_run_search_first in Hcrs as [->|(p & -> & Hp & Hw)]; [by left|].
  right. exists p. split; [done|]. split; [lia|done].
Qed.

Lemma take_drop_run (free : list Z) (p n : nat) (a : Z) :
  (∀ k, (k < n)%nat → free !! (p + k)%nat = Some (a + Z.of_nat k)) →
  take n (drop p free) = seqZ a (Z.of_nat n).
Proof.
  intros Hrun. apply (list_eq_same_length _ _ n).
  - rewrite length_seqZ. lia.
  - rewrite length_take, length_drop.
    destruct n as [|n]; [lia|].
    pose proof (lookup_lt_Some _ _ _ (Hrun n ltac:(lia))). lia.
  - intros k x y Hk Hx Hy.
    rewrite lookup_take_lt, lookup_drop, (Hrun k Hk) in Hx by done.
    rewrite lookup_seqZ_lt in Hy by lia. congruence.
Qed.

Lemma park_adjacent_run self (z : Zone.t) (zone_index : Z) (v : Vehicle.t)
    self' z' v' :
  zone_wf z →
  Lot.park_adjacent self z zone_index v = Ok (self', z', v') →
  v' = v ∨
  ∃ a n, (0 < n)%nat ∧
         Vehicle.location v' = Some (Zone.type_ z, zone_index, seqZ a (Z.of_nat n)).
Proof.
  intros Hwf H. unfold Lot.park_adjacent in H.
  inv_bind H. inv_bind H. rename a0 into num_adjacent. inv_bind H.
  apply find_adjacent_first_window in Ha1 as [->|(p & -> & Hnum & Hp & Hw)].
  { inversion H; subst. by left. }
  right.
  replace (Z.of_nat p + (num_adjacent - 1) + 1)
    with (Z.of_nat p + Z.of_nat (Z.to_nat num_adjacent)) in H by lia.
  rewrite for_each_occupy_next in H; [|done|by intros; apply zone_wf_in_range].
  cbn in H. inversion H; subst. cbn.
  destruct (window_accepted_consecutive (Zone.free z) (Z.to_nat num_adjacent) p
              (wf_sorted z Hwf) ltac:(lia) Hw) as (a0 & _ & Hrun).
  exists a0, (Z.to_nat num_adjacent). split; [lia|].
  by rewrite (take_drop_run _ _ _ _ Hrun).
Qed.

Lemma park_in_zones_run key_type (zs : list Zone.t) (zone_index : nat)
    self v self' v' parked log :
  (∀ z, z ∈ zs → zone_wf z) →
  Lot.park_in_zones self key_type zs zone_index v = Ok (self', v', parked, log) →
  v' = v ∨
  ∃ zt zi a n, (0 < n)%nat ∧ Vehicle.location v' = Some (zt, zi, seqZ a (Z.of_nat n)).
Proof.
  revert zone_index self' v' parked log.
  induction zs as [|zone zs IH]; intros zone_index self' v' parked log Hwf H.
  - cbn in H. inversion H; subst. by left.
  - assert (Hzwf : zone_wf zone) by (apply Hwf; left).
    assert (Hwf' : ∀ z, z ∈ zs → zone_wf z) by (intros; apply Hwf; by right).
    cbn [Lot.park_in_zones] in H.
    destruct (decide (Py.len (Zone.free zone) = 0)) as [Hempty|Hfree]; [by eapply IH|].
    destruct (PrimFloat.leb _ _).
    { destruct (Zone.free zone) as [|m free'] eqn:Efree; [done|].
      rewrite (park_single_spec _ _ _ _ m free' Efree) in H.
      2:{ apply zone_wf_in_range; [done|]. rewrite Efree. left. }
      cbn in H. inversion H; subst. right.
      exists (Zone.type_ zone), (Z.of_nat zone_index), m, 1%nat. split; [lia|]. cbn.
      rewrite seqZ_cons by lia. by rewrite seqZ_nil by lia. }
    destruct (Zone.adjacent zone).
    { inv_bind H. destruct a as [[self1 zone1] vehicle1]. inversion H; subst.
      apply park_adjacent_run in Ha; [|done].
      destruct Ha as [->|(a & n & Hn & Hloc)]; [by left|].
      right. eauto 6. }
    inv_bind H. destruct a as [[[self1 vehicle1] parked1] log1]. inversion H; subst.
    by eapply IH.
Qed.

Lemma park_by_priority_run (priority : list ZoneType.t) self v self' v' log :
  lot_wf self →
  Lot.park_by_priority self priority v = Ok (self', v', log) →
  v' = v ∨
  ∃ zt zi a n, (0 < n)%nat ∧ Vehicle.location v' = Some (zt, zi, seqZ a (Z.of_nat n)).
Proof.
  revert self self' v' log.
  induction priority as [|zone_type priority IH]; intros self self' v' log Hwf H.
  - cbn in H. inversion H; subst. by left.
  - cbn [Lot.park_by_priority] in H.
    destruct (Lot.zones_get self _) as [zs self1] eqn:E.
    apply zones_get_spec in E as (-> & Hkey & Hzones & Hcount & Hvehicles).
    inv_bind H. destruct a as [[[self2 v2] parked] log2].
    assert (Hzs : ∀ z, z ∈ Lot.zones self !!! ZoneType.name zone_type → zone_wf z)
      by (intros z Hz; by apply (Hwf _ _ Hz)).
    pose proof (park_in_zones_run _ _ _ _ _ _ _ _ _ Hzs Ha) as Hrun.
    destruct parked; [by inversion H; subst|].
    apply (park_in_zones_spec _ _ _ _ _ _ _ _ _ _ Hkey (drop_0 _) Hzs) in Ha.
    destruct Ha as [[-> ->]|(j & z & p & n & Hp & _)]; [|done].
    inv_bind H. destruct a as [[self3 v3] log3]. inversion H; subst.
    eapply IH; [|done]. by eapply lot_wf_same.
Qed.

(** X10. The slots of a vehicle that [add_vehicle] has parked in a
    well-formed lot are consecutive slot numbers, in ascending order, and
    there is at least one. *)
Theorem location_is_a_run (lot lot' : Lot.t) (id : string)
    (type_ : VehicleType.t) (v : Vehicle.t) (log : list LogRecord)
    (zone_type : ZoneType.t) (zone_index : Z) (spot_indices : list Z) :
  lot_wf lot →
  Lot.add_vehicle lot id type_ = Ok (v, log, lot') →
  Vehicle.location v = Some (zone_type, zone_index, spot_indices) →
  ∃ first_spot, spot_indices = seqZ first_spot (Py.len spot_indices) ∧
                0 < Py.len spot_indices.
Proof.
  intros Hwf Hadd Hloc. unfold Lot.add_vehicle, Lot.park_first_available in Hadd.
  inv_bind Hadd. destruct a as [[self1 v1] log1].
  apply park_by_priority_run in Ha; [|done].
  assert (v1 = v) as ->.
  { destruct (Vehicle.location v1); by inversion Hadd. }
  destruct Ha as [->|(zt & zi & a & n & Hn & Hrun)].
  { by destruct type_. }
  rewrite Hloc in Hrun. inversion Hrun; subst. exists a.
  unfold Py.len. rewrite length_seqZ. split; [f_equal|]; lia.
Qed.

(** ** What [remove_vehicle] changes *)

(** X11. In any lot, once [remove_vehicle] has returned for a vehicle, a
    second [remove_vehicle] for the same vehicle changes nothing and logs
    the one warning that the vehicle is not in the lot. *)
Theorem remove_vehicle_twice (lot lot' : Lot.t) (v : Vehicle.t) (log : list LogRecord) :
  Lot.remove_vehicle lot v = Ok (log, lot') →
  Lot.remove_vehicle lot' v = Ok ([VehicleNotInLot v], lot').
Proof.
  intros H. apply remove_vehicle_not_stored.
  unfold Lot.remove_vehicle in H.
  destruct (decide (is_Some (Lot.vehicles lot !! Vehicle.id_ v))) as [Hin|Hout].
  - destruct (Vehicle.location v) as [[[zt zi] ss]|]; [|discriminate].
    destruct (Lot.zones_get lot _) as [zs self1].
    inv_bind H. inv_bind H. inv_bind H. inversion H; subst. cbn.
    apply lookup_delete_eq.
  - inversion H; subst. by apply eq_None_not_Some.
Qed.

(** X12. In a reachable state [remove_vehicle] raises no exception, for
    a vehicle that [add_vehicle] has returned and for any vehicle whose
    identifier is not stored. *)
Theorem remove_vehicle_never_raises (zs : list Zone.t) (lot : Lot.t)
    (issued : list Vehicle.t) (v : Vehicle.t) :
  reachable zs lot issued →
  v ∈ issued ∨ Lot.vehicles lot !! Vehicle.id_ v = None →
  ∃ log lot', Lot.remove_vehicle lot v = Ok (log, lot').
Proof.
  intros Hreach Hv. eapply remove_vehicle_returns; [|done].
  by apply reachable_inv.
Qed.


(** X14. In a reachable state a vehicle stored in the lot is stored under
    its own identifier and was returned by [add_vehicle]; the slots of its
    location are distinct, are not free, and hold a vehicle with its
    identifier; and no slot is in the location of two stored vehicles. *)
Theorem stored_vehicles_hold_their_slots (zs : list Zone.t) (lot : Lot.t)
    (issued : list Vehicle.t) (id : string) (v : Vehicle.t) :
  reachable zs lot issued →
  Lot.vehicles lot !! id = Some v →
  Vehicle.id_ v = id ∧ v ∈ issued ∧
  ∃ zone_type j spot_indices z,
    Vehicle.location v = Some (zone_type, Z.of_nat j, spot_indices) ∧
    (Lot.zones lot !!! ZoneType.name zone_type) !! j = Some z ∧
    NoDup spot_indices ∧
    (∀ s, s ∈ spot_indices →
          (s ∉ Zone.free z) ∧
          ∃ v', Zone.spots z !! Z.to_nat s = Some (Some v') ∧ Vehicle.id_ v' = id) ∧
    ∀ id' v' spot_indices',
      id' ≠ id → Lot.vehicles lot !! id' = Some v' →
      Vehicle.location v' = Some (zone_type, Z.of_nat j, spot_indices') →
      ∀ s, s ∈ spot_indices → s ∉ spot_indices'.
Proof.
  intros Hreach Hv.
  apply reachable_inv in Hreach as [Hwf Hshape Hids Hveh].
  destruct (Hveh _ _ Hv) as (Hid & Hin & Hpk). split; [done|]. split; [done|].
  destruct Hpk as (zt & j & ss & z & Hloc & Hj & Hnd & Hss).
  assert (Hzwf : zone_wf z).
  { apply (Hwf (ZoneType.name zt)). by eapply list_elem_of_lookup_2. }
  exists zt, j, ss, z. split; [done|]. split; [done|]. split; [done|]. split.
  - intros s Hs. destruct (Hss s Hs) as (H0 & v' & Hv' & Hid'). split.
    + intros Hf. apply (wf_free_none z Hzwf) in Hf as [_ Hf]. congruence.
    + exists v'. split; [done|]. congruence.
  - intros id' v' ss' Hne Hv' Hloc' s Hs Hs'.
    destruct (Hveh _ _ Hv') as (Hid' & _ & Hpk').
    destruct Hpk' as (zt' & j' & ss'' & z'' & Hloc'' & Hj' & _ & Hss').
    rewrite Hloc' in Hloc''. inversion Hloc''; subst zt' ss''.
    assert (j' = j) as -> by lia.
    assert (z'' = z) as -> by congruence.
    destruct (Hss s Hs) as (_ & w & Hw & Hidw).
    destruct (Hss' s Hs') as (_ & w' & Hw' & Hidw').
    assert (w = w') by congruence. subst w'. congruence.
Qed.

(** ** Several vehicles at once *)

Lemma add_vehicles_reachable (zs : list Zone.t) (ids : list string)
    (type_ : VehicleType.t) (lot : Lot.t) (issued : list Vehicle.t)
    (acc : list Vehicle.t) (acc_log : list LogRecord)
    (vehicles : list Vehicle.t) (log : list LogRecord) (lot' : Lot.t) :
  reachable zs lot issued →
  NoDup ids → (∀ id, id ∈ ids → id ∉ Vehicle.id_ <$> issued) →
  Py.for_each
    (λ '(vehicles, log, self) id,
       '(vehicle, log', self) ← Lot.add_vehicle self id type_;
       Ok (vehicles ++ [vehicle], log ++ log', self))
    (acc, acc_log, lot) ids = Ok (vehicles, log, lot') →
  ∃ new, vehicles = acc ++ new ∧
         reachable zs lot' (reverse new ++ issued) ∧
         Vehicle.id_ <$> new = ids ∧
         Forall (λ v, Vehicle.type_ v = type_) new.
Proof.
  revert lot issued acc acc_log.
  induction ids as [|id ids IH]; intros lot issued acc acc_log Hreach Hnd Hfresh H.
  - cbn in H. inversion H; subst. exists []. rewrite app_nil_r. by repeat split.
  - cbn [Py.for_each] in H. inv_bind H.
    destruct a as [[acc1 log1] lot1]. cbn in Ha.
    inv_bind Ha. destruct a as [[v vlog] lot2]. inversion Ha; subst. clear Ha.
    apply NoDup_cons in Hnd as [Hid Hnd].
    assert (Hv : Vehicle.id_ v = id ∧ Vehicle.type_ v = type_).
    { destruct (init_fields id type_) as (? & ? & ?).
      pose proof Ha0 as Hadd.
      apply add_vehicle_spec in Hadd; [|by eapply reachable_wf].
      destruct Hadd as [(-> & _)|(s1 & Hpl & _)]; [done|].
      by destruct Hpl as (? & ? & ? & ? & ? & _ & _ & _ & -> & _). }
    destruct Hv as [Hvid Hvty].
    assert (Hreach1 : reachable zs lot1 (v :: issued)).
    { eapply reach_add; [done| |done]. apply Hfresh. left. }
    apply (IH lot1 (v :: issued)) in H; [|done|done|].
    + destruct H as (new & -> & Hr & Hids & Hty).
      exists (v :: new). rewrite <- app_assoc. split; [done|]. split; [|split].
      * rewrite reverse_cons, <- app_assoc. done.
      * cbn. by rewrite Hvid, Hids.
      * by constructor.
    + intros id' Hid'. cbn. rewrite Hvid. apply not_elem_of_cons. split.
      * intros ->. done.
      * apply Hfresh. by right.
Qed.

(** X15. [add_vehicles], from a reachable state and with fresh, distinct
    identifiers, returns one vehicle for each identifier, in order, each
    of the type asked for, parked or not; and the lot it leaves is
    reachable again, with these vehicles returned. *)
Theorem add_vehicles_one_per_identifier (zs : list Zone.t) (lot lot' : Lot.t)
    (issued : list Vehicle.t) (ids : list string) (type_ : VehicleType.t)
    (vehicles : list Vehicle.t) (log : list LogRecord) :
  reachable zs lot issued →
  NoDup ids → (∀ id, id ∈ ids → id ∉ Vehicle.id_ <$> issued) →
  Lot.add_vehicles lot ids type_ = Ok (vehicles, log, lot') →
  Vehicle.id_ <$> vehicles = ids ∧
  Forall (λ v, Vehicle.type_ v = type_) vehicles ∧
  reachable zs lot' (reverse vehicles ++ issued).
Proof.
  intros Hreach Hnd Hfresh H. unfold Lot.add_vehicles in H.
  eapply add_vehicles_reachable in H as (new & -> & Hr & Hids & Hty); done.
Qed.

(** ** Zones and lots as constructed *)

(** X16. A zone as constructed is well formed: it has [num_spots] slots
    (none for a negative [num_spots]), all of them free, none occupied. *)
Theorem zone_init_all_free (type_ : ZoneType.t) (size : float) (num_spots : Z)
    (adjacent : bool) :
  zone_wf (Zone.init type_ size num_spots adjacent) ∧
  total_slots (Zone.init type_ size num_spots adjacent) = Z.to_nat num_spots ∧
  free_count (Zone.init type_ size num_spots adjacent) = Z.to_nat num_spots ∧
  occupied_count (Zone.init type_ size num_spots adjacent) = 0%nat.
Proof.
  pose proof (zone_wf_init type_ size num_spots adjacent) as Hwf.
  pose proof (zone_wf_conservation _ Hwf) as Hcons.
  assert (Ht : total_slots (Zone.init type_ size num_spots adjacent) = Z.to_nat num_spots).
  { unfold total_slots, Zone.init, Py.range. cbn [Zone.spots].
    rewrite length_fmap, length_seqZ. f_equal. lia. }
  assert (Hf : free_count (Zone.init type_ size num_spots adjacent) = Z.to_nat num_spots).
  { unfold free_count, Zone.init, Py.range. cbn [Zone.free].
    rewrite length_seqZ. f_equal. lia. }
  split; [done|]. split; [done|]. split; [done|]. lia.
Qed.

(** X17. A lot as constructed holds, under each zone type, the zones of
    that type in the order given; every count is zero and no vehicle is
    stored. *)
Theorem lot_init_files_by_type (zs : list Zone.t) :
  (∀ zone_type,
     Lot.zones (Lot.init zs) !!! ZoneType.name zone_type
     = filter (λ z, Zone.type_ z = zone_type) zs) ∧
  (∀ type_, Lot.num_parked_vehicle (Lot.init zs) type_ = 0) ∧
  Lot.vehicles (Lot.init zs) = ∅.
Proof.
  destruct (init_spec zs) as (Hz & Hc & Hv). split; [|split; [|done]].
  - intros zone_type. rewrite Hz. apply list_filter_iff. intros z. split.
    + apply ZoneType_name_inj.
    + by intros ->.
  - intros type_. unfold Lot.num_parked_vehicle. by rewrite Hc, lookup_empty.
Qed.

(** ** The order in which zones are tried *)

Lemma for_each_occupy_next_type v p (l : list Z) z acc z' acc' :
  Py.for_each (Lot.occupy_next v p) (z, acc) l = Ok (z', acc') →
  Zone.type_ z' = Zone.type_ z.
Proof.
  revert z acc. induction l as [|x l IH]; intros z acc H.
  - cbn in H. by inversion H.
  - cbn [Py.for_each] in H. inv_bind H. destruct a as [z1 acc1].
    apply IH in H. rewrite H. unfold Lot.occupy_next in Ha.
    inv_bind Ha. destruct a as [m free']. inv_bind Ha. by inversion Ha.
Qed.

Lemma park_in_zones_order key_type (zs : list Zone.t) (zone_index : nat)
    self v self' v' parked log :
  Lot.park_in_zones self key_type zs zone_index v = Ok (self', v', parked, log) →
  (parked = false ∧ self' = self ∧ v' = v ∧ Forall (passed_over v) zs) ∨
  (parked = true ∧
   ∃ k z, zs !! k = Some z ∧ Forall (passed_over v) (take k zs) ∧ ¬ passed_over v z ∧
          (v' = v ∨ ∃ ss, Vehicle.location v'
                          = Some (Zone.type_ z, Z.of_nat (zone_index + k), ss) ∧
                          (PrimFloat.leb (Vehicle.size v) (Zone.size z) = true →
                           ∃ m, ss = [m]))).
Proof.
  revert zone_index self' v' parked log.
  induction zs as [|zone zs IH]; intros zone_index self' v' parked log H.
  - cbn in H. inversion H; subst. left. by repeat split.
  - cbn [Lot.park_in_zones] in H.
    assert (Hnext : ∀ self' v' parked log,
              passed_over v zone →
              Lot.park_in_zones self key_type zs (S zone_index) v
              = Ok (self', v', parked, log) →
              (parked = false ∧ self' = self ∧ v' = v ∧ Forall (passed_over v) (zone :: zs)) ∨
              (parked = true ∧
               ∃ k z, (zone :: zs) !! k = Some z ∧
                      Forall (passed_over v) (take k (zone :: zs)) ∧ ¬ passed_over v z ∧
                      (v' = v ∨ ∃ ss, Vehicle.location v'
                                      = Some (Zone.type_ z, Z.of_nat (zone_index + k), ss) ∧
                                      (PrimFloat.leb (Vehicle.size v) (Zone.size z) = true →
                                       ∃ m, ss = [m])))).
    { intros s1 v1 p1 l1 Hover Hrec. apply (IH (S zone_index) s1 v1 p1 l1) in Hrec.
      destruct Hrec as [(-> & -> & -> & Hall)|(-> & k & z & Hk & Hall & Hz & Hloc)].
      - left. repeat split; try done. by constructor.
      - right. split; [done|]. exists (S k), z. split; [done|]. split; [by constructor|].
        split; [done|]. by replace (zone_index + S k)%nat with (S zone_index + k)%nat by lia. }
    destruct (decide (Py.len (Zone.free zone) = 0)) as [Hempty|Hfree].
    { eapply Hnext; [|exact H]. left. unfold Py.len in Hempty.
      destruct (Zone.free zone); [done|cbn in Hempty; lia]. }
    assert (Hnonempty : Zone.free zone ≠ []).
    { intros Hnil. rewrite Hnil in Hfree. done. }
    destruct (PrimFloat.leb _ _) eqn:Hfits.
    { inv_bind H. destruct a as [[self1 zone1] v1]. inversion H; subst. right.
      split; [done|]. exists 0%nat, zone. split; [done|]. split; [constructor|]. split.
      - intros [?|[Hc _]]; [done|congruence].
      - right. unfold Lot.park_single in Ha. inv_bind Ha. destruct a as [m free'].
        inv_bind Ha. inversion Ha; subst. cbn. rewrite Nat.add_0_r. eauto. }
    destruct (Zone.adjacent zone) eqn:Hadj.
    { inv_bind H. destruct a as [[self1 zone1] v1]. inversion H; subst. right.
      split; [done|]. exists 0%nat, zone. split; [done|]. split; [constructor|]. split.
      - intros [?|[_ Hc]]; [done|congruence].
      - unfold Lot.park_adjacent in Ha. inv_bind Ha. inv_bind Ha. inv_bind Ha.
        destruct a1 as [|first_spot rest]; [inversion Ha; subst; by left|].
        inv_bind Ha. destruct a1 as [zone2 occupied]. cbn in Ha. inversion Ha; subst. right.
        cbn. rewrite Nat.add_0_r.
        match goal with
        | Hf : Py.for_each _ _ _ = Ok _ |- _ =>
            rewrite (for_each_occupy_next_type _ _ _ _ _ _ _ Hf)
        end. eexists. split; [done|]. congruence. }
    inv_bind H. destruct a as [[[self1 v1] parked1] log1]. inversion H; subst.
    eapply Hnext; [|exact Ha]. right. done.
Qed.

Lemma park_by_priority_order (priority : list ZoneType.t) self v self' v' log
    zt j ss :
  Vehicle.location v = None →
  Lot.park_by_priority self priority v = Ok (self', v', log) →
  Vehicle.location v' = Some (zt, j, ss) →
  ∃ before key after z,
    priority = before ++ key :: after ∧
    0 ≤ j ∧
    (Lot.zones self !!! ZoneType.name key) !! Z.to_nat j = Some z ∧
    Zone.type_ z = zt ∧
    ¬ passed_over v z ∧
    (PrimFloat.leb (Vehicle.size v) (Zone.size z) = true → ∃ m, ss = [m]) ∧
    Forall (passed_over v) (take (Z.to_nat j) (Lot.zones self !!! ZoneType.name key)) ∧
    ∀ key', key' ∈ before →
            Forall (passed_over v) (Lot.zones self !!! ZoneType.name key').
Proof.
  intros Hnone. revert self self' v' log.
  induction priority as [|key priority IH]; intros self self' v' log H Hloc.
  - cbn in H. inversion H; subst. congruence.
  - cbn [Lot.park_by_priority] in H.
    destruct (Lot.zones_get self _) as [zs self1] eqn:E.
    apply zones_get_spec in E as (-> & Hkey & Hzones & _ & _).
    inv_bind H. destruct a as [[[self2 v2] parked] log2].
    apply park_in_zones_order in Ha.
    destruct Ha as [(-> & -> & -> & Hall)|(-> & k & z & Hk & Hall & Hz & Hv)].
    + inv_bind H. destruct a as [[self3 v3] log3]. inversion H; subst.
      apply IH in Ha; [|done].
      destruct Ha as (before & key' & after & z & -> & Hj & Hjz & Hzt & Hz & Hone & Htake & Hbefore).
      exists (key :: before), key', after, z. rewrite <- !Hzones.
      repeat split; try done.
      intros key'' [->|Hin]%elem_of_cons; [done|]. rewrite <- Hzones. by apply Hbefore.
    + inversion H; subst.
      destruct Hv as [->|(ss' & Hv & Hone)]; [congruence|].
      rewrite Hv in Hloc. inversion Hloc; subst. cbn.
      exists [], key, priority, z. rewrite Nat2Z.id.
      repeat split; try done; [lia|]. intros key' Hin. by apply elem_of_nil in Hin.
Qed.

(** X18. A vehicle that [add_vehicle] has parked is in the first zone, in
    the order of the priority list of its type and then of construction,
    that the search does not pass over: every zone of an earlier type of
    the priority list, and every earlier zone of the same type, had no
    free slot or had slots too small for the vehicle without letting it
    span slots.  When the vehicle fits in a slot of the zone it takes one
    slot. *)
Theorem add_vehicle_first_zone_in_priority_order self id type_ v log self' zt j ss :
  Lot.add_vehicle self id type_ = Ok (v, log, self') →
  Vehicle.location v = Some (zt, j, ss) →
  ∃ before key after z,
    Vehicle.priority (Vehicle.init id type_) = before ++ key :: after ∧
    0 ≤ j ∧
    (Lot.zones self !!! ZoneType.name key) !! Z.to_nat j = Some z ∧
    Zone.type_ z = zt ∧
    ¬ passed_over (Vehicle.init id type_) z ∧
    (PrimFloat.leb (Vehicle.size (Vehicle.init id type_)) (Zone.size z) = true →
     ∃ m, ss = [m]) ∧
    Forall (passed_over (Vehicle.init id type_))
      (take (Z.to_nat j) (Lot.zones self !!! ZoneType.name key)) ∧
    ∀ key', key' ∈ before →
            Forall (passed_over (Vehicle.init id type_))
              (Lot.zones self !!! ZoneType.name key').
Proof.
  intros H Hloc. unfold Lot.add_vehicle, Lot.park_first_available in H.
  inv_bind H. destruct a as [[self1 v1] log1].
  assert (Hnone : Vehicle.location (Vehicle.init id type_) = None) by (by destruct type_).
  destruct (Vehicle.location v1) as [loc|] eqn:Hloc1.
  - inversion H; subst. destruct loc as [[zt1 j1] ss1].
    rewrite Hloc in Hloc1. inversion Hloc1; subst.
    by eapply park_by_priority_order.
  - inversion H; subst. congruence.
Qed.

(** ** No exception *)

Lemma park_adjacent_returns self (z : Zone.t) (zone_index : Z) (v : Vehicle.t) q n :
  (∀ s, s ∈ Zone.free z → 0 ≤ s < Py.len (Zone.spots z)) →
  Py.truediv (Vehicle.size v) (Zone.size z) = Ok q → Py.ceil q = Ok n → 0 < n →
  ∃ r, Lot.park_adjacent self z zone_index v = Ok r.
Proof.
  intros Hrange Hq Hn Hpos. unfold Lot.park_adjacent. rewrite Hq. cbn. rewrite Hn. cbn.
  destruct (find_adjacent_free_spots_search (Zone.free z) (Z.to_nat n) true ltac:(lia))
    as (found & Hfound & Hcrs).
  rewrite Z2Nat.id in Hfound by lia. rewrite Hfound. cbn.
  apply contiguous_run_search_first in Hcrs as [->|(p & -> & Hp & _)]; [by eexists|].
  cbn. replace (Z.of_nat p + (n - 1) + 1) with (Z.of_nat p + Z.of_nat (Z.to_nat n)) by lia.
  rewrite for_each_occupy_next by done. cbn. by eexists.
Qed.

Lemma park_in_zones_returns self key_type (zs : list Zone.t) (zone_index : nat) v :
  Forall (λ z, (∀ s, s ∈ Zone.free z → 0 ≤ s < Py.len (Zone.spots z)) ∧
               (Zone.adjacent z = true →
                ∃ q n, Py.truediv (Vehicle.size v) (Zone.size z) = Ok q ∧
                       Py.ceil q = Ok n ∧ 0 < n)) zs →
  ∃ r, Lot.park_in_zones self key_type zs zone_index v = Ok r.
Proof.
  intros Hall. revert zone_index.
  induction Hall as [|zone zs [Hrange Hadj] _ IH]; intros zone_index.
  - by eexists.
  - cbn [Lot.park_in_zones].
    destruct (decide _) as [|Hfree]; [apply IH|].
    destruct (PrimFloat.leb _ _).
    { destruct (Zone.free zone) as [|m free'] eqn:Hf; [done|].
      rewrite (park_single_spec _ _ _ _ m free' Hf).
      - cbn. by eexists.
      - apply Hrange. by left. }
    destruct (Zone.adjacent zone).
    { destruct Hadj as (q & n & Hq & Hn & Hpos); [done|].
      destruct (park_adjacent_returns self zone (Z.of_nat zone_index) v q n) as [[[s1 z1] v1] ->];
        try done.
      cbn. by eexists. }
    destruct (IH (S zone_index)) as [[[[s1 v1] p1] l1] ->]. cbn. by eexists.
Qed.

Lemma park_by_priority_returns (priority : list ZoneType.t) self v :
  (∀ key z, z ∈ Lot.zones self !!! key →
            (∀ s, s ∈ Zone.free z → 0 ≤ s < Py.len (Zone.spots z)) ∧
            (Zone.adjacent z = true →
             ∃ q n, Py.truediv (Vehicle.size v) (Zone.size z) = Ok q ∧
                    Py.ceil q = Ok n ∧ 0 < n)) →
  ∃ r, Lot.park_by_priority self priority v = Ok r.
Proof.
  revert self. induction priority as [|key priority IH]; intros self Hall.
  - by eexists.
  - cbn [Lot.park_by_priority].
    destruct (Lot.zones_get self _) as [zs self1] eqn:E.
    apply zones_get_spec in E as (-> & Hkey & Hzones & _ & _).
    destruct (park_in_zones_returns self1 key (Lot.zones self !!! ZoneType.name key) 0 v)
      as [[[[self2 v2] parked] log2] Hr].
    { apply Forall_forall. intros z Hz. by apply (Hall _ _ Hz). }
    rewrite Hr. cbn. destruct parked; [by eexists|].
    apply park_in_zones_order in Hr as [(_ & -> & -> & _)|[? _]]; [|done].
    destruct (IH self1) as [[[s3 v3] l3] ->].
    { intros key' z. rewrite Hzones. apply Hall. }
    cbn. by eexists.
Qed.

Lemma reachable_zone_shape (zs : list Zone.t) (lot : Lot.t) (issued : list Vehicle.t)
    (key : string) (z : Zone.t) :
  reachable zs lot issued → z ∈ Lot.zones lot !!! key →
  ∃ z0, z0 ∈ zs ∧ zone_shape z = zone_shape z0.
Proof.
  intros Hreach Hz. pose proof (reachable_inv _ _ _ Hreach) as Hinv.
  assert (Hshape : zone_shape z ∈ zone_shape <$> Lot.zones (Lot.init zs) !!! key).
  { rewrite <- (inv_shape _ _ _ Hinv). by apply list_elem_of_fmap_2. }
  apply list_elem_of_fmap in Hshape as (z0 & Heq & Hz0).
  rewrite (proj1 (init_spec zs)) in Hz0. apply list_elem_of_filter in Hz0 as [_ Hz0].
  by exists z0.
Qed.

(** X19. In a reachable state [add_vehicle] raises no exception, provided
    that in every zone that lets a vehicle span slots, the number of slots
    the vehicle needs there, [ceil(vehicle.size / zone.size)], can be
    computed and is positive. *)
Theorem add_vehicle_never_raises zs lot issued id type_ :
  reachable zs lot issued →
  Forall (λ z, Zone.adjacent z = true →
               ∃ q n, Py.truediv (Vehicle.size (Vehicle.init id type_)) (Zone.size z) = Ok q ∧
                      Py.ceil q = Ok n ∧ 0 < n) zs →
  ∃ vehicle log lot', Lot.add_vehicle lot id type_ = Ok (vehicle, log, lot').
Proof.
  intros Hreach Hzs. pose proof (reachable_inv _ _ _ Hreach) as Hinv.
  unfold Lot.add_vehicle, Lot.park_first_available.
  destruct (park_by_priority_returns (Vehicle.priority (Vehicle.init id type_)) lot
              (Vehicle.init id type_)) as [[[self1 v1] log1] ->].
  { intros key z Hz. split.
    - intros s. apply zone_wf_in_range. by apply (inv_wf _ _ _ Hinv _ _ Hz).
    - intros Hadj.
      destruct (reachable_zone_shape zs lot issued key z Hreach Hz) as (z0 & Hz0 & Heq).
      rewrite Forall_forall in Hzs. specialize (Hzs _ Hz0).
      unfold zone_shape in Heq. inversion Heq as [[Ht Hs Ha Hn]].
      rewrite Hs. apply Hzs. congruence. }
  cbn. destruct (Vehicle.location v1); by do 3 eexists.
Qed.

(** ** The dump of a zone *)

Lemma string_length_app (s t : string) :
  String.length (s +:+ t) = (String.length s + String.length t)%nat.
Proof.
  induction s as [|c s IH]; [done|].
  change (String c s +:+ t) with (String c (s +:+ t)). cbn. f_equal. exact IH.
Qed.

Lemma string_get_app_l (s t : string) (k : nat) :
  (k < String.length s)%nat → String.get k (s +:+ t) = String.get k s.
Proof. intros Hk. symmetry. by apply String.append_correct1. Qed.

Lemma string_get_app_r (s t : string) :
  String.get (String.length s) (s +:+ t) = String.get 0 t.
Proof. symmetry. apply (String.append_correct2 s t 0). Qed.

Lemma string_get_lt (s : string) (k : nat) (c : Ascii.ascii) :
  String.get k s = Some c → (k < String.length s)%nat.
Proof.
  revert k. induction s as [|c' s IH]; intros k Hget; cbn in *; [done|].
  destruct k; [lia|]. apply IH in Hget. lia.
Qed.

Lemma zone_spots_string_chars self (z : Zone.t) :
  String.length (Lot.zone_spots_string self z) = length (Zone.spots z) ∧
  ∀ k, String.get k (Lot.zone_spots_string self z) = Some "O"%char ↔
       Zone.spots z !! k = Some None.
Proof.
  unfold Lot.zone_spots_string. induction (Zone.spots z) as [|x l [IHlen IHget]] using rev_ind.
  - cbn. split; [done|]. intros k. by destruct k.
  - rewrite foldl_app. cbn [foldl]. rewrite length_app. cbn [length].
    set (s := foldl _ _ l) in *.
    assert (∃ c, (match x with
                  | None => s +:+ "O"
                  | Some vehicle =>
                      match Vehicle.type_ vehicle with
                      | VehicleType.CYCLE => s +:+ "M"
                      | VehicleType.CAR => s +:+ "C"
                      | VehicleType.VAN => s +:+ "V"
                      end
                  end = s +:+ String c EmptyString) ∧
                 (c = "O"%char ↔ x = None)) as (c & -> & Hc).
    { destruct x as [v|]; [destruct (Vehicle.type_ v)|]; eexists; (split; [done|]); done. }
    split; [rewrite string_length_app; cbn; lia|].
    intros k. destruct (decide (k < length l)%nat) as [Hlt|Hge].
    + rewrite string_get_app_l by lia. rewrite lookup_app_l by done. apply IHget.
    + destruct (decide (k = length l)) as [->|Hne].
      * rewrite <- IHlen, string_get_app_r. cbn.
        rewrite IHlen, list_lookup_middle by done. split; intros [= E]; f_equal; by apply Hc.
      * rewrite lookup_ge_None_2 by (rewrite length_app; cbn; lia).
        split; [|done]. intros Hget.
        apply string_get_lt in Hget. rewrite string_length_app in Hget. cbn in Hget. lia.
Qed.

(** X20. The dump [zone_spots_string] of a well-formed zone has one
    character for each slot, and the character at a position is ["O"]
    exactly when that slot is in the free list. *)
Theorem zone_spots_string_shows_free self (z : Zone.t) :
  zone_wf z →
  String.length (Lot.zone_spots_string self z) = total_slots z ∧
  ∀ k, String.get k (Lot.zone_spots_string self z) = Some "O"%char ↔
       Z.of_nat k ∈ Zone.free z.
Proof.
  intros Hwf. destruct (zone_spots_string_chars self z) as [Hlen Hget].
  split; [done|]. intros k. rewrite Hget. split.
  - apply (wf_none_free _ Hwf).
  - intros Hin. apply (wf_free_none _ Hwf) in Hin as [_ Hin]. by rewrite Nat2Z.id in Hin.
Qed.

(** ** The count of a type and the vehicles stored *)

Lemma remove_vehicle_stored (lot0 lot lot' : Lot.t) (issued : list Vehicle.t)
    (v : Vehicle.t) (log : list LogRecord) :
  lot_inv lot0 lot issued → v ∈ issued →
  is_Some (Lot.vehicles lot !! Vehicle.id_ v) →
  Lot.remove_vehicle lot v = Ok (log, lot') →
  Lot.vehicles lot !! Vehicle.id_ v = Some v ∧
  Lot.count lot' =
    <[VehicleType.name (Vehicle.type_ v) :=
        default 0 (Lot.count lot !! VehicleType.name (Vehicle.type_ v)) + -1]>
      (Lot.count lot) ∧
  Lot.vehicles lot' = delete (Vehicle.id_ v) (Lot.vehicles lot).
Proof.
  intros [Hwf Hshape Hids Hveh] Hissued [v0 Hv0] Hrem.
  destruct (Hveh _ _ Hv0) as (Hid0 & Hin0 & Hpk).
  assert (v0 = v) as -> by (by eapply (NoDup_fmap_eq Vehicle.id_ issued)).
  destruct Hpk as (zt & j & ss & z & Hloc & Hj & Hnd & Hss).
  assert (Hzwf : zone_wf z).
  { apply (Hwf (ZoneType.name zt)). by eapply list_elem_of_lookup_2. }
  destruct (zone_wf_release ss z Hzwf Hnd) as (z' & Hz' & _).
  { intros s Hs. destruct (Hss s Hs) as (H0 & v' & Hv' & _). eauto. }
  destruct (remove_vehicle_spec lot v zt j ss z z') as (lot1 & Hrem1 & _ & Hc & Hv);
    [by rewrite Hv0|done..|].
  rewrite Hrem1 in Hrem. inversion Hrem; subst. done.
Qed.

Lemma stored_of_type_insert (lot lot' : Lot.t) (id : string) (v : Vehicle.t)
    (type_ : VehicleType.t) :
  Lot.vehicles lot !! id = None →
  Lot.vehicles lot' = <[id := v]> (Lot.vehicles lot) →
  stored_of_type lot' type_
  = if decide (Vehicle.type_ v = type_) then S (stored_of_type lot type_)
    else stored_of_type lot type_.
Proof.
  intros Hnone Hv. unfold stored_of_type. rewrite Hv.
  destruct (decide (Vehicle.type_ v = type_)) as [Heq|Hne].
  - rewrite map_filter_insert_True by done.
    apply map_size_insert_None, map_lookup_filter_None. by left.
  - rewrite map_filter_insert_False by done. by rewrite delete_id.
Qed.

Lemma stored_of_type_delete (lot lot' : Lot.t) (v : Vehicle.t) (type_ : VehicleType.t) :
  Lot.vehicles lot !! Vehicle.id_ v = Some v →
  Lot.vehicles lot' = delete (Vehicle.id_ v) (Lot.vehicles lot) →
  stored_of_type lot type_
  = if decide (Vehicle.type_ v = type_) then S (stored_of_type lot' type_)
    else stored_of_type lot' type_.
Proof.
  intros Hsome Hv. unfold stored_of_type. rewrite Hv, map_filter_delete.
  set (P := λ kv : string * Vehicle.t, Vehicle.type_ kv.2 = type_).
  destruct (decide (Vehicle.type_ v = type_)) as [Heq|Hne].
  - assert (Hf : filter P (Lot.vehicles lot) !! Vehicle.id_ v = Some v).
    { by apply map_lookup_filter_Some. }
    rewrite map_size_delete_Some by (by rewrite Hf).
    assert (size (filter P (Lot.vehicles lot)) ≠ 0%nat); [|lia].
    intros H0. apply map_size_empty_inv in H0. rewrite H0 in Hf. by rewrite lookup_empty in Hf.
  - rewrite delete_id; [done|]. apply map_lookup_filter_None. right.
    intros x Hx. rewrite Hsome in Hx. by inversion Hx; subst.
Qed.

Lemma add_vehicle_one_slot (zs : list Zone.t) (lot : Lot.t) (issued : list Vehicle.t)
    (id : string) (type_ : VehicleType.t) (v : Vehicle.t) (log : list LogRecord)
    (lot' : Lot.t) :
  Forall (λ z, Zone.adjacent z = false) zs →
  reachable zs lot issued →
  Lot.add_vehicle lot id type_ = Ok (v, log, lot') →
  id ∉ Vehicle.id_ <$> issued →
  (Vehicle.location v = None ∧ Lot.count lot' = Lot.count lot ∧
   Lot.vehicles lot' = Lot.vehicles lot) ∨
  (Vehicle.type_ v = type_ ∧
   Lot.vehicles lot !! id = None ∧
   Lot.count lot' = <[VehicleType.name type_ :=
                        default 0 (Lot.count lot !! VehicleType.name type_) + 1]>
                      (Lot.count lot) ∧
   Lot.vehicles lot' = <[id := v]> (Lot.vehicles lot)).
Proof.
  intros Hadj Hreach H Hfresh. pose proof (reachable_inv _ _ _ Hreach) as Hinv.
  destruct (init_fields id type_) as (Hid & Hty & Hnone).
  unfold Lot.add_vehicle, Lot.park_first_available in H.
  inv_bind H. destruct a as [[self1 v1] log1].
  pose proof (park_by_priority_spec _ _ _ _ _ _ (inv_wf _ _ _ Hinv) Ha) as Hspec.
  destruct Hspec as [(-> & Hz & Hc & Hv)|Hplaced].
  { rewrite Hnone in H. inversion H; subst. left. by rewrite Hnone. }
  destruct Hplaced as (zt & j & z & p & n & Hj & Hn & Hp & -> & Hz & Hc & Hv).
  cbn in H. inversion H; subst. clear H. right.
  destruct (park_by_priority_order _ _ _ _ _ _ zt (Z.of_nat j) _ Hnone Ha eq_refl)
    as (before & key & after & z1 & _ & _ & Hj1 & _ & Hover & Hone & _).
  assert (Hadj1 : Zone.adjacent z1 = false).
  { destruct (reachable_zone_shape zs lot issued (ZoneType.name key) z1 Hreach)
      as (z0 & Hz0 & Heq); [by eapply list_elem_of_lookup_2|].
    rewrite Forall_forall in Hadj. specialize (Hadj _ Hz0).
    unfold zone_shape in Heq. inversion Heq. congruence. }
  assert (Hfits : PrimFloat.leb (Vehicle.size (Vehicle.init id type_)) (Zone.size z1) = true).
  { destruct (PrimFloat.leb _ _) eqn:E; [done|]. exfalso. apply Hover. by right. }
  destruct (Hone Hfits) as [m Hm].
  assert (n = 1%nat) as ->.
  { apply (f_equal length) in Hm. rewrite length_take, length_drop in Hm. cbn in Hm. lia. }
  split; [by destruct type_|]. split.
  - destruct (Lot.vehicles lot !! id) as [w|] eqn:Hw; [|done].
    destruct (inv_vehicles _ _ _ Hinv _ _ Hw) as (Hidw & Hin & _).
    exfalso. apply Hfresh. rewrite <- Hidw. by apply list_elem_of_fmap_2.
  - cbn. rewrite Hc, Hv, Hty. split; [done|]. by destruct type_.
Qed.

(** X21. In a lot built from zones none of which lets a vehicle span
    slots, [num_parked_vehicle] of a type is, in every reachable state,
    the number of vehicles of that type stored in the lot. *)
Theorem count_is_number_stored (zs : list Zone.t) (lot : Lot.t)
    (issued : list Vehicle.t) (type_ : VehicleType.t) :
  Forall (λ z, Zone.adjacent z = false) zs →
  reachable zs lot issued →
  Lot.num_parked_vehicle lot type_ = Z.of_nat (stored_of_type lot type_).
Proof.
  intros Hadj Hreach. rewrite num_parked_default.
  induction Hreach as [Hfresh|lot issued id ty v log lot' Hreach IH Hid H
                      |lot issued v log lot' Hreach IH Hv H
                      |lot issued id ty n lot' Hreach IH H].
  - destruct (init_spec zs) as (_ & Hc & Hv).
    unfold stored_of_type. rewrite Hc, Hv, lookup_empty, map_filter_empty. done.
  - destruct (add_vehicle_one_slot _ _ _ _ _ _ _ _ Hadj Hreach H Hid)
      as [(_ & Hc & Hv)|(Hty & Hnone & Hc & Hv)].
    + unfold stored_of_type. by rewrite Hc, Hv.
    + rewrite (stored_of_type_insert lot lot' id v type_ Hnone Hv), Hc, Hty.
      destruct (decide (ty = type_)) as [->|Hne].
      * rewrite lookup_insert_eq. cbn. lia.
      * rewrite lookup_insert_ne; [done|]. intros Heq. by apply Hne, VehicleType_name_inj.
  - destruct (Lot.vehicles lot !! Vehicle.id_ v) as [v0|] eqn:Hv0.
    2:{ rewrite remove_vehicle_not_stored in H by done. by inversion H; subst. }
    destruct Hv as [Hv|?]; [|done].
    destruct (remove_vehicle_stored _ _ _ _ _ _ (reachable_inv _ _ _ Hreach) Hv
                ltac:(by rewrite Hv0) H) as (Hsome & Hc & Hveh).
    rewrite (stored_of_type_delete lot lot' v type_ Hsome Hveh) in IH. rewrite Hc.
    destruct (decide (Vehicle.type_ v = type_)) as [->|Hne].
    + rewrite lookup_insert_eq. cbn. lia.
    + rewrite lookup_insert_ne; [done|]. intros Heq. by apply Hne, VehicleType_name_inj.
  - apply vehicle_availability_read_only in H as (_ & Hc & Hv).
    unfold stored_of_type. by rewrite Hc, Hv.
Qed.

(** ** Availability after a vehicle is parked *)



(** ** The theorems at concrete inputs *)

(** C3 on the free list [0, 1, 2, 4, 5, 6, 8, 9] and runs of three. *)
Lemma find_adjacent_free_spots_refines_witness :
  (0 < 3)%nat ∧
  ∃ found,
    Lot.find_adjacent_free_spots [0; 1; 2; 4; 5; 6; 8; 9] (Z.of_nat 3) false
    = Ok (Z.of_nat <$> found)
    ∧ contiguous_run_search [0; 1; 2; 4; 5; 6; 8; 9] 3 false 0 [] found
    ∧ ∀ found', contiguous_run_search [0; 1; 2; 4; 5; 6; 8; 9] 3 false 0 [] found' →
                found' = found.
Proof.
  split; [lia|].
  apply (find_adjacent_free_spots_refines [0; 1; 2; 4; 5; 6; 8; 9] 3 false). lia.
Defined.

(** C4 on a lot with one REGULAR zone of two slots and a van, which needs
    three adjacent slots there. *)
Lemma add_vehicle_rejected_no_effect_witness :
  ∃ vehicle log self',
    Lot.add_vehicle (Lot.init [Zone.init ZoneType.REGULAR 1%float 2 true])
      "van" VehicleType.VAN = Ok (vehicle, log, self') ∧
    Vehicle.location vehicle = None ∧
    ((∀ key, Lot.zones self' !!! key
             = Lot.zones (Lot.init [Zone.init ZoneType.REGULAR 1%float 2 true]) !!! key) ∧
     Lot.count self' = Lot.count (Lot.init [Zone.init ZoneType.REGULAR 1%float 2 true]) ∧
     Lot.vehicles self'
     = Lot.vehicles (Lot.init [Zone.init ZoneType.REGULAR 1%float 2 true])).
Proof.
  eexists _, _, _. split; [vm_compute; reflexivity|]. split; [reflexivity|].
  eapply (add_vehicle_rejected_no_effect _ "van" VehicleType.VAN);
    [vm_compute; reflexivity|reflexivity].
Defined.

(** C5, as amended, on the sample run and a van. *)
Lemma add_then_remove_restores_witness :
  lot_wf demo_lot ∧
  ∃ v log lot1,
    Lot.add_vehicle demo_lot "van" VehicleType.VAN = Ok (v, log, lot1) ∧
    Vehicle.location v = Some (ZoneType.REGULAR, 0, [2; 3; 4]) ∧
    ∃ lot2 j z m free',
      Lot.remove_vehicle lot1 v = Ok ([], lot2) ∧
      (∀ key, Lot.zones lot2 !!! key = Lot.zones demo_lot !!! key) ∧
      0 = Z.of_nat j ∧
      (Lot.zones lot2 !!! ZoneType.name ZoneType.REGULAR) !! j = Some z ∧
      StronglySorted Z.lt (Zone.free z) ∧
      (∀ s, s ∈ [2; 3; 4] → s ∈ Zone.free z) ∧
      Zone.free z = m :: free' ∧
      (∀ s, s ∈ Zone.free z → m ≤ s) ∧
      (m ∈ [2; 3; 4] ∨ ∀ s, s ∈ [2; 3; 4] → m < s) ∧
      ∀ self zone_type' zs idx v2,
        PrimFloat.leb (Vehicle.size v2) (Zone.size z) = true →
        ∃ self',
          Lot.park_in_zones self zone_type' (z :: zs) idx v2
          = Ok (self', Vehicle.set_location v2 (Zone.type_ z, Z.of_nat idx, [m]),
                true, []).
Proof.
  split; [exact demo_wf|].
  eexists _, _, _. split; [vm_compute; reflexivity|]. split; [reflexivity|].
  eapply (add_then_remove_restores demo_lot "van" VehicleType.VAN);
    [exact demo_wf|vm_compute; reflexivity|reflexivity].
Defined.

(** C6 on the sample run. *)
Lemma reachable_free_sorted_witness :
  reachable demo_zones demo_lot demo_issued ∧
  (∀ key z, z ∈ Lot.zones demo_lot !!! key → StronglySorted Z.lt (Zone.free z)) ∧
  (∀ id type_ v log lot' zone_type zone_index spot_indices,
     Lot.add_vehicle demo_lot id type_ = Ok (v, log, lot') →
     Vehicle.location v = Some (zone_type, zone_index, spot_indices) →
     ∃ j z z',
       zone_index = Z.of_nat j ∧
       (Lot.zones demo_lot !!! ZoneType.name zone_type) !! j = Some z ∧
       (Lot.zones lot' !!! ZoneType.name zone_type) !! j = Some z' ∧
       (∀ s, s ∈ spot_indices → s ∈ Zone.free z) ∧
       Zone.free z' = filter (λ s, s ∉ spot_indices) (Zone.free z) ∧
       StronglySorted Z.lt (Zone.free z')) ∧
  (∀ v, v ∈ demo_issued → is_Some (Lot.vehicles demo_lot !! Vehicle.id_ v) →
     ∃ zone_type j spot_indices z z' lot',
       Vehicle.location v = Some (zone_type, Z.of_nat j, spot_indices) ∧
       (Lot.zones demo_lot !!! ZoneType.name zone_type) !! j = Some z ∧
       Lot.remove_vehicle demo_lot v = Ok ([], lot') ∧
       (Lot.zones lot' !!! ZoneType.name zone_type) !! j = Some z' ∧
       (∀ s, s ∈ spot_indices → s ∉ Zone.free z) ∧
       Zone.free z' ≡ₚ spot_indices ++ Zone.free z ∧
       StronglySorted Z.lt (Zone.free z')).
Proof.
  split; [exact demo_reachable|].
  exact (reachable_free_sorted demo_zones demo_lot demo_issued demo_reachable).
Defined.

(** C7 on the sample run. *)
Lemma reachable_conservation_witness :
  reachable demo_zones demo_lot demo_issued ∧
  ∀ key j z, (Lot.zones demo_lot !!! key) !! j = Some z →
    ∃ z0, (Lot.zones (Lot.init demo_zones) !!! key) !! j = Some z0 ∧
          total_slots z = total_slots z0 ∧
          (free_count z + occupied_count z = total_slots z0)%nat.
Proof.
  split; [exact demo_reachable|].
  exact (reachable_conservation demo_zones demo_lot demo_issued demo_reachable).
Defined.

(** C8 on a fresh REGULAR zone that lets vehicles span slots, and a car. *)
Lemma single_slot_takes_smallest_witness :
  zone_wf (Zone.init ZoneType.REGULAR 1%float 5 true) ∧
  Zone.free (Zone.init ZoneType.REGULAR 1%float 5 true) ≠ [] ∧
  PrimFloat.leb (Vehicle.size (Vehicle.init "car" VehicleType.CAR))
    (Zone.size (Zone.init ZoneType.REGULAR 1%float 5 true)) = true ∧
  ∃ spot_index free',
    Zone.free (Zone.init ZoneType.REGULAR 1%float 5 true) = spot_index :: free' ∧
    (∀ s, s ∈ Zone.free (Zone.init ZoneType.REGULAR 1%float 5 true) → spot_index ≤ s) ∧
    Lot.park_single (Lot.init demo_zones) (Zone.init ZoneType.REGULAR 1%float 5 true)
      (Z.of_nat 0) (Vehicle.init "car" VehicleType.CAR) =
      Ok (Lot.count_add (Lot.init demo_zones)
            (VehicleType.name (Vehicle.type_ (Vehicle.init "car" VehicleType.CAR))) 1,
          Zone.mk ZoneType.REGULAR 1%float true
            (<[Z.to_nat spot_index := Some (Vehicle.init "car" VehicleType.CAR)]>
               (Zone.spots (Zone.init ZoneType.REGULAR 1%float 5 true))) free',
          Vehicle.set_location (Vehicle.init "car" VehicleType.CAR)
            (ZoneType.REGULAR, Z.of_nat 0, [spot_index])) ∧
    Lot.park_in_zones (Lot.init demo_zones) ZoneType.REGULAR
      [Zone.init ZoneType.REGULAR 1%float 5 true] 0 (Vehicle.init "car" VehicleType.CAR) =
      '(self, zone, vehicle) ←
        Lot.park_single (Lot.init demo_zones)
          (Zone.init ZoneType.REGULAR 1%float 5 true) (Z.of_nat 0)
          (Vehicle.init "car" VehicleType.CAR);
      Ok (Lot.store_zone self (ZoneType.name ZoneType.REGULAR) 0 zone,
          vehicle, true, []).
Proof.
  split; [apply zone_wf_init|].
  split; [vm_compute; discriminate|].
  split; [vm_compute; reflexivity|].
  apply (single_slot_takes_smallest (Lot.init demo_zones) ZoneType.REGULAR
           (Zone.init ZoneType.REGULAR 1%float 5 true) [] 0
           (Vehicle.init "car" VehicleType.CAR)).
  - apply zone_wf_init.
  - vm_compute. discriminate.
  - vm_compute. reflexivity.
Defined.

(** C9 on the sample run and a vehicle that was never parked. *)
Lemma remove_vehicle_unknown_witness :
  Lot.vehicles demo_lot !! Vehicle.id_ (Vehicle.init "stranger" VehicleType.CAR) = None ∧
  Lot.remove_vehicle demo_lot (Vehicle.init "stranger" VehicleType.CAR)
  = Ok ([VehicleNotInLot (Vehicle.init "stranger" VehicleType.CAR)], demo_lot).
Proof.
  split; [vm_compute; reflexivity|].
  apply (remove_vehicle_unknown demo_lot (Vehicle.init "stranger" VehicleType.CAR)).
  vm_compute. reflexivity.
Defined.

(** C10 on a lot with one LARGE zone, all free. *)
Lemma vehicle_availability_van_needs_regular_witness :
  Lot.zones (Lot.init [Zone.init ZoneType.LARGE 3%float 4 false])
    !!! ZoneType.name ZoneType.REGULAR = [] ∧
  Lot.vehicle_availability (Lot.init [Zone.init ZoneType.LARGE 3%float 4 false])
    "probe" VehicleType.VAN = Raise IndexError.
Proof.
  split; [vm_compute; reflexivity|].
  apply (vehicle_availability_van_needs_regular
           (Lot.init [Zone.init ZoneType.LARGE 3%float 4 false]) "probe").
  vm_compute. reflexivity.
Defined.

(** ** The further properties at concrete inputs *)

(** X1 on the free list [0, 1, 2] and zero slots. *)
Lemma find_adjacent_free_spots_needs_positive_witness :
  0 ≤ 0 ∧ Lot.find_adjacent_free_spots [0; 1; 2] 0 false = Raise IndexError.
Proof.
  split; [lia|].
  apply (find_adjacent_free_spots_needs_positive [0; 1; 2] 0 false). lia.
Defined.

(** X2 on the free list [0, 1, 2, 4, 5] and runs of two: the windows at
    positions 0 and 3. *)
Lemma find_adjacent_free_spots_sound_witness :
  StronglySorted Z.lt [0; 1; 2; 4; 5] ∧ (0 < 2)%nat ∧
  Lot.find_adjacent_free_spots [0; 1; 2; 4; 5] (Z.of_nat 2) false = Ok [0; 3] ∧
  (Forall (λ p, ∃ (i : nat) (a : Z),
             p = Z.of_nat i ∧ (i + 2 ≤ length [0; 1; 2; 4; 5])%nat ∧
             ∀ k, (k < 2)%nat → [0; 1; 2; 4; 5] !! (i + k)%nat = Some (a + Z.of_nat k))
          [0; 3] ∧
   StronglySorted (λ p q, p + Z.of_nat 2 < q) [0; 3] ∧
   (false = true → (length [0; 3] ≤ 1)%nat)).
Proof.
  assert (Hsorted : StronglySorted Z.lt [0; 1; 2; 4; 5]).
  { repeat (constructor; try lia). }
  split; [exact Hsorted|]. split; [lia|]. split; [vm_compute; reflexivity|].
  apply (find_adjacent_free_spots_sound [0; 1; 2; 4; 5] 2 false [0; 3] Hsorted);
    [lia|vm_compute; reflexivity].
Defined.

(** X3 on the same free list. *)
Lemma find_adjacent_free_spots_first_is_head_witness :
  (0 < 2)%nat ∧
  Lot.find_adjacent_free_spots [0; 1; 2; 4; 5] (Z.of_nat 2) false = Ok [0; 3] ∧
  Lot.find_adjacent_free_spots [0; 1; 2; 4; 5] (Z.of_nat 2) true = Ok (take 1 [0; 3]).
Proof.
  split; [lia|]. split; [vm_compute; reflexivity|].
  apply (find_adjacent_free_spots_first_is_head [0; 1; 2; 4; 5] 2 [0; 3]);
    [lia|vm_compute; reflexivity].
Defined.

(** X4 on the free list [0, 2, 3] and runs of two. *)
Lemma find_adjacent_free_spots_leftmost_witness :
  0 < 2 ∧
  ((Lot.find_adjacent_free_spots [0; 2; 3] 2 true = Ok [] ∧
    ∀ p, ¬ window_accepted [0; 2; 3] (Z.to_nat 2) p) ∨
   (∃ p, Lot.find_adjacent_free_spots [0; 2; 3] 2 true = Ok [Z.of_nat p] ∧
         window_accepted [0; 2; 3] (Z.to_nat 2) p ∧
         ∀ q, (q < p)%nat → ¬ window_accepted [0; 2; 3] (Z.to_nat 2) q)).
Proof.
  split; [lia|].
  apply (find_adjacent_free_spots_leftmost [0; 2; 3] 2). lia.
Defined.

(** X5 on the sample run and a car. *)
Lemma vehicle_availability_changes_nothing_witness :
  ∃ num_spots self',
    Lot.vehicle_availability demo_lot "probe" VehicleType.CAR = Ok (num_spots, self') ∧
    ((∀ key, Lot.zones self' !!! key = Lot.zones demo_lot !!! key) ∧
     Lot.count self' = Lot.count demo_lot ∧
     Lot.vehicles self' = Lot.vehicles demo_lot).
Proof.
  eexists _, _. split; [vm_compute; reflexivity|].
  eapply (vehicle_availability_changes_nothing demo_lot _ "probe" VehicleType.CAR).
  vm_compute. reflexivity.
Defined.

(** X7 on a lot with one COMPACT zone of no slot and a car. *)
Lemma no_availability_no_place_witness :
  VehicleType.CAR ≠ VehicleType.VAN ∧
  ∃ self0,
    Lot.vehicle_availability (Lot.init [Zone.init ZoneType.COMPACT 1%float 0 false])
      "probe" VehicleType.CAR = Ok (0, self0) ∧
    ∃ self',
      Lot.add_vehicle (Lot.init [Zone.init ZoneType.COMPACT 1%float 0 false])
        "car" VehicleType.CAR
      = Ok (Vehicle.init "car" VehicleType.CAR, [NoRoomToPark VehicleType.CAR], self').
Proof.
  split; [discriminate|].
  eexists. split; [vm_compute; reflexivity|].
  eapply (no_availability_no_place
            (Lot.init [Zone.init ZoneType.COMPACT 1%float 0 false]) _
            "probe" "car" VehicleType.CAR);
    [discriminate|vm_compute; reflexivity].
Defined.


(** X9 on the sample run and a van. *)
Lemma add_vehicle_counts_slots_witness :
  lot_wf demo_lot ∧
  ∃ v log lot',
    Lot.add_vehicle demo_lot "van" VehicleType.VAN = Ok (v, log, lot') ∧
    (Lot.num_parked_vehicle lot' VehicleType.VAN
     = Lot.num_parked_vehicle demo_lot VehicleType.VAN
       + match Vehicle.location v with
         | Some (_, _, spot_indices) => Py.len spot_indices
         | None => 0
         end ∧
     ∀ type', type' ≠ VehicleType.VAN →
       Lot.num_parked_vehicle lot' type' = Lot.num_parked_vehicle demo_lot type').
Proof.
  split; [exact demo_wf|].
  eexists _, _, _. split; [vm_compute; reflexivity|].
  eapply (add_vehicle_counts_slots demo_lot _ "van" VehicleType.VAN);
    [exact demo_wf|vm_compute; reflexivity].
Defined.

(** X10 on the sample run and a van. *)
Lemma location_is_a_run_witness :
  lot_wf demo_lot ∧
  ∃ v log lot',
    Lot.add_vehicle demo_lot "van" VehicleType.VAN = Ok (v, log, lot') ∧
    Vehicle.location v = Some (ZoneType.REGULAR, 0, [2; 3; 4]) ∧
    ∃ first_spot, [2; 3; 4] = seqZ first_spot (Py.len [2; 3; 4]) ∧
                  0 < Py.len [2; 3; 4].
Proof.
  split; [exact demo_wf|].
  eexists _, _, _. split; [vm_compute; reflexivity|]. split; [reflexivity|].
  eapply (location_is_a_run demo_lot _ "van" VehicleType.VAN);
    [exact demo_wf|vm_compute; reflexivity|reflexivity].
Defined.

(** X11 on the sample run and the car in slot 1. *)
Lemma remove_vehicle_twice_witness :
  ∃ log lot',
    Lot.remove_vehicle demo_lot
      (Vehicle.set_location (Vehicle.init "car1" VehicleType.CAR)
         (ZoneType.REGULAR, 0, [1])) = Ok (log, lot') ∧
    Lot.remove_vehicle lot'
      (Vehicle.set_location (Vehicle.init "car1" VehicleType.CAR)
         (ZoneType.REGULAR, 0, [1]))
    = Ok ([VehicleNotInLot
             (Vehicle.set_location (Vehicle.init "car1" VehicleType.CAR)
                (ZoneType.REGULAR, 0, [1]))], lot').
Proof.
  eexists _, _. split; [vm_compute; reflexivity|].
  eapply (remove_vehicle_twice demo_lot). vm_compute. reflexivity.
Defined.

(** X12 on the sample run and a vehicle that was never parked. *)
Lemma remove_vehicle_never_raises_witness :
  reachable demo_zones demo_lot demo_issued ∧
  (Vehicle.init "stranger" VehicleType.CAR ∈ demo_issued ∨
   Lot.vehicles demo_lot !! Vehicle.id_ (Vehicle.init "stranger" VehicleType.CAR) = None) ∧
  ∃ log lot',
    Lot.remove_vehicle demo_lot (Vehicle.init "stranger" VehicleType.CAR) = Ok (log, lot').
Proof.
  split; [exact demo_reachable|].
  split; [right; vm_compute; reflexivity|].
  apply (remove_vehicle_never_raises demo_zones demo_lot demo_issued
           (Vehicle.init "stranger" VehicleType.CAR) demo_reachable).
  right. vm_compute. reflexivity.
Defined.


(** X14 on the sample run and the car in slot 1. *)
Lemma stored_vehicles_hold_their_slots_witness :
  reachable demo_zones demo_lot demo_issued ∧
  Lot.vehicles demo_lot !! "car1"
  = Some (Vehicle.set_location (Vehicle.init "car1" VehicleType.CAR)
            (ZoneType.REGULAR, 0, [1])) ∧
  Vehicle.set_location (Vehicle.init "car1" VehicleType.CAR) (ZoneType.REGULAR, 0, [1])
    ∈ demo_issued.
Proof.
  assert (Hstored : Lot.vehicles demo_lot !! "car1"
                    = Some (Vehicle.set_location (Vehicle.init "car1" VehicleType.CAR)
                              (ZoneType.REGULAR, 0, [1]))).
  { vm_compute. reflexivity. }
  split; [exact demo_reachable|]. split; [exact Hstored|].
  exact (proj1 (proj2 (stored_vehicles_hold_their_slots demo_zones demo_lot demo_issued
                         "car1" _ demo_reachable Hstored))).
Defined.

(** X15 on the sample run and two more cars. *)
Lemma add_vehicles_one_per_identifier_witness :
  reachable demo_zones demo_lot demo_issued ∧
  NoDup ["car2"; "car3"] ∧
  (∀ id, id ∈ ["car2"; "car3"] → id ∉ Vehicle.id_ <$> demo_issued) ∧
  ∃ vehicles log lot',
    Lot.add_vehicles demo_lot ["car2"; "car3"] VehicleType.CAR = Ok (vehicles, log, lot') ∧
    (Vehicle.id_ <$> vehicles = ["car2"; "car3"] ∧
     Forall (λ v, Vehicle.type_ v = VehicleType.CAR) vehicles ∧
     reachable demo_zones lot' (reverse vehicles ++ demo_issued)).
Proof.
  assert (Hnd : NoDup ["car2"; "car3"]).
  { apply NoDup_cons. split; [|apply NoDup_singleton].
    intros Hin. apply list_elem_of_singleton in Hin. discriminate. }
  assert (Hfresh : ∀ id, id ∈ ["car2"; "car3"] → id ∉ Vehicle.id_ <$> demo_issued).
  { apply Forall_forall. apply (bool_decide_unpack _). vm_compute. exact I. }
  split; [exact demo_reachable|]. split; [exact Hnd|]. split; [exact Hfresh|].
  eexists _, _, _. split; [vm_compute; reflexivity|].
  eapply (add_vehicles_one_per_identifier demo_zones demo_lot _ demo_issued
            ["car2"; "car3"] VehicleType.CAR _ _ demo_reachable Hnd Hfresh).
  vm_compute. reflexivity.
Defined.

(** X18 on the sample run and a van. *)
Lemma add_vehicle_first_zone_in_priority_order_witness :
  ∃ v log self',
    Lot.add_vehicle demo_lot "van" VehicleType.VAN = Ok (v, log, self') ∧
    Vehicle.location v = Some (ZoneType.REGULAR, 0, [2; 3; 4]) ∧
    ∃ before key after z,
      Vehicle.priority (Vehicle.init "van" VehicleType.VAN) = before ++ key :: after ∧
      0 ≤ 0 ∧
      (Lot.zones demo_lot !!! ZoneType.name key) !! Z.to_nat 0 = Some z ∧
      Zone.type_ z = ZoneType.REGULAR ∧
      ¬ passed_over (Vehicle.init "van" VehicleType.VAN) z ∧
      (PrimFloat.leb (Vehicle.size (Vehicle.init "van" VehicleType.VAN)) (Zone.size z) = true →
       ∃ m, [2; 3; 4] = [m]) ∧
      Forall (passed_over (Vehicle.init "van" VehicleType.VAN))
        (take (Z.to_nat 0) (Lot.zones demo_lot !!! ZoneType.name key)) ∧
      ∀ key', key' ∈ before →
              Forall (passed_over (Vehicle.init "van" VehicleType.VAN))
                (Lot.zones demo_lot !!! ZoneType.name key').
Proof.
  eexists _, _, _. split; [vm_compute; reflexivity|]. split; [reflexivity|].
  eapply (add_vehicle_first_zone_in_priority_order demo_lot "van" VehicleType.VAN);
    [vm_compute; reflexivity|reflexivity].
Defined.

(** X19 on the sample run and a van, which needs three slots of the
    REGULAR zone. *)
Lemma add_vehicle_never_raises_witness :
  reachable demo_zones demo_lot demo_issued ∧
  Forall (λ z, Zone.adjacent z = true →
               ∃ q n, Py.truediv (Vehicle.size (Vehicle.init "van" VehicleType.VAN))
                        (Zone.size z) = Ok q ∧
                      Py.ceil q = Ok n ∧ 0 < n) demo_zones ∧
  ∃ vehicle log lot', Lot.add_vehicle demo_lot "van" VehicleType.VAN = Ok (vehicle, log, lot').
Proof.
  assert (Hsizes : Forall (λ z, Zone.adjacent z = true →
               ∃ q n, Py.truediv (Vehicle.size (Vehicle.init "van" VehicleType.VAN))
                        (Zone.size z) = Ok q ∧
                      Py.ceil q = Ok n ∧ 0 < n) demo_zones).
  { repeat constructor. intros _. exists 3%float, 3.
    split; [vm_compute; reflexivity|]. split; [vm_compute; reflexivity|lia]. }
  split; [exact demo_reachable|]. split; [exact Hsizes|].
  exact (add_vehicle_never_raises demo_zones demo_lot demo_issued "van" VehicleType.VAN
           demo_reachable Hsizes).
Defined.

(** X20 on a zone as constructed. *)
Lemma zone_spots_string_shows_free_witness :
  zone_wf (Zone.init ZoneType.REGULAR 1%float 5 true) ∧
  String.length (Lot.zone_spots_string demo_lot (Zone.init ZoneType.REGULAR 1%float 5 true))
  = total_slots (Zone.init ZoneType.REGULAR 1%float 5 true).
Proof.
  split; [apply zone_wf_init|].
  exact (proj1 (zone_spots_string_shows_free demo_lot
                  (Zone.init ZoneType.REGULAR 1%float 5 true) (zone_wf_init _ _ _ _))).
Defined.

(** X21 on a lot with one COMPACT zone of two slots, once a car is
    parked. *)
Lemma count_is_number_stored_witness :
  ∃ car log lot,
    Lot.add_vehicle (Lot.init [Zone.init ZoneType.COMPACT 1%float 2 false])
      "car" VehicleType.CAR = Ok (car, log, lot) ∧
    Forall (λ z, Zone.adjacent z = false) [Zone.init ZoneType.COMPACT 1%float 2 false] ∧
    reachable [Zone.init ZoneType.COMPACT 1%float 2 false] lot [car] ∧
    Lot.num_parked_vehicle lot VehicleType.CAR
    = Z.of_nat (stored_of_type lot VehicleType.CAR).
Proof.
  eexists _, _, _. split; [vm_compute; reflexivity|].
  assert (Hadj : Forall (λ z, Zone.adjacent z = false)
                   [Zone.init ZoneType.COMPACT 1%float 2 false]).
  { by repeat constructor. }
  split; [exact Hadj|].
  match goal with
  | |- reachable ?zs ?lot ?issued ∧ _ =>
      assert (Hreach : reachable zs lot issued)
  end.
  { eapply (reach_add _ _ _ "car" VehicleType.CAR).
    - apply reach_init. repeat constructor. by eexists _, _, _, _.
    - apply not_elem_of_nil.
    - vm_compute. reflexivity. }
  split; [exact Hreach|].
  exact (count_is_number_stored _ _ _ VehicleType.CAR Hadj Hreach).
Defined.

